(** * Hierarchical classification metrics: [metrics.py]

    A shallow embedding of [sklearn_hierarchical_classification/metrics.py]
    ([multi_labeled], [fill_ancestors], [h_precision_score],
    [h_recall_score], [h_fbeta_score]) together with the parts of numpy,
    networkx and scikit-learn the module calls, and the properties of
    the label encoding, of the ancestor fill and of the three scores
    proved on it.

    Python objects live in a heap: the label matrices are mutable numpy
    arrays that can be aliased ([copy=False]), the class hierarchy is a
    [networkx.DiGraph], and [graph.reverse(copy=False)] is a view object
    that reads the graph it was made from.  Python exceptions are an
    explicit result; the heap survives an exception. *)

From Stdlib Require Import ZArith QArith Lia Lqa String Ascii.
From stdpp Require Import base decidable option list numbers strings sets relations sorting.

Local Open Scope Z_scope.
Local Open Scope nat_scope.
Local Open Scope list_scope.

(** ** Python values used as graph nodes *)

(** The nodes of the class hierarchy are Python values: the integer ids
    of the classes (column indices of the label matrices) and the [ROOT]
    marker.  Python's [==] on them is structural equality. *)
Inductive node : Type :=
  | PyInt (z : Z)
  | PyStr (s : string).

#[global] Instance node_eq_dec : EqDecision node.
Proof. solve_decision. Defined.

(** [a == b] *)
Definition node_eqb (a b : node) : bool :=
  match a, b with
  | PyInt x, PyInt y => (x =? y)%Z
  | PyStr x, PyStr y => String.eqb x y
  | _, _ => false
  end.

(** [w in seen] *)
Definition node_in (w : node) (seen : list node) : bool :=
  existsb (node_eqb w) seen.

(** ** Exceptions and the heap monad *)

Inductive exn : Type :=
  | IndexError
  | ValueError
  | ZeroDivisionError
  | AttributeError.

Inductive result (A : Type) : Type :=
  | Ok (a : A)
  | Raise (e : exn).
Arguments Ok {A} a.
Arguments Raise {A} e.

Definition result_bind {A B} (r : result A) (f : A -> result B) : result B :=
  match r with
  | Ok a => f a
  | Raise e => Raise e
  end.

(** References are positions in the heap. *)
Abbreviation loc := nat (only parsing).

(** A numpy array of shape [(length data, n_classes)], stored by rows.
    The number of columns is kept apart from the rows: an array with no
    sample still has its columns. *)
Record ndarray : Type := mk_ndarray {
  n_classes : nat;
  data : list (list Z)
}.

(** A [networkx.DiGraph]: the nodes in insertion order and the edges
    (parent, child) in insertion order.  [G._succ[u]] is the list of the
    [v] with an edge [(u, v)], in that order, and [G._pred[v]] the list
    of the [u]. *)
Record DiGraph : Type := mk_DiGraph {
  nodes : list node;
  edges : list (node * node)
}.

Inductive obj : Type :=
  | ONdarray (a : ndarray)
  | ODiGraph (g : DiGraph)
  | OReverseView (graph : loc).

Abbreviation heap := (list obj) (only parsing).

Definition M (A : Type) : Type := heap -> result A * heap.

Definition ret {A} (a : A) : M A := fun h => (Ok a, h).

Definition bind {A B} (m : M A) (f : A -> M B) : M B :=
  fun h =>
    match m h with
    | (Ok a, h') => f a h'
    | (Raise e, h') => (Raise e, h')
    end.

Definition raise {A} (e : exn) : M A := fun h => (Raise e, h).

Definition lift {A} (r : result A) : M A := fun h => (r, h).

Declare Scope heap_scope.
Delimit Scope heap_scope with heap.
Notation "'let*' x ':=' m 'in' k" := (bind m (fun x => k))
  (at level 10, x name, m at level 100, k at level 200) : heap_scope.
Local Open Scope heap_scope.

(** A new object, after the objects the heap holds. *)
Definition alloc (o : obj) : M loc := fun h => (Ok (length h), h ++ [o]).

(** The object behind a reference.  Python has no dangling reference;
    a position outside the heap is given an exception to keep the
    operation total. *)
Definition load (l : loc) : M obj :=
  fun h =>
    match h !! l with
    | Some o => (Ok o, h)
    | None => (Raise AttributeError, h)
    end.

(** An object written in place. *)
Definition store (l : loc) (o : obj) : M unit :=
  fun h => (Ok tt, <[l := o]> h).

(** The array behind a reference; any other object has none of the
    array's attributes. *)
Definition get_ndarray (l : loc) : M ndarray :=
  let* o := load l in
  match o with
  | ONdarray a => ret a
  | _ => raise AttributeError
  end.

(** [for x in xs: body(x)], stopping at the first exception. *)
Fixpoint for_each {A} (xs : list A) (body : A -> M unit) : M unit :=
  match xs with
  | [] => ret tt
  | x :: rest => let* _ := body x in for_each rest body
  end.

(** ** numpy *)

(** An integer index into an axis of length [n]: negative indices count
    from the end, anything outside [-n .. n-1] is an [IndexError]. *)
Definition normalize_index (n : nat) (z : Z) : result nat :=
  if ((0 <=? z) && (z <? Z.of_nat n))%Z then Ok (Z.to_nat z)
  else if ((- Z.of_nat n <=? z) && (z <? 0))%Z then Ok (Z.to_nat (z + Z.of_nat n))
  else Raise IndexError.

(** [y.copy()] *)
Definition ndarray_copy (y : loc) : M loc :=
  let* a := get_ndarray y in
  alloc (ONdarray a).

(** [a[:, target]]: the column of a Python integer; a string is no index. *)
Definition getitem_column (a : ndarray) (target : node) : result (list Z) :=
  match target with
  | PyInt z =>
      result_bind (normalize_index (n_classes a) z) (fun c =>
      Ok (map (fun row => default 0%Z (row !! c)) (data a)))
  | PyStr _ => Raise IndexError
  end.

(** [np.where(col > 0)[0]]: the positions of the positive entries, in
    increasing order, counted from [i]. *)
Fixpoint where_positive (i : Z) (col : list Z) : list Z :=
  match col with
  | [] => []
  | x :: rest =>
      if (0 <? x)%Z then i :: where_positive (i + 1)%Z rest
      else where_positive (i + 1)%Z rest
  end.

(** The array numpy makes of a Python list when it is used as an index:
    integers give an integer array; the empty list gives a float array
    and a list holding a string a string array, and neither is a valid
    index array, whatever its size. *)
Fixpoint all_ints (l : list node) : option (list Z) :=
  match l with
  | [] => Some []
  | PyInt z :: rest => cons z <$> all_ints rest
  | PyStr _ :: _ => None
  end.

Definition index_array (l : list node) : result (list Z) :=
  match l with
  | [] => Raise IndexError
  | _ => match all_ints l with
         | Some zs => Ok zs
         | None => Raise IndexError
         end
  end.

(** [np.meshgrid(xs, ys)] with the default [indexing='xy']: two arrays of
    shape [(len ys, len xs)], here zipped into one array of pairs
    [(X[i][j], Y[i][j]) = (xs[j], ys[i])]. *)
Definition meshgrid {A B} (xs : list A) (ys : list B) : list (list (A * B)) :=
  map (fun y => map (fun x => (x, y)) xs) ys.

Definition set_cell (a : ndarray) (rc : nat * nat) (v : Z) : ndarray :=
  {| n_classes := n_classes a;
     data := alter (fun row => <[rc.2 := v]> row) rc.1 (data a) |}.

Fixpoint normalize_indices (a : ndarray) (ix : list (Z * Z)) : result (list (nat * nat)) :=
  match ix with
  | [] => Ok []
  | (r, c) :: rest =>
      result_bind (normalize_index (length (data a)) r) (fun r' =>
      result_bind (normalize_index (n_classes a) c) (fun c' =>
      result_bind (normalize_indices a rest) (fun rest' =>
      Ok ((r', c') :: rest'))))
  end.

(** [a[(X, Y)] = v] for two integer index arrays of one shape: every
    index is checked before any cell is written. *)
Definition setitem_pairs (a : ndarray) (ix : list (Z * Z)) (v : Z) : result ndarray :=
  result_bind (normalize_indices a ix) (fun ix' =>
  Ok (fold_left (fun a' rc => set_cell a' rc v) ix' a)).

(** [np.count_nonzero(a)] *)
Definition count_nonzero (a : ndarray) : nat :=
  length (List.filter (fun x => negb (x =? 0)%Z) (concat (data a))).

(** Broadcasting of one axis: equal lengths, or one of them 1. *)
Definition broadcast_dim (n m : nat) : result nat :=
  if n =? m then Ok n
  else if n =? 1 then Ok m
  else if m =? 1 then Ok n
  else Raise ValueError.

Definition stretch {A} (n : nat) (l : list A) : list A :=
  match l with
  | [x] => if n =? 1 then l else replicate n x
  | _ => l
  end.

(** [(a != 0) & (b != 0)], a boolean array of the broadcast shape. *)
Definition both_nonzero (a b : ndarray) : result (list (list bool)) :=
  result_bind (broadcast_dim (length (data a)) (length (data b))) (fun r =>
  result_bind (broadcast_dim (n_classes a) (n_classes b)) (fun c =>
  Ok (zip_with (zip_with (fun x y => andb (negb (x =? 0)%Z) (negb (y =? 0)%Z)))
        (stretch r (map (stretch c) (data a)))
        (stretch r (map (stretch c) (data b)))))).

(** [np.where(m)] of a boolean array: the (row, column) positions that
    hold [True], in row-major order. *)
Definition where_true (m : list (list bool)) : list (nat * nat) :=
  concat (imap (fun i row =>
            omap (fun jb : nat * bool => if jb.2 then Some (i, jb.1) else None)
                 (imap (fun j b => (j, b)) row)) m).

(** ** networkx *)

(** [G.adj[v]] of a directed graph: the successors of [v], in the order
    their edges were added. *)
Definition successors (G : DiGraph) (v : node) : list node :=
  map snd (List.filter (fun e => node_eqb e.1 v) (edges G)).

(** [G._pred[v]]: the predecessors of [v]. *)
Definition predecessors (G : DiGraph) (v : node) : list node :=
  map fst (List.filter (fun e => node_eqb e.2 v) (edges G)).

(** What a reversed view shows of the graph it reads: the same nodes,
    every edge turned round ([_succ] and [_pred] exchanged). *)
Definition reversed (G : DiGraph) : DiGraph :=
  {| nodes := nodes G;
     edges := map (fun e => (e.2, e.1)) (edges G) |}.

(** [graph.reverse(copy=False)]: a new view object on [graph]; the graph
    itself is not written.  The hierarchy is a [networkx.DiGraph] (so the
    docstrings say); a view of a view is not modelled. *)
Definition reverse (graph : loc) : M loc :=
  let* o := load graph in
  match o with
  | ODiGraph _ => alloc (OReverseView graph)
  | _ => raise AttributeError
  end.

(** The graph a reference shows when it is read: a graph object shows
    itself, a reversed view shows the current state of its graph. *)
Definition read_graph (G : loc) : M DiGraph :=
  let* o := load G in
  match o with
  | ODiGraph g => ret g
  | OReverseView l =>
      let* o' := load l in
      match o' with
      | ODiGraph g => ret (reversed g)
      | _ => raise AttributeError
      end
  | ONdarray _ => raise AttributeError
  end.

(** One adjacency list of the breadth-first search: the neighbours not
    seen yet are marked seen and appended to the next level. *)
Fixpoint visit (seen nextlevel : list node) (ws : list node) : list node * list node :=
  match ws with
  | [] => (seen, nextlevel)
  | w :: rest =>
      if node_in w seen then visit seen nextlevel rest
      else visit (seen ++ [w]) (nextlevel ++ [w]) rest
  end.

(** One level: every node of [thislevel] in turn. *)
Fixpoint expand (G : DiGraph) (seen nextlevel : list node) (thislevel : list node)
  : list node * list node :=
  match thislevel with
  | [] => (seen, nextlevel)
  | v :: rest =>
      let '(seen', nextlevel') := visit seen nextlevel (successors G v) in
      expand G seen' nextlevel' rest
  end.

(** [_single_shortest_path_length]: the levels after [thislevel], each
    node with its distance.  All nodes at one distance come before the
    nodes at the next; inside a level the nodes stand in the order the
    search finds them (releases of networkx differ there, and nothing
    below depends on it).  A graph of [n] nodes has fewer than [n]
    levels after the source, which bounds the loop
    ([single_source_fuel]). *)
Fixpoint bfs_levels (fuel : nat) (G : DiGraph) (seen thislevel : list node) (level : nat)
  : list (node * nat) :=
  match fuel with
  | 0 => []
  | S fuel' =>
      match thislevel with
      | [] => []
      | _ =>
          let '(seen', nextlevel) := expand G seen [] thislevel in
          map (fun w => (w, S level)) nextlevel
            ++ bfs_levels fuel' G seen' nextlevel (S level)
      end
  end.

(** [dict(single_source_shortest_path_length(G, source))]: the nodes
    reachable from [source] with their distances, as the insertion-ordered
    dictionary the search fills. *)
Definition single_source_shortest_path_length (G : DiGraph) (source : node)
  : list (node * nat) :=
  (source, 0) :: bfs_levels (length (nodes G)) G [source] [source] 0.

(** [all_pairs_shortest_path_length(G)]: one pair per node of [G], in
    node order. *)
Definition all_pairs_shortest_path_length (G : loc) : M (list (node * list (node * nat))) :=
  let* g := read_graph G in
  ret (map (fun n => (n, single_source_shortest_path_length g n)) (nodes g)).

(** [list(d.keys())] *)
Definition keys {K V} (d : list (K * V)) : list K := map fst d.

(** ** The metrics module *)

Section Metrics.

(** [ROOT] is imported from [sklearn_hierarchical_classification.constants],
    which is not part of the sources at hand: the module is read for any
    value of the constant. *)
Variable ROOT : node.

(** The body of the loop of [fill_ancestors]. *)
Definition fill_target (y y_ : loc) (path : node * list (node * nat)) : M unit :=
  let '(target, distances) := path in
  if node_eqb target ROOT then ret tt
  else
    let* a := get_ndarray y in
    let* ix_rows := lift (result_bind (getitem_column a target)
                            (fun col => Ok (where_positive 0 col))) in
    let ancestors := removelast (keys distances) in
    let* a_ := get_ndarray y_ in
    let* cols := lift (index_array ancestors) in
    let* a_' := lift (setitem_pairs a_ (concat (meshgrid ix_rows cols)) 1) in
    store y_ (ONdarray a_').

Definition fill_ancestors (y graph : loc) (copy : bool) : M loc :=
  let* y_ := (if copy then ndarray_copy y else ret y) in
  let* rev := reverse graph in
  let* paths := all_pairs_shortest_path_length rev in
  let* _ := for_each paths (fill_target y y_) in
  let* _ := reverse graph in
  ret y_.

(** [n / d] on two Python integers ([len] and [np.count_nonzero] return
    integers): true division, an exception when the divisor is zero.
    Python floats are read as exact rationals, so rounding is not
    modelled. *)
Definition int_truediv (n d : nat) : result Q :=
  if d =? 0 then Raise ZeroDivisionError
  else Ok (inject_Z (Z.of_nat n) / inject_Z (Z.of_nat d))%Q.

(** [x / d] on two Python floats: an exception when the divisor is
    zero. *)
Definition float_truediv (x d : Q) : result Q :=
  if Qeq_bool d 0 then Raise ZeroDivisionError
  else Ok (x / d)%Q.

Definition h_precision_score (y_true y_pred class_hierarchy : loc) : M Q :=
  let* y_true_ := fill_ancestors y_true class_hierarchy true in
  let* y_pred_ := fill_ancestors y_pred class_hierarchy true in
  let* t := get_ndarray y_true_ in
  let* p := get_ndarray y_pred_ in
  let* mask := lift (both_nonzero t p) in
  let ix := where_true mask in
  let true_positives := length ix in
  let all_results := count_nonzero p in
  lift (int_truediv true_positives all_results).

Definition h_recall_score (y_true y_pred class_hierarchy : loc) : M Q :=
  let* y_true_ := fill_ancestors y_true class_hierarchy true in
  let* y_pred_ := fill_ancestors y_pred class_hierarchy true in
  let* t := get_ndarray y_true_ in
  let* p := get_ndarray y_pred_ in
  let* mask := lift (both_nonzero t p) in
  let ix := where_true mask in
  let true_positives := length ix in
  let all_positives := count_nonzero t in
  lift (int_truediv true_positives all_positives).

Definition h_fbeta_score (y_true y_pred class_hierarchy : loc) (beta : Q) : M Q :=
  let* hP := h_precision_score y_true y_pred class_hierarchy in
  let* hR := h_recall_score y_true y_pred class_hierarchy in
  lift (float_truediv ((1 + beta ^ 2) * hP * hR) (beta ^ 2 * hP + hR))%Q.

End Metrics.

(** ** The fill as a function of the matrix and the graph *)

Section FillLoop.

Variable ROOT : node.

(** One turn of the loop on the contents of the two arrays: [y] is the
    array the rows are read from when [y_] is a copy; without a copy the
    rows are read from [y_] itself, which earlier turns have written. *)
Definition fill_step (copy : bool) (y y_ : ndarray) (path : node * list (node * nat))
  : result ndarray :=
  let '(target, distances) := path in
  if node_eqb target ROOT then Ok y_
  else
    result_bind (getitem_column (if copy then y else y_) target) (fun col =>
    result_bind (index_array (removelast (keys distances))) (fun cols =>
    setitem_pairs y_ (concat (meshgrid (where_positive 0 col) cols)) 1)).

(** The loop: the outcome and the contents of [y_] when it ends or stops. *)
Fixpoint fill_loop (copy : bool) (y y_ : ndarray) (paths : list (node * list (node * nat)))
  : result unit * ndarray :=
  match paths with
  | [] => (Ok tt, y_)
  | p :: rest =>
      match fill_step copy y y_ p with
      | Ok y_' => fill_loop copy y y_' rest
      | Raise e => (Raise e, y_)
      end
  end.

(** The pairs the generator yields for a graph: the search runs on the
    reversed graph. *)
Definition ancestor_paths (G : DiGraph) : list (node * list (node * nat)) :=
  map (fun n => (n, single_source_shortest_path_length (reversed G) n)) (nodes G).

Definition filled (copy : bool) (a : ndarray) (G : DiGraph) : result unit * ndarray :=
  fill_loop copy a a (ancestor_paths G).

(** The two filled matrices a score compares, when both fills return. *)
Definition filled_pair (A B : ndarray) (G : DiGraph) : result (ndarray * ndarray) :=
  match filled true A G with
  | (Ok _, t) =>
      match filled true B G with
      | (Ok _, p) => Ok (t, p)
      | (Raise e, _) => Raise e
      end
  | (Raise e, _) => Raise e
  end.

(** The scores of two filled matrices. *)
Definition precision_of (tp : ndarray * ndarray) : result Q :=
  result_bind (both_nonzero tp.1 tp.2) (fun mask =>
  int_truediv (length (where_true mask)) (count_nonzero tp.2)).

Definition recall_of (tp : ndarray * ndarray) : result Q :=
  result_bind (both_nonzero tp.1 tp.2) (fun mask =>
  int_truediv (length (where_true mask)) (count_nonzero tp.1)).

Definition fbeta_of (beta hP hR : Q) : result Q :=
  float_truediv ((1 + beta ^ 2) * hP * hR) (beta ^ 2 * hP + hR)%Q.

End FillLoop.

(** ** Reading matrices *)

(** The entry of row [i] and column [j], when there is one. *)
Definition cell (a : ndarray) (i j : nat) : option Z :=
  match data a !! i with
  | Some row => row !! j
  | None => None
  end.

(** A matrix of 0-1. *)
Definition is_binary (a : ndarray) : bool :=
  forallb (forallb (fun v => (v =? 0)%Z || (v =? 1)%Z)) (data a).

(** [a'] is [a] with some of its entries overwritten by 1. *)
Definition marks_only (a a' : ndarray) : Prop :=
  n_classes a' = n_classes a /\
  length (data a') = length (data a) /\
  forall i j, cell a' i j = cell a i j \/
              (is_Some (cell a i j) /\ cell a' i j = Some 1%Z).

(** A positive entry, as [y[:, target] > 0] reads it. *)
Definition positive (a : ndarray) (i t : nat) : Prop :=
  exists x, cell a i t = Some x /\ (0 < x)%Z.

(** Every row has [n_classes] entries. *)
Definition wf_ndarray (a : ndarray) : Prop :=
  Forall (fun row => length row = n_classes a) (data a).

(** The number of [True] in a row of a boolean array. *)
Definition count_true (row : list bool) : nat := length (List.filter id row).

(** ** Hierarchies *)

(** What networkx keeps true of a graph: no node twice, and both ends of
    every edge among the nodes. *)
Definition wf_DiGraph (G : DiGraph) : Prop :=
  NoDup (nodes G) /\
  forall u v, (u, v) ∈ edges G -> u ∈ nodes G /\ v ∈ nodes G.

(** A hierarchy that is a tree: the root has no parent, every other node
    has exactly one, and no path of edges comes back to where it
    started (the edges go down the levels of some depth). *)
Record tree_hierarchy (ROOT : node) (G : DiGraph) : Prop := {
  tree_wf : wf_DiGraph G;
  tree_root : predecessors G ROOT = [];
  tree_parent : forall v, v ∈ nodes G -> v <> ROOT -> exists u, predecessors G v = [u];
  tree_acyclic : exists depth : node -> nat,
                   forall u v, (u, v) ∈ edges G -> depth u < depth v
}.

(** The nodes from [v] up to the root, following the parents. *)
Inductive path_to_root (ROOT : node) (G : DiGraph) : node -> list node -> Prop :=
  | path_root : path_to_root ROOT G ROOT [ROOT]
  | path_step v u l :
      v <> ROOT -> predecessors G v = [u] -> path_to_root ROOT G u l ->
      path_to_root ROOT G v (v :: l).

(** A list of nodes with the distances [level], [level + 1], ... *)
Fixpoint with_distances (level : nat) (l : list node) : list (node * nat) :=
  match l with
  | [] => []
  | w :: rest => (w, level) :: with_distances (S level) rest
  end.

(** [c] is [t] or an ancestor of [t]: a path of parent-to-child edges
    leads from [c] to [t]. *)
Definition ancestor_or_self (G : DiGraph) (c t : node) : Prop :=
  rtc (fun u v => (u, v) ∈ edges G) c t.

(** The precondition of [fill_ancestors]: every node of the graph but
    the root is the id of a column. *)
Definition columns_cover (ROOT : node) (G : DiGraph) (a : ndarray) : Prop :=
  forall v, v ∈ nodes G -> v <> ROOT ->
    exists c, v = PyInt (Z.of_nat c) /\ c < n_classes a.

(** A pair of the generator for a class [t]: the keys but the last are
    the classes [cs], each a column of [a]. *)
Definition class_path (ROOT : node) (a : ndarray) (p : node * list (node * nat))
    (t : nat) (cs : list nat) : Prop :=
  p.1 = PyInt (Z.of_nat t) /\
  p.1 <> ROOT /\
  t < n_classes a /\
  removelast (keys p.2) = map (fun c => PyInt (Z.of_nat c)) cs /\
  cs <> [] /\
  (forall c, c ∈ cs -> c < n_classes a).

(** ** Hierarchies and label matrices used as test inputs *)

(** [Root -> A -> B], with [A] relabelled 0 and [B] relabelled 1. *)
Definition chain_AB (ROOT : node) : DiGraph :=
  {| nodes := [ROOT; PyInt 0; PyInt 1];
     edges := [(ROOT, PyInt 0); (PyInt 0, PyInt 1)] |}.

(** One sample labelled [{B}], and one labelled [{A}]. *)
Definition only_B : ndarray := {| n_classes := 2; data := [[0; 1]]%Z |}.
Definition only_A : ndarray := {| n_classes := 2; data := [[1; 0]]%Z |}.
Definition nothing : ndarray := {| n_classes := 2; data := [[0; 0]]%Z |}.

(** The heap of a call on [chain_AB]: the true labels, the predicted
    labels, the hierarchy. *)
Definition chain_heap (ROOT : node) (y_true y_pred : ndarray) : heap :=
  [ONdarray y_true; ONdarray y_pred; ODiGraph (chain_AB ROOT)].

(** A hierarchy that is not a tree: [Root -> 0 -> 1 -> 2] and also
    [Root -> 2], so class 2 has the parents 1 and [Root]. *)
Definition shortcut_dag (ROOT : node) : DiGraph :=
  {| nodes := [ROOT; PyInt 0; PyInt 1; PyInt 2];
     edges := [(ROOT, PyInt 0); (PyInt 0, PyInt 1); (PyInt 1, PyInt 2);
               (ROOT, PyInt 2)] |}.

(** One sample labelled [{2}]. *)
Definition only_2 : ndarray := {| n_classes := 3; data := [[0; 0; 1]]%Z |}.

Definition shortcut_heap (ROOT : node) : heap :=
  [ONdarray only_2; ODiGraph (shortcut_dag ROOT)].

(** [Root -> A -> B] and [Root -> C], relabelled 0, 1, 2. *)
Definition fork_ABC (ROOT : node) : DiGraph :=
  {| nodes := [ROOT; PyInt 0; PyInt 1; PyInt 2];
     edges := [(ROOT, PyInt 0); (PyInt 0, PyInt 1); (ROOT, PyInt 2)] |}.

(** One sample labelled [{B}], and one labelled [{C}]. *)
Definition only_B3 : ndarray := {| n_classes := 3; data := [[0; 1; 0]]%Z |}.
Definition only_C3 : ndarray := {| n_classes := 3; data := [[0; 0; 1]]%Z |}.

(** True label [{B}], predicted label [{C}]. *)
Definition fork_heap (ROOT : node) : heap :=
  [ONdarray only_B3; ONdarray only_C3; ODiGraph (fork_ABC ROOT)].

(** ** Python strings and scikit-learn's label binarizer *)

(** [iter(s)] on a string: its characters, each a string of length 1.
    (A string is read as a sequence of 8-bit characters.) *)
Definition characters (s : string) : list string :=
  (fun c => String c EmptyString) <$> list_ascii_of_string s.

(** What comes of iterating over the labels: a value, or the [TypeError]
    of [iter] on a value that is no iterable.  The exceptions of the
    metrics have no such case, so it stands beside them. *)
Inductive iterated (A : Type) : Type :=
  | Iterated (a : A)
  | TypeError.
Arguments Iterated {A} a.
Arguments TypeError {A}.

(** [itertools.chain.from_iterable(y)], consumed to its end: the
    elements of the elements of [y]; an integer has no elements. *)
Fixpoint chain_from_iterable (y : list node) : iterated (list string) :=
  match y with
  | [] => Iterated []
  | PyStr s :: rest =>
      match chain_from_iterable rest with
      | Iterated labels => Iterated (characters s ++ labels)
      | TypeError => TypeError
      end
  | PyInt _ :: _ => TypeError
  end.

(** The order of Python on strings. *)
Definition string_le (a b : string) : Prop := String.leb a b = true.

#[global] Instance string_le_dec : RelDecision string_le.
Proof. intros a b. unfold string_le. apply _. Defined.

(** [MultiLabelBinarizer().fit(y).classes_]:
    [sorted(set(itertools.chain.from_iterable(y)))]. *)
Definition fit (y : list node) : iterated (list string) :=
  match chain_from_iterable y with
  | Iterated labels => Iterated (merge_sort string_le (remove_dups labels))
  | TypeError => TypeError
  end.

(** [class_mapping[label]] for [class_mapping = dict(zip(classes_,
    range(len(classes_))))]; [None] is [KeyError]. *)
Fixpoint class_index (classes : list string) (label : node) : option nat :=
  match classes with
  | [] => None
  | c :: rest =>
      if node_eqb (PyStr c) label then Some 0 else S <$> class_index rest label
  end.

(** [mlb.transform(y)] as a dense array: one row per element of [y], one
    column per class; the row holds 1 in the columns [index] of its
    labels.  A label that is no class is left out (scikit-learn warns
    and goes on). *)
Definition transform (classes : list string) (y : list (list node)) : ndarray :=
  {| n_classes := length classes;
     data := (fun labels =>
                let index := omap (class_index classes) labels in
                (fun j => if existsb (Nat.eqb j) index then 1%Z else 0%Z)
                  <$> seq 0 (length classes)) <$> y |}.

(** ** networkx: relabelling *)

(** [mapping.get(n, n)] *)
Definition mapping_get (mapping : list (node * node)) (n : node) : node :=
  match List.find (fun kv => node_eqb kv.1 n) mapping with
  | Some kv => kv.2
  | None => n
  end.

(** [H.add_node(n)] on the list of nodes *)
Definition add_node (ns : list node) (n : node) : list node :=
  if node_in n ns then ns else ns ++ [n].

(** [H.add_edge(u, v)]: both ends become nodes, and the edge is added
    unless the graph has it. *)
Definition add_edge (H : DiGraph) (e : node * node) : DiGraph :=
  {| nodes := add_node (add_node (nodes H) e.1) e.2;
     edges := if existsb (fun e' => node_eqb e'.1 e.1 && node_eqb e'.2 e.2) (edges H)
              then edges H else edges H ++ [e] |}.

(** [G.edges]: for every node in turn, the edges to its successors. *)
Definition out_edges (G : DiGraph) : list (node * node) :=
  n ← nodes G; pair n <$> successors G n.

(** [relabel_nodes(G, mapping)] with the default [copy=True]: a new
    graph, first the nodes of [G] under their new names, then its edges. *)
Definition relabel_nodes (G : DiGraph) (mapping : list (node * node)) : DiGraph :=
  let H := {| nodes := fold_left add_node (mapping_get mapping <$> nodes G) [];
              edges := [] |} in
  fold_left add_edge
    ((fun e => (mapping_get mapping e.1, mapping_get mapping e.2)) <$> out_edges G) H.

(** The graph object behind a reference. *)
Definition get_graph (l : loc) : M DiGraph :=
  let* o := load l in
  match o with
  | ODiGraph g => ret g
  | _ => raise AttributeError
  end.

Section Labels.

Variable ROOT : node.

(** [multi_labeled(y_true, y_pred, graph)]: what the context manager
    yields to the body of the [with] statement; nothing runs after the
    body.  [y_true] and [y_pred] are sequences of label sequences. *)
Definition multi_labeled (y_true y_pred : list (list node)) (graph : loc)
  : M (iterated (loc * loc * loc)) :=
  let* G := get_graph graph in
  match fit (List.filter (fun n => negb (node_eqb n ROOT)) (nodes G)) with
  | TypeError => ret TypeError
  | Iterated classes_ =>
      let node_label_mapping :=
        imap (fun new_label old_label => (PyStr old_label, PyInt (Z.of_nat new_label)))
             classes_ in
      let* yt := alloc (ONdarray (transform classes_ y_true)) in
      let* yp := alloc (ONdarray (transform classes_ y_pred)) in
      let* g := alloc (ODiGraph (relabel_nodes G node_label_mapping)) in
      ret (Iterated (yt, yp, g))
  end.

End Labels.

(** The new name of a node: the index of its class, or the node itself. *)
Definition new_label (classes : list string) (n : node) : node :=
  match class_index classes n with
  | Some i => PyInt (Z.of_nat i)
  | None => n
  end.

(** What the fill of an encoded sample has to hold, in the words of the
    hierarchy as it was given: the matrix has a row per sample and a
    column per class, its entries are 0 or 1, and the entry of a sample
    and a class is 1 exactly when a label of the sample is a class of
    the graph that is the class itself or has it among its ancestors. *)
Definition labels_closure (ROOT : node) (G : DiGraph) (classes : list string)
    (y : list (list node)) (a : ndarray) : Prop :=
  n_classes a = length classes /\
  length (data a) = length y /\
  forall i j labels c,
    y !! i = Some labels -> classes !! j = Some c ->
    (cell a i j = Some 1%Z \/ cell a i j = Some 0%Z) /\
    (cell a i j = Some 1%Z <->
     exists l, l ∈ labels /\ l ∈ nodes G /\ l <> ROOT /\ ancestor_or_self G (PyStr c) l).

(** ** The cells a fill has to mark *)

(** The cell of row [i] and column [j] is to be marked: the row is
    positive in a class of the graph that is the class [j] or has it
    among its ancestors. *)
Definition closure_cell (ROOT : node) (G : DiGraph) (a : ndarray) (i j : nat) : Prop :=
  is_Some (cell a i j) /\ PyInt (Z.of_nat j) <> ROOT /\
  exists t, PyInt (Z.of_nat t) ∈ nodes G /\ PyInt (Z.of_nat t) <> ROOT /\
            positive a i t /\
            ancestor_or_self G (PyInt (Z.of_nat j)) (PyInt (Z.of_nat t)).

(** A pair of the generator on a tree: the root, or a class with the
    classes at and above it. *)
Definition tree_pair (ROOT : node) (G : DiGraph) (a : ndarray)
    (p : node * list (node * nat)) : Prop :=
  p.1 = ROOT \/
  exists t cs, class_path ROOT a p t cs /\ p.1 ∈ nodes G /\
    forall j, j ∈ cs <->
      PyInt (Z.of_nat j) <> ROOT /\ ancestor_or_self G (PyInt (Z.of_nat j)) p.1.

(** ** Hierarchies with class names used as test inputs *)


(** [Root -> b -> a], the classes named by one character. *)
Definition chain_ba (ROOT : node) : DiGraph :=
  {| nodes := [ROOT; PyStr "b"; PyStr "a"];
     edges := [(ROOT, PyStr "b"); (PyStr "b", PyStr "a")] |}.

(** * Lemmas *)

(** ** Comparing nodes *)

Lemma node_eqb_refl a : node_eqb a a = true.
Proof. destruct a; cbn; [apply Z.eqb_refl | apply String.eqb_refl]. Qed.

Lemma node_eqb_neq a b : a <> b -> node_eqb a b = false.
Proof.
  destruct a, b; cbn; intros H; try reflexivity.
  - apply Z.eqb_neq. congruence.
  - apply String.eqb_neq. congruence.
Qed.

(** Running a search by hand on a graph whose [ROOT] is not known: the
    comparisons with [ROOT] are settled by what is known of it, the
    others by computation. *)
Ltac eval_eqb :=
  repeat match goal with
  | |- context [node_eqb ?a ?a] => rewrite (node_eqb_refl a)
  | H : ?a <> ?b |- context [node_eqb ?a ?b] =>
      rewrite (node_eqb_neq a b H)
  | H : ?a <> ?b |- context [node_eqb ?b ?a] =>
      rewrite (node_eqb_neq b a (not_eq_sym H))
  | |- context [node_eqb (PyInt ?a) (PyInt ?b)] =>
      let v := eval vm_compute in (node_eqb (PyInt a) (PyInt b)) in
      match v with
      | true => idtac
      | false => idtac
      end;
      change (node_eqb (PyInt a) (PyInt b)) with v
  end.

Ltac run_search := repeat (progress (cbn -[node_eqb]; eval_eqb)).

Lemma node_eqb_eq a b : node_eqb a b = true <-> a = b.
Proof.
  destruct a as [x|x], b as [y|y]; cbn; split; try congruence.
  - intros H. apply Z.eqb_eq in H. congruence.
  - intros [= ->]. apply Z.eqb_refl.
  - intros H. apply String.eqb_eq in H. congruence.
  - intros [= ->]. apply String.eqb_refl.
Qed.

Lemma node_in_spec w l : node_in w l = true <-> w ∈ l.
Proof.
  unfold node_in. rewrite existsb_exists. split.
  - intros (x & Hin & Heq). apply node_eqb_eq in Heq. subst x.
    by apply list_elem_of_In.
  - intros Hin. exists w. split; [by apply list_elem_of_In | by apply node_eqb_eq].
Qed.

Lemma node_in_false w l : node_in w l = false <-> w ∉ l.
Proof.
  rewrite <- node_in_spec. destruct (node_in w l); split; congruence.
Qed.

(** ** Running the heap operations *)

Lemma bind_ok {A B} (m : M A) (f : A -> M B) h a h' :
  m h = (Ok a, h') -> bind m f h = f a h'.
Proof. unfold bind. intros ->. reflexivity. Qed.

Lemma bind_raise {A B} (m : M A) (f : A -> M B) h e h' :
  m h = (Raise e, h') -> bind m f h = (Raise e, h').
Proof. unfold bind. intros ->. reflexivity. Qed.

Lemma get_ndarray_run h l a :
  h !! l = Some (ONdarray a) -> get_ndarray l h = (Ok a, h).
Proof. intros H. unfold get_ndarray, bind, load. rewrite H. reflexivity. Qed.

Lemma reverse_run h g G :
  h !! g = Some (ODiGraph G) ->
  reverse g h = (Ok (length h), h ++ [OReverseView g]).
Proof. intros H. unfold reverse, bind, load. rewrite H. reflexivity. Qed.

Lemma all_pairs_run h g G v :
  h !! g = Some (ODiGraph G) -> h !! v = Some (OReverseView g) ->
  all_pairs_shortest_path_length v h = (Ok (ancestor_paths G), h).
Proof.
  intros Hg Hv. unfold all_pairs_shortest_path_length, read_graph, bind, load.
  rewrite Hv, Hg. reflexivity.
Qed.

(** ** Writing only adds marks *)

Lemma marks_only_refl a : marks_only a a.
Proof. repeat split. intros i j. left. reflexivity. Qed.

Lemma marks_only_trans a b c : marks_only a b -> marks_only b c -> marks_only a c.
Proof.
  intros (Hn1 & Hl1 & H1) (Hn2 & Hl2 & H2).
  split; [congruence|]. split; [congruence|].
  intros i j.
  destruct (H2 i j) as [E2|[S2 E2]], (H1 i j) as [E1|[S1 E1]].
  - left. congruence.
  - right. split; [exact S1 | congruence].
  - right. split; [rewrite <- E1; exact S2 | exact E2].
  - right. split; [exact S1 | exact E2].
Qed.

Lemma cell_set_cell a r c v i j :
  cell (set_cell a (r, c) v) i j =
    if decide (i = r /\ j = c) then (fun _ => v) <$> cell a i j else cell a i j.
Proof.
  unfold cell, set_cell. cbn [data fst snd].
  destruct (decide (i = r)) as [->|Hi].
  - rewrite list_lookup_alter_eq.
    destruct (data a !! r) as [row|]; cbn.
    + destruct (decide (j = c)) as [->|Hj].
      * rewrite decide_True by tauto.
        destruct (row !! c) eqn:E; cbn.
        -- apply list_lookup_insert_eq. eapply lookup_lt_Some. exact E.
        -- apply lookup_ge_None. rewrite length_insert. by apply lookup_ge_None.
      * rewrite decide_False by tauto. by apply list_lookup_insert_ne.
    + by destruct (decide _).
  - rewrite list_lookup_alter_ne by congruence.
    rewrite decide_False by tauto. reflexivity.
Qed.

Lemma marks_only_set_cell a rc : marks_only a (set_cell a rc 1).
Proof.
  destruct rc as [r c]. split; [reflexivity|]. split.
  { unfold set_cell. cbn. apply length_alter. }
  intros i j. rewrite cell_set_cell.
  destruct (decide _) as [_|_]; [|by left].
  destruct (cell a i j) as [v|]; [right | left]; cbn; eauto.
Qed.

Lemma marks_only_fold ix : forall a,
  marks_only a (fold_left (fun a' rc => set_cell a' rc 1) ix a).
Proof.
  induction ix as [|rc ix IH]; intros a; cbn.
  - apply marks_only_refl.
  - eapply marks_only_trans; [apply marks_only_set_cell | apply IH].
Qed.

Lemma setitem_pairs_marks_only a ix a' :
  setitem_pairs a ix 1 = Ok a' -> marks_only a a'.
Proof.
  unfold setitem_pairs. destruct (normalize_indices a ix) as [ix'|e]; cbn; [|discriminate].
  intros [= <-]. apply marks_only_fold.
Qed.

Lemma marks_only_is_Some a a' i j :
  marks_only a a' -> is_Some (cell a' i j) <-> is_Some (cell a i j).
Proof.
  intros (_ & _ & H). destruct (H i j) as [->|[Hs ->]]; [tauto|].
  split; [tauto | eauto].
Qed.

Lemma marks_only_length a a' : marks_only a a' -> length (data a') = length (data a).
Proof. intros (_ & H & _). exact H. Qed.

Lemma marks_only_n_classes a a' : marks_only a a' -> n_classes a' = n_classes a.
Proof. intros (H & _). exact H. Qed.

Section Run.

Variable ROOT : node.

Lemma fill_target_run (copy : bool) (h : heap) (y y_ : loc) a a_ p :
  h !! y_ = Some (ONdarray a_) ->
  (if copy then h !! y = Some (ONdarray a) else y = y_) ->
  fill_target ROOT y y_ p h =
    match fill_step ROOT copy a a_ p with
    | Ok a' => (Ok tt, <[y_ := ONdarray a']> h)
    | Raise e => (Raise e, h)
    end.
Proof.
  intros Hy_ Hal. destruct p as [target distances].
  unfold fill_target, fill_step.
  destruct (node_eqb target ROOT).
  { unfold ret. cbn. rewrite list_insert_id; [reflexivity | exact Hy_]. }
  assert (Hy : h !! y = Some (ONdarray (if copy then a else a_))).
  { destruct copy; [exact Hal | subst y_; exact Hy_]. }
  rewrite (bind_ok _ _ _ _ _ (get_ndarray_run _ _ _ Hy)).
  unfold lift at 1.
  destruct (getitem_column _ target) as [col|e]; simpl.
  2:{ unfold bind. reflexivity. }
  unfold bind at 1.
  rewrite (bind_ok _ _ _ _ _ (get_ndarray_run _ _ _ Hy_)).
  unfold lift, bind, store.
  destruct (index_array _) as [cols|e]; simpl; [|reflexivity].
  destruct (setitem_pairs _ _ _) as [a'|e]; reflexivity.
Qed.

Lemma for_each_fill_target_run (copy : bool) paths : forall (h : heap) (y y_ : loc) a a_,
  h !! y_ = Some (ONdarray a_) ->
  (if copy then y <> y_ /\ h !! y = Some (ONdarray a) else y = y_) ->
  for_each paths (fill_target ROOT y y_) h =
    ((fill_loop ROOT copy a a_ paths).1,
     <[y_ := ONdarray (fill_loop ROOT copy a a_ paths).2]> h).
Proof.
  induction paths as [|p rest IH]; intros h y y_ a a_ Hy_ Hal.
  - cbn. rewrite list_insert_id; [reflexivity | exact Hy_].
  - cbn [for_each fill_loop]. unfold bind.
    rewrite (fill_target_run copy h y y_ a a_ p Hy_).
    2:{ destruct copy; [apply Hal | exact Hal]. }
    destruct (fill_step ROOT copy a a_ p) as [a'|e]; cbn.
    2:{ rewrite list_insert_id; [reflexivity | exact Hy_]. }
    assert (Hlt : y_ < length h) by (eapply lookup_lt_Some; exact Hy_).
    rewrite (IH (<[y_:=ONdarray a']> h) y y_ a a').
    + rewrite list_insert_insert_eq. reflexivity.
    + apply list_lookup_insert_eq. exact Hlt.
    + destruct copy; [|exact Hal]. destruct Hal as [Hne Hy]. split; [exact Hne|].
      rewrite list_lookup_insert_ne by congruence. exact Hy.
Qed.

(** What a call of [fill_ancestors] does to the heap, when [y] is an
    array and [graph] a graph: the contents of the result are [filled];
    with [copy] the result is a new array after the objects of [h], and
    without it the array [y] itself; one view of the graph is made before
    the loop and one after it. *)
Lemma fill_ancestors_run (copy : bool) (h : heap) (y graph : loc) a G :
  h !! y = Some (ONdarray a) ->
  h !! graph = Some (ODiGraph G) ->
  fill_ancestors ROOT y graph copy h =
    let y_ := if copy then length h else y in
    let h1 := <[y_ := ONdarray (filled ROOT copy a G).2]>
                ((if copy then h ++ [ONdarray a] else h) ++ [OReverseView graph]) in
    match (filled ROOT copy a G).1 with
    | Ok _ => (Ok y_, h1 ++ [OReverseView graph])
    | Raise e => (Raise e, h1)
    end.
Proof.
  intros Hy Hg. unfold fill_ancestors, filled.
  pose proof (lookup_lt_Some _ _ _ Hy) as Hylt.
  pose proof (lookup_lt_Some _ _ _ Hg) as Hglt.
  set (h0 := if copy then h ++ [ONdarray a] else h).
  set (y_ := if copy then length h else y).
  assert (H0 : (if copy then ndarray_copy y else ret y) h = (Ok y_, h0)).
  { subst h0 y_. destruct copy; [|reflexivity].
    unfold ndarray_copy. rewrite (bind_ok _ _ _ _ _ (get_ndarray_run _ _ _ Hy)).
    reflexivity. }
  assert (Hext : forall k o, h !! k = Some o -> h0 !! k = Some o).
  { subst h0. destruct copy; [|tauto]. intros k o Hk. by apply lookup_app_l_Some. }
  assert (Hy_ : h0 !! y_ = Some (ONdarray a)).
  { subst h0 y_. destruct copy; [|exact Hy]. apply list_lookup_middle. reflexivity. }
  rewrite (bind_ok _ _ _ _ _ H0).
  rewrite (bind_ok _ _ _ _ _ (reverse_run h0 graph G (Hext _ _ Hg))).
  rewrite (bind_ok _ _ _ _ _ (all_pairs_run (h0 ++ [OReverseView graph]) graph G (length h0)
             (lookup_app_l_Some _ _ _ _ (Hext _ _ Hg))
             (list_lookup_middle _ _ _ _ eq_refl))).
  unfold bind at 1.
  rewrite (for_each_fill_target_run copy (ancestor_paths G)
             (h0 ++ [OReverseView graph]) y y_ a a).
  2:{ by apply lookup_app_l_Some. }
  2:{ subst y_. destruct copy; [|reflexivity]. split; [lia|].
      apply lookup_app_l_Some, Hext, Hy. }
  cbn [fst snd].
  destruct (fill_loop ROOT copy a a (ancestor_paths G)) as [[[]|e] a']; cbn [fst snd];
    [|reflexivity].
  assert (Hy_lt : y_ < length h0) by (eapply lookup_lt_Some; exact Hy_).
  assert (Hg' : <[y_:=ONdarray a']> (h0 ++ [OReverseView graph]) !! graph
                = Some (ODiGraph G)).
  { destruct (decide (y_ = graph)) as [Heq|Hne].
    - rewrite Heq in Hy_. pose proof (Hext _ _ Hg). congruence.
    - rewrite list_lookup_insert_ne by exact Hne.
      apply lookup_app_l_Some, Hext, Hg. }
  rewrite (bind_ok _ _ _ _ _ (reverse_run _ graph G Hg')).
  reflexivity.
Qed.

Lemma fill_ancestors_copy_run (h : heap) (y graph : loc) a G :
  h !! y = Some (ONdarray a) ->
  h !! graph = Some (ODiGraph G) ->
  exists junk,
    fill_ancestors ROOT y graph true h =
      (match (filled ROOT true a G).1 with
       | Ok _ => Ok (length h)
       | Raise e => Raise e
       end,
       h ++ ONdarray (filled ROOT true a G).2 :: junk).
Proof.
  intros Hy Hg. rewrite (fill_ancestors_run true h y graph a G Hy Hg). cbn zeta.
  assert (Hins : forall x, <[length h := x]> ((h ++ [ONdarray a]) ++ [OReverseView graph])
                 = h ++ [x; OReverseView graph]).
  { intros x. rewrite <- (assoc_L (++)). cbn [app].
    rewrite (insert_app_r_alt h _ (length h)) by lia.
    rewrite Nat.sub_diag. reflexivity. }
  rewrite Hins.
  destruct (filled ROOT true a G).1 as [[]|e].
  - exists [OReverseView graph; OReverseView graph].
    rewrite <- (assoc_L (++)). reflexivity.
  - exists [OReverseView graph]. reflexivity.
Qed.

(** The two fills a score starts with. *)
Lemma two_fills_run (h : heap) (y_true y_pred graph : loc) A B G {T}
    (k : loc -> loc -> M T) :
  h !! y_true = Some (ONdarray A) ->
  h !! y_pred = Some (ONdarray B) ->
  h !! graph = Some (ODiGraph G) ->
  exists junk1 junk2,
    (let* y_true_ := fill_ancestors ROOT y_true graph true in
     let* y_pred_ := fill_ancestors ROOT y_pred graph true in
     k y_true_ y_pred_) h =
    match filled_pair ROOT A B G with
    | Ok (t, p) =>
        k (length h) (length (h ++ ONdarray t :: junk1))
          ((h ++ ONdarray t :: junk1) ++ ONdarray p :: junk2)
    | Raise e => (Raise e, (h ++ junk1) ++ junk2)
    end.
Proof.
  intros Ht Hp Hg.
  destruct (fill_ancestors_copy_run h y_true graph A G Ht Hg) as [j1 E1].
  unfold filled_pair.
  destruct (filled ROOT true A G) as [[[]|e] t]; cbn [fst snd] in E1.
  2:{ exists (ONdarray t :: j1), []. rewrite (bind_raise _ _ _ _ _ E1).
      rewrite app_nil_r. reflexivity. }
  rewrite (bind_ok _ _ _ _ _ E1).
  set (h1 := h ++ ONdarray t :: j1).
  destruct (fill_ancestors_copy_run h1 y_pred graph B G) as [j2 E2].
  { by apply lookup_app_l_Some. }
  { by apply lookup_app_l_Some. }
  destruct (filled ROOT true B G) as [[[]|e] p]; cbn [fst snd] in E2.
  - exists j1, j2. rewrite (bind_ok _ _ _ _ _ E2). reflexivity.
  - exists (ONdarray t :: j1), (ONdarray p :: j2).
    rewrite (bind_raise _ _ _ _ _ E2). reflexivity.
Qed.

Lemma h_precision_score_run (h : heap) (y_true y_pred graph : loc) A B G :
  h !! y_true = Some (ONdarray A) ->
  h !! y_pred = Some (ONdarray B) ->
  h !! graph = Some (ODiGraph G) ->
  exists junk,
    h_precision_score ROOT y_true y_pred graph h =
      (result_bind (filled_pair ROOT A B G) precision_of, h ++ junk).
Proof.
  intros Ht Hp Hg. unfold h_precision_score.
  destruct (two_fills_run h y_true y_pred graph A B G
              (fun y_true_ y_pred_ =>
                 let* t := get_ndarray y_true_ in
                 let* p := get_ndarray y_pred_ in
                 let* mask := lift (both_nonzero t p) in
                 lift (int_truediv (length (where_true mask)) (count_nonzero p)))
              Ht Hp Hg) as (j1 & j2 & E).
  rewrite E. clear E.
  destruct (filled_pair ROOT A B G) as [[t p]|e]; cbn [result_bind].
  2:{ exists (j1 ++ j2). rewrite (assoc_L (++)). reflexivity. }
  exists ((ONdarray t :: j1) ++ ONdarray p :: j2).
  assert (L1 : ((h ++ ONdarray t :: j1) ++ ONdarray p :: j2) !! length h
               = Some (ONdarray t))
    by (apply lookup_app_l_Some, list_lookup_middle; reflexivity).
  assert (L2 : ((h ++ ONdarray t :: j1) ++ ONdarray p :: j2)
                 !! length (h ++ ONdarray t :: j1) = Some (ONdarray p))
    by (apply list_lookup_middle; reflexivity).
  rewrite (bind_ok _ _ _ _ _ (get_ndarray_run _ _ _ L1)).
  rewrite (bind_ok _ _ _ _ _ (get_ndarray_run _ _ _ L2)).
  unfold precision_of, lift, bind. cbn [fst snd].
  rewrite (assoc_L (++)).
  destruct (both_nonzero t p); reflexivity.
Qed.

Lemma h_recall_score_run (h : heap) (y_true y_pred graph : loc) A B G :
  h !! y_true = Some (ONdarray A) ->
  h !! y_pred = Some (ONdarray B) ->
  h !! graph = Some (ODiGraph G) ->
  exists junk,
    h_recall_score ROOT y_true y_pred graph h =
      (result_bind (filled_pair ROOT A B G) recall_of, h ++ junk).
Proof.
  intros Ht Hp Hg. unfold h_recall_score.
  destruct (two_fills_run h y_true y_pred graph A B G
              (fun y_true_ y_pred_ =>
                 let* t := get_ndarray y_true_ in
                 let* p := get_ndarray y_pred_ in
                 let* mask := lift (both_nonzero t p) in
                 lift (int_truediv (length (where_true mask)) (count_nonzero t)))
              Ht Hp Hg) as (j1 & j2 & E).
  rewrite E. clear E.
  destruct (filled_pair ROOT A B G) as [[t p]|e]; cbn [result_bind].
  2:{ exists (j1 ++ j2). rewrite (assoc_L (++)). reflexivity. }
  exists ((ONdarray t :: j1) ++ ONdarray p :: j2).
  assert (L1 : ((h ++ ONdarray t :: j1) ++ ONdarray p :: j2) !! length h
               = Some (ONdarray t))
    by (apply lookup_app_l_Some, list_lookup_middle; reflexivity).
  assert (L2 : ((h ++ ONdarray t :: j1) ++ ONdarray p :: j2)
                 !! length (h ++ ONdarray t :: j1) = Some (ONdarray p))
    by (apply list_lookup_middle; reflexivity).
  rewrite (bind_ok _ _ _ _ _ (get_ndarray_run _ _ _ L1)).
  rewrite (bind_ok _ _ _ _ _ (get_ndarray_run _ _ _ L2)).
  unfold recall_of, lift, bind. cbn [fst snd].
  rewrite (assoc_L (++)).
  destruct (both_nonzero t p); reflexivity.
Qed.

Lemma h_fbeta_score_run (h : heap) (y_true y_pred graph : loc) A B G beta :
  h !! y_true = Some (ONdarray A) ->
  h !! y_pred = Some (ONdarray B) ->
  h !! graph = Some (ODiGraph G) ->
  exists junk,
    h_fbeta_score ROOT y_true y_pred graph beta h =
      (result_bind (result_bind (filled_pair ROOT A B G) precision_of) (fun hP =>
       result_bind (result_bind (filled_pair ROOT A B G) recall_of) (fun hR =>
       fbeta_of beta hP hR)), h ++ junk).
Proof.
  intros Ht Hp Hg. unfold h_fbeta_score.
  destruct (h_precision_score_run h y_true y_pred graph A B G Ht Hp Hg) as [j1 E1].
  destruct (result_bind (filled_pair ROOT A B G) precision_of) as [hP|e] eqn:EP.
  2:{ exists j1. rewrite (bind_raise _ _ _ _ _ E1). reflexivity. }
  rewrite (bind_ok _ _ _ _ _ E1).
  destruct (h_recall_score_run (h ++ j1) y_true y_pred graph A B G) as [j2 E2];
    try (by apply lookup_app_l_Some).
  exists (j1 ++ j2). rewrite (assoc_L (++)).
  cbn [result_bind].
  destruct (result_bind (filled_pair ROOT A B G) recall_of) as [hR|e] eqn:ER.
  2:{ rewrite (bind_raise _ _ _ _ _ E2). reflexivity. }
  rewrite (bind_ok _ _ _ _ _ E2). reflexivity.
Qed.

Lemma fill_step_marks_only copy y y_ p y_' :
  fill_step ROOT copy y y_ p = Ok y_' -> marks_only y_ y_'.
Proof.
  destruct p as [target distances]. unfold fill_step.
  destruct (node_eqb target ROOT).
  { intros [= <-]. apply marks_only_refl. }
  destruct (getitem_column _ target) as [col|e]; cbn; [|discriminate].
  destruct (index_array _) as [cols|e]; cbn; [|discriminate].
  apply setitem_pairs_marks_only.
Qed.

Lemma fill_loop_marks_only copy y paths : forall y_,
  marks_only y_ (fill_loop ROOT copy y y_ paths).2.
Proof.
  induction paths as [|p rest IH]; intros y_; cbn.
  - apply marks_only_refl.
  - destruct (fill_step ROOT copy y y_ p) as [y_'|e] eqn:E; cbn.
    + eapply marks_only_trans; [eapply fill_step_marks_only; exact E | apply IH].
    + apply marks_only_refl.
Qed.

(** The objects of the heap a call leaves as they were: all but the
    array the result is written to. *)
Lemma fill_ancestors_frame (copy : bool) (h : heap) (y graph : loc) a G k o :
  h !! y = Some (ONdarray a) ->
  h !! graph = Some (ODiGraph G) ->
  h !! k = Some o ->
  k <> (if copy then length h else y) ->
  (fill_ancestors ROOT y graph copy h).2 !! k = Some o.
Proof.
  intros Hy Hg Hk Hne. rewrite (fill_ancestors_run copy h y graph a G Hy Hg). cbn zeta.
  assert (H1 : <[(if copy then length h else y):=ONdarray (filled ROOT copy a G).2]>
                 ((if copy then h ++ [ONdarray a] else h) ++ [OReverseView graph]) !! k
               = Some o).
  { rewrite list_lookup_insert_ne by congruence.
    apply lookup_app_l_Some. destruct copy; [by apply lookup_app_l_Some | exact Hk]. }
  destruct (filled ROOT copy a G).1 as [[]|e]; cbn [snd]; [|exact H1].
  by apply lookup_app_l_Some.
Qed.

(** A call that returns: the loop ended without an exception, and the
    reference returned holds the filled matrix. *)
Lemma fill_ancestors_returns (copy : bool) (h : heap) (y graph : loc) a G l h' :
  h !! y = Some (ONdarray a) ->
  h !! graph = Some (ODiGraph G) ->
  fill_ancestors ROOT y graph copy h = (Ok l, h') ->
  (filled ROOT copy a G).1 = Ok tt /\
  l = (if copy then length h else y) /\
  h' !! l = Some (ONdarray (filled ROOT copy a G).2).
Proof.
  intros Hy Hg. rewrite (fill_ancestors_run copy h y graph a G Hy Hg). cbn zeta.
  destruct (filled ROOT copy a G).1 as [[]|e]; [|discriminate].
  intros [= <- <-]. split; [reflexivity|]. split; [reflexivity|].
  apply lookup_app_l_Some, list_lookup_insert_eq.
  rewrite length_app. cbn. destruct copy.
  - rewrite length_app. cbn. lia.
  - pose proof (lookup_lt_Some _ _ _ Hy). lia.
Qed.

End Run.

(** ** Facts about the scores *)

Lemma broadcast_dim_comm n m : broadcast_dim n m = broadcast_dim m n.
Proof.
  unfold broadcast_dim.
  destruct (Nat.eqb_spec n m) as [->|Hnm].
  - rewrite Nat.eqb_refl. reflexivity.
  - destruct (Nat.eqb_spec m n) as [->|_]; [congruence|].
    destruct (Nat.eqb_spec n 1) as [->|_], (Nat.eqb_spec m 1) as [->|_];
      congruence.
Qed.

Lemma broadcast_dim_same n : broadcast_dim n n = Ok n.
Proof. unfold broadcast_dim. rewrite Nat.eqb_refl. reflexivity. Qed.

Lemma zip_with_comm {A B} (f : A -> A -> B) :
  (forall x y, f x y = f y x) ->
  forall l k, zip_with f l k = zip_with f k l.
Proof.
  intros Hf. induction l as [|x l IH]; intros [|y k]; cbn; try reflexivity.
  rewrite Hf, IH. reflexivity.
Qed.

Lemma both_nonzero_comm a b : both_nonzero a b = both_nonzero b a.
Proof.
  unfold both_nonzero.
  rewrite (broadcast_dim_comm (length (data a))), (broadcast_dim_comm (n_classes a)).
  destruct (broadcast_dim (length (data b)) (length (data a))) as [r|e]; cbn; [|reflexivity].
  destruct (broadcast_dim (n_classes b) (n_classes a)) as [c|e]; cbn; [|reflexivity].
  f_equal. apply zip_with_comm. intros l k. apply zip_with_comm.
  intros x y. apply andb_comm.
Qed.

Lemma normalize_index_raise n z e : normalize_index n z = Raise e -> e = IndexError.
Proof.
  unfold normalize_index. repeat destruct (_ && _); congruence.
Qed.

Lemma normalize_indices_raise a ix e : normalize_indices a ix = Raise e -> e = IndexError.
Proof.
  induction ix as [|[r c] ix IH]; cbn; [discriminate|].
  destruct (normalize_index (length (data a)) r) eqn:Er; cbn.
  2:{ intros [= <-]. eapply normalize_index_raise, Er. }
  destruct (normalize_index (n_classes a) c) eqn:Ec; cbn.
  2:{ intros [= <-]. eapply normalize_index_raise, Ec. }
  destruct (normalize_indices a ix); cbn; [discriminate|].
  intros [= <-]. apply IH. reflexivity.
Qed.

Lemma getitem_column_raise a target e :
  getitem_column a target = Raise e -> e = IndexError.
Proof.
  destruct target as [z|s]; cbn; [|congruence].
  destruct (normalize_index _ z) eqn:Ez; cbn; [discriminate|].
  intros [= <-]. eapply normalize_index_raise, Ez.
Qed.

Lemma index_array_raise l e : index_array l = Raise e -> e = IndexError.
Proof.
  unfold index_array. destruct l; [congruence|].
  destruct (all_ints _); congruence.
Qed.

Lemma setitem_pairs_raise a ix v e : setitem_pairs a ix v = Raise e -> e = IndexError.
Proof.
  unfold setitem_pairs.
  destruct (normalize_indices _ _) eqn:Ei; cbn; [discriminate|].
  intros [= <-]. eapply normalize_indices_raise, Ei.
Qed.

Lemma fill_step_raise ROOT copy y y_ p e :
  fill_step ROOT copy y y_ p = Raise e -> e = IndexError.
Proof.
  destruct p as [target distances]. unfold fill_step.
  destruct (node_eqb target ROOT); [discriminate|].
  destruct (getitem_column _ target) eqn:Ec; cbn.
  2:{ intros [= <-]. eapply getitem_column_raise, Ec. }
  destruct (index_array _) eqn:Ei; cbn.
  2:{ intros [= <-]. eapply index_array_raise, Ei. }
  apply setitem_pairs_raise.
Qed.

Lemma fill_loop_raise ROOT copy y paths e : forall y_,
  (fill_loop ROOT copy y y_ paths).1 = Raise e -> e = IndexError.
Proof.
  induction paths as [|p rest IH]; intros y_; cbn; [discriminate|].
  destruct (fill_step ROOT copy y y_ p) eqn:E; cbn.
  - apply IH.
  - intros [= <-]. eapply fill_step_raise, E.
Qed.

Lemma filled_pair_swap ROOT A B G :
  filled_pair ROOT B A G =
    match filled_pair ROOT A B G with
    | Ok (t, p) => Ok (p, t)
    | Raise e => Raise e
    end.
Proof.
  unfold filled_pair, filled.
  destruct (fill_loop ROOT true A A (ancestor_paths G)) as [[[]|eA] t] eqn:EA,
           (fill_loop ROOT true B B (ancestor_paths G)) as [[[]|eB] p] eqn:EB;
    try reflexivity.
  pose proof (fill_loop_raise ROOT true A (ancestor_paths G) eA A) as HA.
  pose proof (fill_loop_raise ROOT true B (ancestor_paths G) eB B) as HB.
  rewrite EA in HA. rewrite EB in HB. cbn in HA, HB.
  rewrite HA, HB; reflexivity.
Qed.

Lemma marks_only_binary a a' :
  is_binary a = true -> marks_only a a' ->
  forall i j v, cell a i j = Some v ->
    exists v', cell a' i j = Some v' /\ (v <= v')%Z /\ (v = 1%Z -> v' = 1%Z).
Proof.
  intros Hb (_ & _ & H) i j v Hv.
  assert (Hv01 : v = 0%Z \/ v = 1%Z).
  { unfold is_binary in Hb. rewrite forallb_forall in Hb.
    unfold cell in Hv. destruct (data a !! i) as [row|] eqn:Erow; [|discriminate].
    assert (Hin : In row (data a)).
    { apply list_elem_of_In, list_elem_of_lookup. eauto. }
    specialize (Hb row Hin). rewrite forallb_forall in Hb.
    assert (Hin' : In v row).
    { apply list_elem_of_In, list_elem_of_lookup. eauto. }
    specialize (Hb v Hin'). lia. }
  destruct (H i j) as [E|[_ E]].
  - exists v. split; [congruence|]. split; [lia|tauto].
  - exists 1%Z. split; [exact E|]. split; [lia|reflexivity].
Qed.

Lemma filled_pair_shapes ROOT A B G t p :
  filled_pair ROOT A B G = Ok (t, p) ->
  marks_only A t /\ marks_only B p.
Proof.
  unfold filled_pair.
  pose proof (fill_loop_marks_only ROOT true A (ancestor_paths G) A) as HA.
  pose proof (fill_loop_marks_only ROOT true B (ancestor_paths G) B) as HB.
  fold (filled ROOT true A G) in HA. fold (filled ROOT true B G) in HB.
  destruct (filled ROOT true A G) as [[[]|e] t']; [|discriminate].
  destruct (filled ROOT true B G) as [[[]|e] p']; [|discriminate].
  intros [= <- <-]. split; assumption.
Qed.

Lemma is_binary_cell a i j v :
  is_binary a = true -> cell a i j = Some v -> v = 0%Z \/ v = 1%Z.
Proof.
  intros Hb Hv. unfold is_binary in Hb. rewrite forallb_forall in Hb.
  unfold cell in Hv. destruct (data a !! i) as [row|] eqn:Erow; [|discriminate].
  assert (Hin : In row (data a)).
  { apply list_elem_of_In, list_elem_of_lookup. eauto. }
  specialize (Hb row Hin). rewrite forallb_forall in Hb.
  assert (Hin' : In v row).
  { apply list_elem_of_In, list_elem_of_lookup. eauto. }
  specialize (Hb v Hin'). lia.
Qed.

Lemma positive_binary a i t :
  is_binary a = true -> positive a i t <-> cell a i t = Some 1%Z.
Proof.
  intros Hb. split.
  - intros (x & Hx & Hpos). destruct (is_binary_cell a i t x Hb Hx); [lia | congruence].
  - intros H. exists 1%Z. split; [exact H | lia].
Qed.

(** ** Counting the positions *)

Lemma stretch_same {A} n (l : list A) : length l = n -> stretch n l = l.
Proof.
  intros H. unfold stretch. destruct l as [|x [|y l]]; try reflexivity.
  cbn in H. subst n. reflexivity.
Qed.

Lemma where_true_row_length {B} (f : nat -> B) row : forall (g : nat -> nat),
  length (omap (fun jb : nat * bool => if jb.2 then Some (f jb.1) else None)
            (imap (fun j b => (g j, b)) row)) = count_true row.
Proof.
  induction row as [|b row IH]; intros g; [reflexivity|].
  cbn [imap omap]. unfold count_true in *. cbn [List.filter].
  specialize (IH (g ∘ S)). unfold compose in IH.
  destruct b; cbn; rewrite <- IH; reflexivity.
Qed.

Lemma where_true_length m :
  length (where_true m) = sum_list (count_true <$> m).
Proof.
  unfold where_true.
  assert (H : forall (k : nat -> nat),
            length (concat (imap (fun i row =>
                      omap (fun jb : nat * bool => if jb.2 then Some (k i, jb.1) else None)
                           (imap (fun j b => (j, b)) row)) m))
            = sum_list (count_true <$> m)).
  { induction m as [|row m IH]; intros k; [reflexivity|].
    cbn [imap concat fmap list_fmap sum_list sum_list_with].
    rewrite length_app, (where_true_row_length (fun j => (k 0, j)) row (fun j => j)).
    f_equal. apply (IH (k ∘ S)). }
  apply (H (fun i => i)).
Qed.

Lemma count_nonzero_rows a :
  count_nonzero a =
    sum_list ((fun row => length (List.filter (fun x => negb (x =? 0)%Z) row)) <$> data a).
Proof.
  unfold count_nonzero. induction (data a) as [|row rows IH]; [reflexivity|].
  cbn [concat fmap list_fmap sum_list sum_list_with].
  rewrite List.filter_app, length_app, IH. reflexivity.
Qed.

Lemma count_true_zip_r (rt rp : list Z) :
  count_true (zip_with (fun x y => andb (negb (x =? 0)%Z) (negb (y =? 0)%Z)) rt rp)
  <= length (List.filter (fun x => negb (x =? 0)%Z) rp).
Proof.
  unfold count_true. revert rp. induction rt as [|x rt IH]; intros [|y rp]; cbn; try lia.
  specialize (IH rp).
  destruct (x =? 0)%Z, (y =? 0)%Z; cbn; lia.
Qed.

Lemma count_true_zip_l (rt rp : list Z) :
  count_true (zip_with (fun x y => andb (negb (x =? 0)%Z) (negb (y =? 0)%Z)) rt rp)
  <= length (List.filter (fun x => negb (x =? 0)%Z) rt).
Proof.
  unfold count_true. revert rp. induction rt as [|x rt IH]; intros [|y rp]; cbn; try lia.
  specialize (IH rp).
  destruct (x =? 0)%Z, (y =? 0)%Z; cbn; lia.
Qed.

Lemma sum_zip_le {A B C} (f : A -> B -> C) (m : C -> nat) (ma : A -> nat) (mb : B -> nat) :
  (forall x y, m (f x y) <= ma x) ->
  (forall x y, m (f x y) <= mb y) ->
  forall l k,
    sum_list (m <$> zip_with f l k) <= sum_list (ma <$> l) /\
    sum_list (m <$> zip_with f l k) <= sum_list (mb <$> k).
Proof.
  intros Ha Hb. induction l as [|x l IH]; intros [|y k]; cbn; try lia.
  specialize (IH k). specialize (Ha x y). specialize (Hb x y). lia.
Qed.

(** For two well-formed matrices of one shape, the positions nonzero in
    both are no more than the nonzero positions of either. *)
Lemma true_positives_le t p mask :
  wf_ndarray t -> wf_ndarray p ->
  n_classes t = n_classes p ->
  length (data t) = length (data p) ->
  both_nonzero t p = Ok mask ->
  length (where_true mask) <= count_nonzero t /\
  length (where_true mask) <= count_nonzero p.
Proof.
  intros Ht Hp Hn Hl. unfold both_nonzero.
  rewrite <- Hl, <- Hn, !broadcast_dim_same. cbn [result_bind].
  assert (Hs : forall a, wf_ndarray a -> n_classes a = n_classes t ->
                 length (data a) = length (data t) ->
                 stretch (length (data t)) (map (stretch (n_classes t)) (data a)) = data a).
  { intros a Ha Hna Hla.
    assert (E : map (stretch (n_classes t)) (data a) = data a).
    { rewrite <- (map_id (data a)) at 2. apply map_ext_in. intros row Hin.
      apply stretch_same. rewrite <- Hna.
      unfold wf_ndarray in Ha. rewrite Forall_forall in Ha.
      apply Ha. by apply list_elem_of_In. }
    rewrite E. by apply stretch_same. }
  rewrite (Hs t Ht eq_refl eq_refl), (Hs p Hp (eq_sym Hn) (eq_sym Hl)).
  intros [= <-]. rewrite where_true_length, !count_nonzero_rows.
  apply sum_zip_le; intros rt rp; [apply count_true_zip_l | apply count_true_zip_r].
Qed.

Lemma marks_only_wf a a' : marks_only a a' -> wf_ndarray a -> wf_ndarray a'.
Proof.
  intros Hm Hwf. unfold wf_ndarray in *. rewrite Forall_forall in *.
  intros row' Hin. apply list_elem_of_lookup in Hin as [i Hi].
  rewrite (marks_only_n_classes _ _ Hm).
  destruct (data a !! i) as [row|] eqn:Erow.
  2:{ apply lookup_ge_None in Erow. apply lookup_lt_Some in Hi.
      rewrite (marks_only_length _ _ Hm) in Hi. lia. }
  assert (Hrow : row ∈ data a) by (apply list_elem_of_lookup; eauto).
  rewrite <- (Hwf row Hrow).
  assert (Hsome : forall j, is_Some (row' !! j) <-> is_Some (row !! j)).
  { intros j. pose proof (marks_only_is_Some a a' i j Hm) as H.
    unfold cell in H. rewrite Hi, Erow in H. exact H. }
  destruct (Nat.lt_trichotomy (length row') (length row)) as [Hlt|[Heq|Hgt]];
    [|exact Heq|].
  - assert (is_Some (row !! length row')) by (by apply lookup_lt_is_Some).
    apply Hsome, lookup_lt_is_Some in H. lia.
  - assert (is_Some (row' !! length row)) by (by apply lookup_lt_is_Some).
    apply Hsome, lookup_lt_is_Some in H. lia.
Qed.

Lemma int_truediv_bounds n d q :
  n <= d -> int_truediv n d = Ok q -> (0 <= q <= 1)%Q.
Proof.
  unfold int_truediv. destruct (Nat.eqb_spec d 0) as [->|Hd]; [discriminate|].
  intros Hle [= <-].
  assert (Hpos : (0 < inject_Z (Z.of_nat d))%Q).
  { change (inject_Z 0 < inject_Z (Z.of_nat d))%Q. rewrite <- Zlt_Qlt. lia. }
  split.
  - apply Qle_shift_div_l; [exact Hpos|]. rewrite Qmult_0_l.
    change (inject_Z 0 <= inject_Z (Z.of_nat n))%Q. rewrite <- Zle_Qle. lia.
  - apply Qle_shift_div_r; [exact Hpos|]. rewrite Qmult_1_l.
    rewrite <- Zle_Qle. lia.
Qed.

(** ** The search *)

Lemma elem_of_successors G v w : w ∈ successors G v <-> (v, w) ∈ edges G.
Proof.
  unfold successors. rewrite list_elem_of_fmap. split.
  - intros ([u w'] & -> & Hin). apply list_elem_of_In, filter_In in Hin.
    destruct Hin as [Hin Heq]. cbn in Heq. apply node_eqb_eq in Heq. subst u.
    by apply list_elem_of_In.
  - intros Hin. exists (v, w). split; [reflexivity|].
    apply list_elem_of_In, filter_In. split; [by apply list_elem_of_In|].
    cbn. by apply node_eqb_eq.
Qed.

Lemma successors_reversed G v : successors (reversed G) v = predecessors G v.
Proof.
  unfold successors, predecessors, reversed. cbn.
  induction (edges G) as [|[a b] es IH]; cbn; [reflexivity|].
  destruct (node_eqb b v); cbn; rewrite IH; reflexivity.
Qed.

(** What one adjacency list adds: the new nodes are appended to both
    lists, they were not seen, and they come from the list. *)
Lemma visit_spec ws : forall seen next,
  exists new,
    visit seen next ws = (seen ++ new, next ++ new) /\
    NoDup new /\
    (forall w, w ∈ new <-> w ∈ ws /\ w ∉ seen).
Proof.
  induction ws as [|w ws IH]; intros seen next; cbn.
  - exists []. rewrite !app_nil_r. split; [reflexivity|]. split; [constructor|].
    intros w. rewrite elem_of_nil. tauto.
  - destruct (node_in w seen) eqn:E.
    + destruct (IH seen next) as (new & -> & Hnd & Hnew).
      exists new. split; [reflexivity|]. split; [exact Hnd|].
      intros x. rewrite Hnew, elem_of_cons. apply node_in_spec in E.
      split; [tauto|]. intros [[->|H] Hx]; [contradiction|tauto].
    + apply node_in_false in E.
      destruct (IH (seen ++ [w]) (next ++ [w])) as (new & -> & Hnd & Hnew).
      exists (w :: new). rewrite <- !(assoc_L (++)). cbn.
      split; [reflexivity|]. split.
      * constructor; [|exact Hnd]. rewrite Hnew, elem_of_app, list_elem_of_singleton.
        tauto.
      * intros x. rewrite !elem_of_cons, Hnew, elem_of_app, list_elem_of_singleton.
        split.
        -- intros [->|[H1 H2]]; [tauto|]. tauto.
        -- intros [[->|H1] H2]; [tauto|].
           destruct (decide (x = w)) as [->|Hne]; [tauto|]. right. tauto.
Qed.

Lemma expand_spec G level : forall seen next,
  exists new,
    expand G seen next level = (seen ++ new, next ++ new) /\
    NoDup new /\
    (forall w, w ∈ new <-> (exists v, v ∈ level /\ (v, w) ∈ edges G) /\ w ∉ seen).
Proof.
  induction level as [|v level IH]; intros seen next; cbn.
  - exists []. rewrite !app_nil_r. split; [reflexivity|]. split; [constructor|].
    intros w. rewrite elem_of_nil. split; [tauto|]. intros [(v & Hv & _) _].
    by apply elem_of_nil in Hv.
  - destruct (visit_spec (successors G v) seen next) as (n1 & -> & Hnd1 & Hn1).
    destruct (IH (seen ++ n1) (next ++ n1)) as (n2 & -> & Hnd2 & Hn2).
    exists (n1 ++ n2). rewrite <- !(assoc_L (++)).
    split; [reflexivity|]. split.
    + apply NoDup_app. split; [exact Hnd1|]. split; [|exact Hnd2].
      intros x Hx1 Hx2. apply Hn2 in Hx2. rewrite elem_of_app in Hx2. tauto.
    + intros w. rewrite elem_of_app, Hn1, Hn2, elem_of_successors.
      split.
      * intros [[H1 H2]|[(u & Hu & Hue) H2]].
        -- split; [|exact H2]. exists v. split; [left|exact H1].
        -- rewrite elem_of_app in H2.
           split; [|tauto]. exists u. split; [by right|exact Hue].
      * intros [(u & Hu & Hue) Hns]. apply elem_of_cons in Hu.
        destruct (decide (w ∈ n1)) as [Hin|Hnin].
        { left. apply Hn1 in Hin. rewrite elem_of_successors in Hin. exact Hin. }
        rewrite Hn1, elem_of_successors in Hnin.
        destruct Hu as [->|Hu].
        -- left. tauto.
        -- right. split; [eauto|]. rewrite elem_of_app, Hn1, elem_of_successors. tauto.
Qed.

Lemma bfs_levels_nil fuel G seen level : bfs_levels fuel G seen [] level = [].
Proof. destruct fuel; reflexivity. Qed.

Lemma NoDup_length_le (l k : list node) :
  NoDup l -> (forall x, x ∈ l -> x ∈ k) -> length l <= length k.
Proof.
  intros Hnd Hsub. apply submseteq_length, NoDup_submseteq; assumption.
Qed.

(** The bound on the number of levels is never reached on a well-formed
    graph: more fuel gives the same dictionary. *)
Lemma bfs_levels_fuel G :
  wf_DiGraph G ->
  forall fuel k seen thislevel level,
    NoDup seen ->
    (forall x, x ∈ seen -> x ∈ nodes G) ->
    length (nodes G) < fuel + length seen ->
    bfs_levels (fuel + k) G seen thislevel level = bfs_levels fuel G seen thislevel level.
Proof.
  intros [Hnd Hedges]. induction fuel as [|fuel IH]; intros k seen thislevel level Hs Hsub Hlt.
  - pose proof (NoDup_length_le seen (nodes G) Hs Hsub). lia.
  - cbn. destruct thislevel as [|v rest]; [reflexivity|].
    destruct (expand_spec G (v :: rest) seen []) as (new & -> & Hnew & Hin).
    cbn [app]. f_equal.
    destruct new as [|w new'].
    { rewrite !bfs_levels_nil. reflexivity. }
    apply IH.
    + apply NoDup_app. split; [exact Hs|]. split; [|exact Hnew].
      intros x Hx1 Hx2. apply Hin in Hx2. tauto.
    + intros x. rewrite elem_of_app. intros [Hx|Hx]; [by apply Hsub|].
      apply Hin in Hx. destruct Hx as [(u & _ & Hu) _]. by apply Hedges in Hu as [_ ?].
    + rewrite length_app. cbn. lia.
Qed.

Lemma wf_DiGraph_reversed G : wf_DiGraph G -> wf_DiGraph (reversed G).
Proof.
  intros [Hnd Hedges]. split; [exact Hnd|].
  intros u v. unfold reversed. cbn. rewrite list_elem_of_fmap.
  intros ([a b] & [= -> ->] & Hin). apply Hedges in Hin. tauto.
Qed.

Lemma single_source_fuel G source k :
  wf_DiGraph G -> source ∈ nodes G ->
  (source, 0) :: bfs_levels (length (nodes G) + k) G [source] [source] 0
  = single_source_shortest_path_length G source.
Proof.
  intros Hwf Hin. unfold single_source_shortest_path_length. f_equal.
  apply bfs_levels_fuel; [exact Hwf | | | cbn; lia].
  - apply NoDup_singleton.
  - intros x Hx. apply list_elem_of_singleton in Hx. by subst x.
Qed.

Lemma elem_of_predecessors G v u : u ∈ predecessors G v <-> (u, v) ∈ edges G.
Proof.
  rewrite <- successors_reversed, elem_of_successors. unfold reversed. cbn.
  rewrite list_elem_of_fmap. split.
  - intros ([a b] & [= -> ->] & Hin). exact Hin.
  - intros Hin. exists (u, v). split; [reflexivity | exact Hin].
Qed.

Lemma keys_with_distances level l : keys (with_distances level l) = l.
Proof.
  revert level. induction l as [|w l IH]; intros level; cbn; [reflexivity|].
  unfold keys in IH. rewrite IH. reflexivity.
Qed.

(** ** The search on a tree *)

Section Tree.

Variable ROOT : node.
Variable G : DiGraph.
Hypothesis Htree : tree_hierarchy ROOT G.

Lemma path_head v l : path_to_root ROOT G v l -> exists l', l = v :: l'.
Proof. intros [|]; eauto. Qed.

Lemma path_last v l : path_to_root ROOT G v l -> last l = Some ROOT.
Proof.
  induction 1 as [|v u l Hv Hp Hpath IH]; [reflexivity|].
  destruct (path_head _ _ Hpath) as [l' ->]. exact IH.
Qed.

Lemma path_exists v : v ∈ nodes G -> exists l, path_to_root ROOT G v l.
Proof.
  destruct (tree_acyclic _ _ Htree) as [depth Hdepth].
  assert (H : forall n v, depth v < n -> v ∈ nodes G -> exists l, path_to_root ROOT G v l).
  { induction n as [|n IH]; intros w Hn Hw; [lia|].
    destruct (decide (w = ROOT)) as [->|Hne].
    { exists [ROOT]. constructor. }
    destruct (tree_parent _ _ Htree w Hw Hne) as [u Hu].
    assert (Hedge : (u, w) ∈ edges G).
    { apply elem_of_predecessors. rewrite Hu. by apply list_elem_of_singleton. }
    destruct (IH u) as [l Hl].
    - apply Hdepth in Hedge. lia.
    - by apply (tree_wf _ _ Htree) in Hedge as [? _].
    - exists (w :: l). by apply (path_step _ _ w u l). }
  intros Hv. by apply (H (S (depth v))); [lia|].
Qed.

Lemma path_functional v l1 : path_to_root ROOT G v l1 ->
  forall l2, path_to_root ROOT G v l2 -> l1 = l2.
Proof.
  induction 1 as [|v u l Hv Hp Hpath IH]; intros l2 H2; inversion H2; subst;
    try congruence.
  f_equal. apply IH. congruence.
Qed.

Lemma path_ancestors v l :
  path_to_root ROOT G v l -> forall c, c ∈ l <-> ancestor_or_self G c v.
Proof.
  intros Hpath c. split.
  - induction Hpath as [|v u l Hv Hp Hpath IH].
    + intros ->%list_elem_of_singleton. apply rtc_refl.
    + intros [->|Hc]%elem_of_cons; [apply rtc_refl|].
      eapply rtc_r; [apply IH, Hc|].
      apply elem_of_predecessors. rewrite Hp. by apply list_elem_of_singleton.
  - intros Hanc. revert l Hpath. unfold ancestor_or_self in Hanc.
    pattern v. eapply rtc_ind_r; [| |exact Hanc].
    + intros l Hpath. destruct (path_head _ _ Hpath) as [l' ->]. left.
    + intros m t Hcm Hmt IH l Hpath.
      apply elem_of_predecessors in Hmt.
      inversion Hpath as [|v' u l' Hv Hp Hpath']; subst.
      * rewrite (tree_root _ _ Htree) in Hmt. by apply elem_of_nil in Hmt.
      * rewrite Hp in Hmt. apply list_elem_of_singleton in Hmt. subst u.
        right. by apply IH.
Qed.

Lemma ancestor_depth (depth : node -> nat) :
  (forall u v, (u, v) ∈ edges G -> depth u < depth v) ->
  forall c t, ancestor_or_self G c t -> c = t \/ depth c < depth t.
Proof.
  intros Hdepth c t. induction 1 as [|c m t Hcm Hmt IH]; [by left|].
  right. apply Hdepth in Hcm. destruct IH as [->|]; lia.
Qed.

Lemma path_NoDup v l : path_to_root ROOT G v l -> NoDup l.
Proof.
  destruct (tree_acyclic _ _ Htree) as [depth Hdepth].
  induction 1 as [|v u l Hv Hp Hpath IH]; [apply NoDup_singleton|].
  constructor; [|exact IH].
  intros Hin. apply (path_ancestors _ _ Hpath) in Hin.
  apply (ancestor_depth depth Hdepth) in Hin.
  assert (Hedge : (u, v) ∈ edges G).
  { apply elem_of_predecessors. rewrite Hp. by apply list_elem_of_singleton. }
  apply Hdepth in Hedge. destruct Hin as [->|]; lia.
Qed.

Lemma path_nodes v l :
  v ∈ nodes G -> path_to_root ROOT G v l -> forall w, w ∈ l -> w ∈ nodes G.
Proof.
  intros Hv Hpath. induction Hpath as [|v u l Hne Hp Hpath IH]; intros w.
  - by intros ->%list_elem_of_singleton.
  - intros [->|Hw]%elem_of_cons; [exact Hv|]. apply IH; [|exact Hw].
    assert (Hedge : (u, v) ∈ edges G).
    { apply elem_of_predecessors. rewrite Hp. by apply list_elem_of_singleton. }
    by apply (tree_wf _ _ Htree) in Hedge as [? _].
Qed.

(** On a tree the search climbs the path to the root, one node a level. *)
Lemma bfs_levels_path v l :
  path_to_root ROOT G v l ->
  forall fuel seen level,
    length l <= fuel ->
    (forall w, w ∈ seen -> w ∉ tail l) ->
    bfs_levels fuel (reversed G) seen [v] level = with_distances (S level) (tail l).
Proof.
  intros Hpath. pose proof (path_NoDup _ _ Hpath) as Hnd. revert Hnd.
  induction Hpath as [|v u l Hv Hp Hpath IH]; intros Hnd fuel seen level Hfuel Hseen.
  - destruct fuel as [|fuel]; [cbn in Hfuel; lia|].
    cbn [bfs_levels expand]. rewrite successors_reversed, (tree_root _ _ Htree).
    cbn. apply bfs_levels_nil.
  - destruct fuel as [|fuel]; [cbn in Hfuel; lia|].
    destruct (path_head _ _ Hpath) as [l' ->].
    cbn [bfs_levels expand tail]. rewrite successors_reversed, Hp. cbn [visit].
    assert (Hu : node_in u seen = false).
    { apply node_in_false. intros Hin. apply Hseen in Hin. apply Hin. cbn. left. }
    rewrite Hu. cbn [app map with_distances]. f_equal.
    apply NoDup_cons in Hnd as [_ Hnd].
    rewrite (IH Hnd fuel (seen ++ [u]) (S level)).
    + reflexivity.
    + cbn in Hfuel |- *. lia.
    + intros w [Hw| ->%list_elem_of_singleton]%elem_of_app; cbn.
      * intros Hin. apply (Hseen w Hw). cbn. by right.
      * by apply NoDup_cons in Hnd as [? _].
Qed.

Lemma tree_search v l :
  v ∈ nodes G -> path_to_root ROOT G v l ->
  single_source_shortest_path_length (reversed G) v = with_distances 0 l.
Proof.
  intros Hv Hpath. unfold single_source_shortest_path_length.
  destruct (path_head _ _ Hpath) as [l' ->]. cbn [with_distances]. f_equal.
  change l' with (tail (v :: l')).
  apply (bfs_levels_path v (v :: l') Hpath).
  - cbn [reversed nodes]. apply NoDup_length_le; [by eapply path_NoDup|].
    exact (path_nodes v _ Hv Hpath).
  - intros w ->%list_elem_of_singleton. cbn.
    pose proof (path_NoDup _ _ Hpath) as Hnd. by apply NoDup_cons in Hnd as [? _].
Qed.

Lemma path_strip v l :
  path_to_root ROOT G v l -> v <> ROOT ->
  exists anc, l = anc ++ [ROOT] /\ removelast l = anc /\ anc <> [] /\ ROOT ∉ anc.
Proof.
  intros Hpath Hv.
  pose proof (path_last v l Hpath) as Hlast.
  apply last_Some in Hlast as [anc ->].
  exists anc. split; [reflexivity|]. split; [apply removelast_last|]. split.
  - intros ->. inversion Hpath; subst; [congruence|].
    match goal with H : path_to_root _ _ _ [] |- _ => inversion H end.
  - pose proof (path_NoDup v _ Hpath) as Hnd.
    apply NoDup_app in Hnd as (_ & Hdisj & _).
    intros Hin. apply (Hdisj _ Hin). by apply list_elem_of_singleton.
Qed.

End Tree.

(** ** Marking one target *)

Lemma where_positive_spec col : forall s z,
  z ∈ where_positive s col <->
  exists i x, z = (s + Z.of_nat i)%Z /\ col !! i = Some x /\ (0 < x)%Z.
Proof.
  induction col as [|y col IH]; intros s z; cbn.
  - rewrite elem_of_nil. split; [tauto|]. intros (i & x & _ & H & _). discriminate.
  - assert (Hrest : z ∈ where_positive (s + 1) col <->
                    exists i x, z = (s + Z.of_nat (S i))%Z /\ col !! i = Some x /\ (0 < x)%Z).
    { rewrite IH. split; intros (i & x & -> & H); exists i, x; (split; [lia|exact H]). }
    destruct (Z.ltb_spec 0 y) as [Hy|Hy].
    + rewrite elem_of_cons, Hrest. split.
      * intros [->|(i & x & -> & H)].
        -- exists 0, y. split; [lia|]. split; [reflexivity|exact Hy].
        -- exists (S i), x. split; [reflexivity|exact H].
      * intros ([|i] & x & -> & H1 & H2).
        -- left. lia.
        -- right. exists i, x. split; [reflexivity|]. split; assumption.
    + rewrite Hrest. split.
      * intros (i & x & -> & H). exists (S i), x. split; [reflexivity|exact H].
      * intros ([|i] & x & -> & H1 & H2).
        -- cbn in H1. injection H1 as ->. lia.
        -- exists i, x. split; [reflexivity|]. split; assumption.
Qed.

Lemma normalize_index_nat n c : c < n -> normalize_index n (Z.of_nat c) = Ok c.
Proof.
  intros Hc. unfold normalize_index.
  destruct (Z.leb_spec 0 (Z.of_nat c)); [|lia].
  destruct (Z.ltb_spec (Z.of_nat c) (Z.of_nat n)); [|lia].
  cbn. rewrite Nat2Z.id. reflexivity.
Qed.

Lemma getitem_column_positive a t i :
  t < n_classes a ->
  exists col,
    getitem_column a (PyInt (Z.of_nat t)) = Ok col /\
    (Z.of_nat i ∈ where_positive 0 col <->
     exists x, cell a i t = Some x /\ (0 < x)%Z) /\
    (forall z, z ∈ where_positive 0 col ->
       exists r, z = Z.of_nat r /\ r < length (data a)).
Proof.
  intros Ht. unfold getitem_column. rewrite (normalize_index_nat _ _ Ht). cbn.
  eexists. split; [reflexivity|]. split.
  - rewrite where_positive_spec. unfold cell. split.
    + intros (i' & x & Hi & Hx & Hpos). assert (i' = i) as -> by lia.
      rewrite list_lookup_fmap in Hx.
      destruct (data a !! i) as [row|]; [|discriminate]. cbn in Hx.
      injection Hx as <-. destruct (row !! t) as [x|]; cbn in *; [eauto|lia].
    + intros (x & Hx & Hpos). exists i, x. split; [lia|].
      rewrite list_lookup_fmap.
      destruct (data a !! i) as [row|]; [|discriminate]. cbn.
      rewrite Hx. cbn. split; [reflexivity|exact Hpos].
  - intros z Hz. apply where_positive_spec in Hz as (r & x & -> & Hx & _).
    exists r. split; [lia|]. apply lookup_lt_Some in Hx.
    by rewrite length_fmap in Hx.
Qed.

Lemma elem_of_meshgrid {A B} (xs : list A) (ys : list B) x y :
  (x, y) ∈ concat (meshgrid xs ys) <-> x ∈ xs /\ y ∈ ys.
Proof.
  unfold meshgrid. rewrite list_elem_of_In, in_concat. split.
  - intros (l & Hl & Hin). apply in_map_iff in Hl as (y' & <- & Hy').
    apply in_map_iff in Hin as (x' & [= -> ->] & Hx').
    split; by apply list_elem_of_In.
  - intros [Hx Hy]. exists (map (fun x => (x, y)) xs). split.
    + apply in_map_iff. exists y. split; [reflexivity | by apply list_elem_of_In].
    + apply in_map_iff. exists x. split; [reflexivity | by apply list_elem_of_In].
Qed.

Lemma index_array_ints zs : zs <> [] -> index_array (map PyInt zs) = Ok zs.
Proof.
  intros Hne. unfold index_array.
  assert (E : all_ints (map PyInt zs) = Some zs).
  { clear Hne. induction zs as [|z zs IH]; cbn; [reflexivity|]. rewrite IH. reflexivity. }
  rewrite E. destruct zs; [congruence | reflexivity].
Qed.

Lemma normalize_index_nonneg n z :
  (0 <= z < Z.of_nat n)%Z -> normalize_index n z = Ok (Z.to_nat z).
Proof.
  intros Hz. rewrite <- (Z2Nat.id z) at 1 by lia. apply normalize_index_nat. lia.
Qed.

Lemma normalize_indices_nonneg a ix :
  (forall r c, (r, c) ∈ ix ->
     (0 <= r < Z.of_nat (length (data a)))%Z /\ (0 <= c < Z.of_nat (n_classes a))%Z) ->
  normalize_indices a ix = Ok (map (fun rc => (Z.to_nat rc.1, Z.to_nat rc.2)) ix).
Proof.
  induction ix as [|[r c] ix IH]; intros H; cbn; [reflexivity|].
  destruct (H r c) as [Hr Hc]; [left|].
  rewrite (normalize_index_nonneg _ _ Hr), (normalize_index_nonneg _ _ Hc). cbn.
  rewrite IH; [reflexivity|]. intros r' c' Hin. apply H. by right.
Qed.

Lemma cell_fold_set_cell v ix : forall a i j,
  cell (fold_left (fun a' rc => set_cell a' rc v) ix a) i j =
    if decide ((i, j) ∈ ix) then (fun _ => v) <$> cell a i j else cell a i j.
Proof.
  induction ix as [|[r c] ix IH]; intros a i j; cbn [fold_left].
  - rewrite decide_False; [reflexivity | apply not_elem_of_nil].
  - rewrite IH, cell_set_cell.
    destruct (decide ((i, j) ∈ ix)) as [Hin|Hnin].
    + rewrite (decide_True (P := (i, j) ∈ (r, c) :: ix)) by (by right).
      destruct (decide (i = r /\ j = c)); [|reflexivity].
      by destruct (cell a i j).
    + destruct (decide (i = r /\ j = c)) as [[-> ->]|Hne].
      * rewrite (decide_True (P := (r, c) ∈ (r, c) :: ix)) by left. reflexivity.
      * rewrite (decide_False (P := (i, j) ∈ (r, c) :: ix)); [reflexivity|].
        intros [[= -> ->]|?]%elem_of_cons; tauto.
Qed.

(** One turn of the loop for a class [t] whose stripped key list is the
    classes [cs]: the rows where [t] is positive get a 1 in every column
    of [cs], and nothing else changes. *)
Lemma fill_step_class ROOT a a_ t cs dist :
  PyInt (Z.of_nat t) <> ROOT ->
  t < n_classes a ->
  marks_only a a_ ->
  removelast (keys dist) = map (fun c => PyInt (Z.of_nat c)) cs ->
  cs <> [] ->
  (forall c, c ∈ cs -> c < n_classes a) ->
  exists a',
    fill_step ROOT true a a_ (PyInt (Z.of_nat t), dist) = Ok a' /\
    forall i j,
      (positive a i t /\ j ∈ cs -> cell a' i j = (fun _ => 1%Z) <$> cell a_ i j) /\
      (~ (positive a i t /\ j ∈ cs) -> cell a' i j = cell a_ i j).
Proof.
  intros Hroot Ht Hm Hkeys Hne Hcs. unfold fill_step.
  rewrite (node_eqb_neq _ _ Hroot).
  assert (Hcol : exists col,
    getitem_column a (PyInt (Z.of_nat t)) = Ok col /\
    (forall i, Z.of_nat i ∈ where_positive 0 col <-> positive a i t) /\
    (forall z, z ∈ where_positive 0 col -> exists r, z = Z.of_nat r /\ r < length (data a))).
  { destruct (getitem_column_positive a t 0 Ht) as (col & E & _ & Hrange).
    exists col. split; [exact E|]. split; [|exact Hrange].
    intros i. destruct (getitem_column_positive a t i Ht) as (col' & E' & Hi & _).
    rewrite E in E'. injection E' as <-. exact Hi. }
  destruct Hcol as (col & -> & Hpos & Hrange). cbn [result_bind].
  rewrite Hkeys.
  rewrite <- (map_map Z.of_nat PyInt cs), index_array_ints
    by (destruct cs; [congruence | discriminate]).
  cbn [result_bind]. unfold setitem_pairs.
  rewrite normalize_indices_nonneg.
  2:{ intros r c [Hr Hc]%elem_of_meshgrid.
      apply Hrange in Hr as (r' & -> & Hr').
      apply list_elem_of_fmap in Hc as (c' & -> & Hc'). apply Hcs in Hc'.
      rewrite (marks_only_length _ _ Hm), (marks_only_n_classes _ _ Hm). lia. }
  cbn [result_bind]. eexists. split; [reflexivity|].
  intros i j. rewrite cell_fold_set_cell.
  set (ix := map _ _).
  assert (Hin : (i, j) ∈ ix <-> positive a i t /\ j ∈ cs).
  { subst ix. rewrite list_elem_of_fmap. split.
    - intros ([r c] & [= -> ->] & [Hr Hc]%elem_of_meshgrid). cbn.
      apply list_elem_of_fmap in Hc as (c' & -> & Hc').
      destruct (Hrange _ Hr) as (r' & -> & _).
      rewrite !Nat2Z.id. split; [by apply Hpos | exact Hc'].
    - intros [Hp Hj]. exists (Z.of_nat i, Z.of_nat j). cbn. rewrite !Nat2Z.id.
      split; [reflexivity|]. apply elem_of_meshgrid. split; [by apply Hpos|].
      apply list_elem_of_fmap. eauto. }
  split; intros H.
  - rewrite decide_True by (by apply Hin). reflexivity.
  - rewrite decide_False by (by rewrite Hin). reflexivity.
Qed.

Lemma class_path_functional ROOT a p t cs t' cs' :
  class_path ROOT a p t cs -> class_path ROOT a p t' cs' -> t' = t /\ cs' = cs.
Proof.
  intros (Ht & _ & _ & Hk & _) (Ht' & _ & _ & Hk' & _).
  split.
  - rewrite Ht in Ht'. injection Ht' as Ht'. lia.
  - rewrite Hk in Hk'. clear -Hk'. revert cs' Hk'.
    induction cs as [|c cs IH]; intros [|c' cs']; cbn; try discriminate; [reflexivity|].
    intros [= Hc Hrest]. f_equal; [lia | by apply IH].
Qed.

Lemma positive_dec a i t (cs : list nat) j :
  (positive a i t /\ j ∈ cs) \/ ~ (positive a i t /\ j ∈ cs).
Proof.
  unfold positive. destruct (cell a i t) as [x|].
  - destruct (Z.ltb_spec 0 x), (decide (j ∈ cs)).
    + left. eauto.
    + right. tauto.
    + right. intros [(x' & [= <-] & ?) _]. lia.
    + right. tauto.
  - right. intros [(x' & ? & _) _]. discriminate.
Qed.

Lemma fill_loop_classes ROOT a paths : forall a_,
  Forall (fun p => p.1 = ROOT \/ exists t cs, class_path ROOT a p t cs) paths ->
  marks_only a a_ ->
  exists a',
    fill_loop ROOT true a a_ paths = (Ok tt, a') /\
    marks_only a a' /\
    forall i j,
      cell a' i j = Some 1%Z <->
      cell a_ i j = Some 1%Z \/
      (is_Some (cell a i j) /\
       exists p t cs, p ∈ paths /\ class_path ROOT a p t cs /\
                      positive a i t /\ j ∈ cs).
Proof.
  induction paths as [|p rest IH]; intros a_ Hgood Hm.
  - exists a_. split; [reflexivity|]. split; [exact Hm|].
    intros i j. split; [tauto|]. intros [H|(_ & p & t & cs & Hin & _)]; [exact H|].
    by apply elem_of_nil in Hin.
  - apply Forall_cons in Hgood as [Hp Hgood]. cbn [fill_loop].
    destruct Hp as [Hroot|(t & cs & Hcp)].
    + destruct p as [target dist]. cbn in Hroot. subst target.
      unfold fill_step. rewrite node_eqb_refl.
      destruct (IH a_ Hgood Hm) as (a' & -> & Hm' & Hcells).
      exists a'. split; [reflexivity|]. split; [exact Hm'|].
      intros i j. rewrite Hcells. split.
      * intros [H|(Hs & p & t & cs & Hin & H)]; [by left|].
        right. split; [exact Hs|]. exists p, t, cs. split; [by right|exact H].
      * intros [H|(Hs & p & t & cs & Hin & Hcp & H)]; [by left|].
        apply elem_of_cons in Hin as [->|Hin].
        -- destruct Hcp as (_ & Hne & _). cbn in Hne. congruence.
        -- right. split; [exact Hs|]. exists p, t, cs. tauto.
    + pose proof Hcp as (Ht & Hne & Htlt & Hkeys & Hcs & Hcols).
      destruct p as [target dist]. cbn in Ht, Hne, Hkeys. subst target.
      destruct (fill_step_class ROOT a a_ t cs dist Hne Htlt Hm Hkeys Hcs Hcols)
        as (a1 & E1 & Hcell1).
      rewrite E1.
      assert (Hm1 : marks_only a a1).
      { eapply marks_only_trans; [exact Hm|]. eapply fill_step_marks_only, E1. }
      destruct (IH a1 Hgood Hm1) as (a' & -> & Hm' & Hcells).
      exists a'. split; [reflexivity|]. split; [exact Hm'|].
      intros i j. rewrite Hcells. specialize (Hcell1 i j) as [Hyes Hno].
      split.
      * intros [H1|(Hs & p & t' & cs' & Hin & H)].
        -- destruct (positive_dec a i t cs j) as [Hhit|Hmiss].
           ++ right. split.
              ** rewrite <- (marks_only_is_Some a a_ i j Hm).
                 rewrite (Hyes Hhit) in H1. by destruct (cell a_ i j).
              ** exists (PyInt (Z.of_nat t), dist), t, cs. split; [left|tauto].
           ++ left. by rewrite <- (Hno Hmiss).
        -- right. split; [exact Hs|]. exists p, t', cs'. split; [by right|exact H].
      * intros [H|(Hs & p & t' & cs' & Hin & Hcp' & Hhit)].
        -- left. destruct (positive_dec a i t cs j) as [Hhit|Hmiss].
           ++ rewrite (Hyes Hhit), H. reflexivity.
           ++ by rewrite (Hno Hmiss).
        -- apply elem_of_cons in Hin as [->|Hin].
           ++ destruct (class_path_functional _ _ _ _ _ _ _ Hcp Hcp') as [-> ->].
              left. rewrite (Hyes Hhit).
              apply (marks_only_is_Some a a_ i j Hm) in Hs as [x ->]. reflexivity.
           ++ right. split; [exact Hs|]. exists p, t', cs'. tauto.
Qed.

Lemma as_columns (n : nat) (anc : list node) :
  (forall w, w ∈ anc -> exists c, w = PyInt (Z.of_nat c) /\ c < n) ->
  exists cs, anc = map (fun c => PyInt (Z.of_nat c)) cs /\ forall c, c ∈ cs -> c < n.
Proof.
  induction anc as [|w anc IH]; intros H.
  - exists []. split; [reflexivity|]. intros c Hc. by apply elem_of_nil in Hc.
  - destruct (H w) as (c & -> & Hc); [left|].
    destruct IH as (cs & -> & Hcs); [intros w' Hw'; apply H; by right|].
    exists (c :: cs). split; [reflexivity|].
    intros c' [->|Hc']%elem_of_cons; [exact Hc | by apply Hcs].
Qed.

(** ** The fill on a tree *)

Section TreeFill.

Variable ROOT : node.
Variable G : DiGraph.
Variable a : ndarray.
Hypothesis Htree : tree_hierarchy ROOT G.
Hypothesis Hcover : columns_cover ROOT G a.

(** The pair the generator yields for a class of a tree. *)
Lemma tree_class_path v :
  v ∈ nodes G -> v <> ROOT ->
  exists t cs,
    class_path ROOT a (v, single_source_shortest_path_length (reversed G) v) t cs /\
    forall j, j ∈ cs <->
      PyInt (Z.of_nat j) <> ROOT /\ ancestor_or_self G (PyInt (Z.of_nat j)) v.
Proof.
  intros Hv Hne.
  destruct (Hcover v Hv Hne) as (t & Ht & Htlt).
  destruct (path_exists ROOT G Htree v Hv) as [l Hpath].
  destruct (path_strip ROOT G Htree v l Hpath Hne) as (anc & Hl & Hstrip & Hanc & Hroot).
  destruct (as_columns (n_classes a) anc) as (cs & Hcs & Hlt).
  { intros w Hw. apply Hcover.
    - apply (path_nodes ROOT G Htree v l Hv Hpath). rewrite Hl.
      apply elem_of_app. by left.
    - intros ->. contradiction. }
  exists t, cs. split.
  - split; [exact Ht|]. split; [exact Hne|]. split; [exact Htlt|].
    cbn [snd]. rewrite (tree_search ROOT G Htree v l Hv Hpath), keys_with_distances.
    split; [congruence|]. split; [|exact Hlt].
    intros ->. cbn in Hcs. congruence.
  - intros j. rewrite <- (path_ancestors ROOT G Htree v l Hpath).
    rewrite Hl, elem_of_app, list_elem_of_singleton, Hcs, list_elem_of_fmap. split.
    + intros Hj. split.
      * intros Heq. apply Hroot. rewrite Hcs, <- Heq. apply list_elem_of_fmap. eauto.
      * left. eauto.
    + intros [Hjr [(c & [= Hc] & Hin)|?]]; [|contradiction].
      assert (c = j) as -> by lia. exact Hin.
Qed.

Lemma tree_paths_good :
  Forall (fun p => p.1 = ROOT \/ exists t cs, class_path ROOT a p t cs) (ancestor_paths G).
Proof.
  unfold ancestor_paths. apply Forall_fmap, Forall_forall. intros v Hv. cbn.
  destruct (decide (v = ROOT)) as [->|Hne]; [by left|]. right.
  destruct (tree_class_path v Hv Hne) as (t & cs & H & _). eauto.
Qed.

(** On a tree whose classes are columns, the fill returns, and a cell of
    the result is 1 exactly when it was 1 in the input or the row is
    positive in a class that has the column's class among its ancestors. *)
Lemma filled_tree :
  exists a',
    filled ROOT true a G = (Ok tt, a') /\
    marks_only a a' /\
    forall i j,
      cell a' i j = Some 1%Z <->
      cell a i j = Some 1%Z \/
      (is_Some (cell a i j) /\ PyInt (Z.of_nat j) <> ROOT /\
       exists t, PyInt (Z.of_nat t) ∈ nodes G /\ PyInt (Z.of_nat t) <> ROOT /\
                 positive a i t /\
                 ancestor_or_self G (PyInt (Z.of_nat j)) (PyInt (Z.of_nat t))).
Proof.
  destruct (fill_loop_classes ROOT a (ancestor_paths G) a tree_paths_good
              (marks_only_refl a)) as (a' & E & Hm & Hcells).
  exists a'. split; [exact E|]. split; [exact Hm|].
  intros i j. rewrite Hcells. apply or_iff_compat_l, and_iff_compat_l. split.
  - intros (p & t & cs & Hin & Hcp & Hpos & Hj).
    unfold ancestor_paths in Hin. apply list_elem_of_fmap in Hin as (v & -> & Hv).
    pose proof Hcp as (Ht & Hne & _). cbn in Ht, Hne. subst v.
    destruct (tree_class_path _ Hv Hne) as (t' & cs' & Hcp' & Hanc).
    destruct (class_path_functional _ _ _ _ _ _ _ Hcp Hcp') as [-> ->].
    apply Hanc in Hj as [Hjr Hja]. split; [exact Hjr|]. exists t. tauto.
  - intros (Hjr & t & Hv & Hne & Hpos & Hanc).
    destruct (tree_class_path _ Hv Hne) as (t' & cs & Hcp & Hcs).
    pose proof Hcp as (Ht & _). cbn in Ht. injection Ht as Ht.
    assert (t' = t) as -> by lia.
    eexists _, t, cs. split.
    + unfold ancestor_paths. apply list_elem_of_fmap. eexists. split; [reflexivity|exact Hv].
    + split; [exact Hcp|]. split; [exact Hpos|]. apply Hcs. tauto.
Qed.

End TreeFill.

Lemma ndarray_ext a b :
  n_classes a = n_classes b ->
  length (data a) = length (data b) ->
  (forall i j, cell a i j = cell b i j) ->
  a = b.
Proof.
  destruct a as [na da], b as [nb db]. cbn. intros -> Hlen Hcell. f_equal.
  apply list_eq. intros i. specialize (Hcell i). unfold cell in Hcell. cbn in Hcell.
  destruct (da !! i) as [ra|] eqn:Ea, (db !! i) as [rb|] eqn:Eb.
  - f_equal. apply list_eq. exact Hcell.
  - apply lookup_lt_Some in Ea. apply lookup_ge_None in Eb. lia.
  - apply lookup_ge_None in Ea. apply lookup_lt_Some in Eb. lia.
  - reflexivity.
Qed.

Lemma columns_cover_shape ROOT G a a' :
  n_classes a' = n_classes a -> columns_cover ROOT G a -> columns_cover ROOT G a'.
Proof. intros E H v Hv Hne. rewrite E. by apply H. Qed.

(** On a tree, filling a filled matrix changes nothing. *)
Lemma filled_tree_idempotent ROOT G a a' :
  tree_hierarchy ROOT G ->
  columns_cover ROOT G a ->
  filled ROOT true a G = (Ok tt, a') ->
  filled ROOT true a' G = (Ok tt, a').
Proof.
  intros Htree Hcover E.
  destruct (filled_tree ROOT G a Htree Hcover) as (a1 & E1 & Hm & Hcells).
  rewrite E in E1. injection E1 as <-.
  pose proof (columns_cover_shape ROOT G a a' (marks_only_n_classes _ _ Hm) Hcover)
    as Hcover'.
  destruct (filled_tree ROOT G a' Htree Hcover') as (a2 & E2 & Hm2 & Hcells2).
  rewrite E2. f_equal. symmetry.
  apply ndarray_ext; [symmetry; apply Hm2 | symmetry; apply Hm2 |].
  intros i j. destruct Hm2 as (_ & _ & H2). destruct (H2 i j) as [Heq|[Hs H1]].
  { symmetry. exact Heq. }
  rewrite H1. apply Hcells2 in H1 as [H1|(_ & Hjr & t & Ht & Htr & Hpos & Hanc)].
  { exact H1. }
  apply (marks_only_is_Some a a' i j Hm) in Hs.
  apply Hcells. right. split; [exact Hs|]. split; [exact Hjr|].
  assert (Hsrc : positive a i t \/ cell a' i t = Some 1%Z).
  { destruct Hpos as (x & Hx & Hxpos). destruct Hm as (_ & _ & H).
    destruct (H i t) as [Heq|[_ Hone]]; [|by right].
    left. exists x. split; [congruence | exact Hxpos]. }
  destruct Hsrc as [Hp|Hone].
  { exists t. tauto. }
  apply Hcells in Hone as [Hone|(_ & _ & t' & Ht' & Htr' & Hpos' & Hanc')].
  - exists t. split; [exact Ht|]. split; [exact Htr|]. split; [|exact Hanc].
    exists 1%Z. split; [exact Hone | lia].
  - exists t'. split; [exact Ht'|]. split; [exact Htr'|]. split; [exact Hpos'|].
    unfold ancestor_or_self in *. by etrans.
Qed.

(** ** The test inputs *)

Lemma chain_AB_paths ROOT :
  ROOT <> PyInt 0 -> ROOT <> PyInt 1 ->
  ancestor_paths (chain_AB ROOT) =
    [(ROOT, [(ROOT, 0)]);
     (PyInt 0, [(PyInt 0, 0); (ROOT, 1)]);
     (PyInt 1, [(PyInt 1, 0); (PyInt 0, 1); (ROOT, 2)])].
Proof.
  intros H0 H1.
  unfold ancestor_paths, chain_AB, single_source_shortest_path_length.
  run_search. reflexivity.
Qed.

Lemma chain_AB_filled ROOT :
  ROOT <> PyInt 0 -> ROOT <> PyInt 1 ->
  filled ROOT true only_B (chain_AB ROOT) = (Ok tt, {| n_classes := 2; data := [[1; 1]]%Z |})
  /\ filled ROOT true only_A (chain_AB ROOT) = (Ok tt, only_A)
  /\ filled ROOT true nothing (chain_AB ROOT) = (Ok tt, nothing).
Proof.
  intros H0 H1. unfold filled. rewrite chain_AB_paths by assumption.
  repeat split; run_search; reflexivity.
Qed.

Lemma shortcut_dag_paths ROOT :
  ROOT <> PyInt 0 -> ROOT <> PyInt 1 -> ROOT <> PyInt 2 ->
  ancestor_paths (shortcut_dag ROOT) =
    [(ROOT, [(ROOT, 0)]);
     (PyInt 0, [(PyInt 0, 0); (ROOT, 1)]);
     (PyInt 1, [(PyInt 1, 0); (PyInt 0, 1); (ROOT, 2)]);
     (PyInt 2, [(PyInt 2, 0); (PyInt 1, 1); (ROOT, 1); (PyInt 0, 2)])].
Proof.
  intros H0 H1 H2.
  unfold ancestor_paths, shortcut_dag, single_source_shortest_path_length.
  run_search. reflexivity.
Qed.

Lemma chain_AB_tree ROOT :
  ROOT <> PyInt 0 -> ROOT <> PyInt 1 -> tree_hierarchy ROOT (chain_AB ROOT).
Proof.
  intros H0 H1. split.
  - split.
    + cbn. rewrite !NoDup_cons, !elem_of_cons, !elem_of_nil.
      repeat split; try apply NoDup_nil_2; intuition congruence.
    + intros u v. cbn. rewrite !elem_of_cons, elem_of_nil.
      intros [[= -> ->]|[[= -> ->]|[]]]; tauto.
  - unfold predecessors, chain_AB. run_search. reflexivity.
  - intros v. cbn. rewrite !elem_of_cons, elem_of_nil.
    intros [->|[->|[->|[]]]] Hne; [congruence| |].
    + exists ROOT. unfold predecessors. run_search. reflexivity.
    + exists (PyInt 0). unfold predecessors. run_search. reflexivity.
  - exists (fun v => if node_eqb v (PyInt 0) then 1
                     else if node_eqb v (PyInt 1) then 2 else 0).
    intros u v. cbn. rewrite !elem_of_cons, elem_of_nil.
    intros [[= -> ->]|[[= -> ->]|[]]]; run_search; lia.
Qed.

Lemma chain_AB_cover ROOT a :
  n_classes a = 2 -> columns_cover ROOT (chain_AB ROOT) a.
Proof.
  intros Hn v. cbn. rewrite !elem_of_cons, elem_of_nil, Hn.
  intros [->|[->|[->|[]]]] Hne; [congruence | exists 0 | exists 1];
    (split; [reflexivity | lia]).
Qed.

Lemma shortcut_dag_wf ROOT :
  ROOT <> PyInt 0 -> ROOT <> PyInt 1 -> ROOT <> PyInt 2 ->
  wf_DiGraph (reversed (shortcut_dag ROOT)).
Proof.
  intros H0 H1 H2. apply wf_DiGraph_reversed. split.
  - cbn. rewrite !NoDup_cons, !elem_of_cons, !elem_of_nil.
    repeat split; try apply NoDup_nil_2; intuition congruence.
  - intros u v. cbn. rewrite !elem_of_cons, elem_of_nil.
    intros [[= -> ->]|[[= -> ->]|[[= -> ->]|[[= -> ->]|[]]]]]; tauto.
Qed.

Lemma shortcut_dag_filled_str s :
  filled (PyStr s) true only_2 (shortcut_dag (PyStr s)) = (Raise IndexError, only_2).
Proof.
  unfold filled. rewrite shortcut_dag_paths by discriminate.
  run_search. reflexivity.
Qed.

Lemma fork_ABC_paths ROOT :
  ROOT <> PyInt 0 -> ROOT <> PyInt 1 -> ROOT <> PyInt 2 ->
  ancestor_paths (fork_ABC ROOT) =
    [(ROOT, [(ROOT, 0)]);
     (PyInt 0, [(PyInt 0, 0); (ROOT, 1)]);
     (PyInt 1, [(PyInt 1, 0); (PyInt 0, 1); (ROOT, 2)]);
     (PyInt 2, [(PyInt 2, 0); (ROOT, 1)])].
Proof.
  intros H0 H1 H2.
  unfold ancestor_paths, fork_ABC, single_source_shortest_path_length.
  run_search. reflexivity.
Qed.

Lemma fork_ABC_filled ROOT :
  ROOT <> PyInt 0 -> ROOT <> PyInt 1 -> ROOT <> PyInt 2 ->
  filled ROOT true only_B3 (fork_ABC ROOT)
    = (Ok tt, {| n_classes := 3; data := [[1; 1; 0]]%Z |}) /\
  filled ROOT true only_C3 (fork_ABC ROOT) = (Ok tt, only_C3).
Proof.
  intros H0 H1 H2. unfold filled. rewrite fork_ABC_paths by assumption.
  split; run_search; reflexivity.
Qed.

(** ** A loop that stops *)

Lemma fill_loop_stops ROOT copy a paths p :
  p ∈ paths ->
  (forall a_, exists e, fill_step ROOT copy a a_ p = Raise e) ->
  forall a_, (fill_loop ROOT copy a a_ paths).1 = Raise IndexError.
Proof.
  intros Hin Hp. induction paths as [|q rest IH]; intros a_.
  { by apply elem_of_nil in Hin. }
  cbn [fill_loop].
  destruct (fill_step ROOT copy a a_ q) as [a1|e] eqn:E.
  - apply IH. apply elem_of_cons in Hin as [->|Hin]; [|exact Hin].
    destruct (Hp a_) as [e He]. congruence.
  - cbn. f_equal. eapply fill_step_raise, E.
Qed.

Lemma search_no_parent G v :
  predecessors G v = [] ->
  single_source_shortest_path_length (reversed G) v = [(v, 0)].
Proof.
  intros Hpred. unfold single_source_shortest_path_length. f_equal.
  destruct (length (nodes (reversed G))) as [|fuel]; [reflexivity|].
  cbn [bfs_levels expand]. rewrite successors_reversed, Hpred. cbn [visit map app].
  apply bfs_levels_nil.
Qed.

(** ** Two equal matrices *)

Lemma count_true_zip_same (row : list Z) :
  count_true (zip_with (fun x y => andb (negb (x =? 0)%Z) (negb (y =? 0)%Z)) row row)
  = length (List.filter (fun x => negb (x =? 0)%Z) row).
Proof.
  unfold count_true. induction row as [|x row IH]; [reflexivity|].
  cbn. destruct (x =? 0)%Z; cbn; congruence.
Qed.

Lemma both_nonzero_same t :
  wf_ndarray t ->
  exists mask, both_nonzero t t = Ok mask /\ length (where_true mask) = count_nonzero t.
Proof.
  intros Hwf. unfold both_nonzero. rewrite !broadcast_dim_same. cbn [result_bind].
  eexists. split; [reflexivity|].
  rewrite where_true_length, count_nonzero_rows.
  assert (E : map (stretch (n_classes t)) (data t) = data t).
  { unfold wf_ndarray in Hwf. induction Hwf as [|row rows Hrow _ IH]; [reflexivity|].
    cbn. rewrite IH, (stretch_same _ row Hrow). reflexivity. }
  rewrite E, (stretch_same _ (data t) eq_refl). clear E Hwf.
  f_equal. induction (data t) as [|row rows IH]; [reflexivity|].
  cbn. rewrite count_true_zip_same. f_equal. exact IH.
Qed.

Lemma int_truediv_same n : n <> 0 -> exists q, int_truediv n n = Ok q /\ (q == 1)%Q.
Proof.
  intros Hn. unfold int_truediv. destruct (Nat.eqb_spec n 0); [contradiction|].
  eexists. split; [reflexivity|].
  apply Qmult_inv_r. intros H. apply (f_equal Qnum) in H || idtac.
  unfold Qeq in H. cbn in H. lia.
Qed.

Lemma Qpower_2_nonneg (beta : Q) : (0 <= beta ^ 2)%Q.
Proof.
  assert (E : (beta ^ 2 == beta * beta)%Q) by (cbn; reflexivity).
  rewrite E. nra.
Qed.

Lemma fbeta_of_ones beta hP hR :
  (hP == 1)%Q -> (hR == 1)%Q -> exists f, fbeta_of beta hP hR = Ok f /\ (f == 1)%Q.
Proof.
  intros HP HR. unfold fbeta_of, float_truediv.
  pose proof (Qpower_2_nonneg beta) as Hb.
  assert (Hd : ~ (beta ^ 2 * hP + hR == 0)%Q).
  { rewrite HP, HR. intros H. nra. }
  destruct (Qeq_bool _ 0) eqn:E.
  { apply Qeq_bool_eq in E. contradiction. }
  eexists. split; [reflexivity|].
  rewrite HP, HR in *. field. intros H. apply Hd. rewrite <- H. ring.
Qed.

(** ** The F-score between precision and recall *)


(** ** The F-score with [beta = 1] of the two matrices exchanged *)

Lemma fbeta_of_1_swap hP hR :
  match fbeta_of 1 hP hR, fbeta_of 1 hR hP with
  | Ok x, Ok y => (x == y)%Q
  | Raise e, Raise e' => e = e'
  | _, _ => False
  end.
Proof.
  unfold fbeta_of, float_truediv.
  assert (E : (1 ^ 2 * hP + hR == 1 ^ 2 * hR + hP)%Q) by ring.
  destruct (Qeq_bool (1 ^ 2 * hP + hR) 0) eqn:E1, (Qeq_bool (1 ^ 2 * hR + hP) 0) eqn:E2.
  - reflexivity.
  - apply Qeq_bool_eq in E1. apply Qeq_bool_neq in E2. apply E2. rewrite <- E. exact E1.
  - apply Qeq_bool_eq in E2. apply Qeq_bool_neq in E1. apply E1. rewrite E. exact E2.
  - rewrite E. apply Qeq_bool_neq in E2.
    field. intros H. apply E2. rewrite <- H. ring.
Qed.

(** ** Shapes that do not broadcast *)

Lemma both_nonzero_mismatch t p :
  (length (data t) <> length (data p) /\ length (data t) <> 1 /\ length (data p) <> 1) \/
  (n_classes t <> n_classes p /\ n_classes t <> 1 /\ n_classes p <> 1) ->
  both_nonzero t p = Raise ValueError.
Proof.
  assert (Hbad : forall n m, n <> m -> n <> 1 -> m <> 1 -> broadcast_dim n m = Raise ValueError).
  { intros n m H1 H2 H3. unfold broadcast_dim.
    destruct (Nat.eqb_spec n m); [contradiction|].
    destruct (Nat.eqb_spec n 1); [contradiction|].
    destruct (Nat.eqb_spec m 1); [contradiction|]. reflexivity. }
  unfold both_nonzero. intros [(H1 & H2 & H3)|(H1 & H2 & H3)].
  - rewrite (Hbad _ _ H1 H2 H3). reflexivity.
  - rewrite (Hbad _ _ H1 H2 H3).
    destruct (broadcast_dim (length (data t)) (length (data p))) as [r|e] eqn:E;
      cbn; [reflexivity|].
    unfold broadcast_dim in E. repeat destruct (_ =? _); congruence.
Qed.

(** ** The fill in place on a tree *)

(** Without a copy a turn of the loop reads the rows from the array it
    writes. *)
Lemma fill_step_inplace ROOT y y_ p :
  fill_step ROOT false y y_ p = fill_step ROOT true y_ y_ p.
Proof. destruct p. reflexivity. Qed.

Section TreeInPlace.

Variable ROOT : node.
Variable G : DiGraph.
Variable a : ndarray.
Hypothesis Htree : tree_hierarchy ROOT G.
Hypothesis Hcover : columns_cover ROOT G a.

Lemma tree_pairs : Forall (tree_pair ROOT G a) (ancestor_paths G).
Proof.
  unfold ancestor_paths. apply Forall_fmap, Forall_forall. intros v Hv.
  unfold tree_pair. cbn.
  destruct (decide (v = ROOT)) as [->|Hne]; [by left|]. right.
  destruct (tree_class_path ROOT G a Htree Hcover v Hv Hne) as (t & cs & H1 & H2).
  exists t, cs. auto.
Qed.

Lemma positive_marks_only a_ i t :
  marks_only a a_ -> positive a i t -> positive a_ i t.
Proof.
  intros (_ & _ & H) (x & Hx & Hpos). destruct (H i t) as [E|[_ E]].
  - exists x. split; [congruence | exact Hpos].
  - exists 1%Z. split; [exact E | lia].
Qed.

Lemma fill_loop_inplace paths : forall a_,
  Forall (tree_pair ROOT G a) paths ->
  marks_only a a_ ->
  (forall i j, cell a_ i j = cell a i j \/ closure_cell ROOT G a i j) ->
  exists a',
    fill_loop ROOT false a a_ paths = (Ok tt, a') /\
    marks_only a a' /\
    (forall i j, cell a' i j = cell a i j \/ closure_cell ROOT G a i j) /\
    (forall i j,
       cell a_ i j = Some 1%Z \/
       (is_Some (cell a i j) /\
        exists p t cs, p ∈ paths /\ class_path ROOT a p t cs /\
                       positive a i t /\ j ∈ cs) ->
       cell a' i j = Some 1%Z).
Proof.
  induction paths as [|p rest IH]; intros a_ Hgood Hm Hsound.
  - exists a_. split; [reflexivity|]. split; [exact Hm|]. split; [exact Hsound|].
    intros i j [H|(_ & p & t & cs & Hin & _)]; [exact H|].
    by apply elem_of_nil in Hin.
  - apply Forall_cons in Hgood as [Hp Hgood]. cbn [fill_loop].
    rewrite fill_step_inplace.
    destruct Hp as [Hroot|(t & cs & Hcp & Hnode & Hanc)].
    + destruct p as [target dist]. cbn in Hroot. subst target.
      unfold fill_step. rewrite node_eqb_refl.
      destruct (IH a_ Hgood Hm Hsound) as (a' & -> & Hm' & Hsound' & Hcomplete).
      exists a'. split; [reflexivity|]. split; [exact Hm'|]. split; [exact Hsound'|].
      intros i j [H|(Hs & p & t & cs & Hin & Hcp & H)]; apply Hcomplete; [by left|].
      apply elem_of_cons in Hin as [->|Hin].
      * destruct Hcp as (_ & Hne & _). cbn in Hne. congruence.
      * right. split; [exact Hs|]. exists p, t, cs. tauto.
    + pose proof Hcp as (Ht & Hne & Htlt & Hkeys & Hcs & Hcols).
      destruct p as [target dist]. cbn in Ht, Hne, Hkeys, Hnode, Hanc. subst target.
      pose proof (marks_only_n_classes _ _ Hm) as Hn.
      destruct (fill_step_class ROOT a_ a_ t cs dist Hne) as (a1 & E1 & Hcell1).
      { rewrite Hn. exact Htlt. }
      { apply marks_only_refl. }
      { exact Hkeys. }
      { exact Hcs. }
      { rewrite Hn. exact Hcols. }
      rewrite E1.
      assert (Hm1 : marks_only a a1).
      { eapply marks_only_trans; [exact Hm|]. eapply fill_step_marks_only, E1. }
      assert (Hsound1 : forall i j, cell a1 i j = cell a i j \/ closure_cell ROOT G a i j).
      { intros i j. specialize (Hcell1 i j) as [Hyes Hno].
        destruct (positive_dec a_ i t cs j) as [Hhit|Hmiss].
        2:{ rewrite (Hno Hmiss). apply Hsound. }
        rewrite (Hyes Hhit). destruct Hhit as [Hpos Hj].
        destruct (cell a_ i j) as [x|] eqn:Ex.
        2:{ left. cbn. destruct (Hsound i j) as [<-|(Hs & _)]; [by rewrite Ex|].
            apply (marks_only_is_Some a a_ i j Hm) in Hs. rewrite Ex in Hs.
            by destruct Hs. }
        right. apply Hanc in Hj as [Hjr Hja].
        split; [apply (marks_only_is_Some a a_ i j Hm); by rewrite Ex|].
        split; [exact Hjr|].
        destruct (Hsound i t) as [Heq|(_ & _ & t' & Ht' & Htr' & Hpos' & Hanc')].
        - exists t. split; [exact Hnode|]. split; [exact Hne|]. split; [|exact Hja].
          destruct Hpos as (v & Hv & Hvpos). exists v. split; [congruence | exact Hvpos].
        - exists t'. split; [exact Ht'|]. split; [exact Htr'|]. split; [exact Hpos'|].
          unfold ancestor_or_self in *. by etrans. }
      destruct (IH a1 Hgood Hm1 Hsound1) as (a' & -> & Hm' & Hsound' & Hcomplete).
      exists a'. split; [reflexivity|]. split; [exact Hm'|]. split; [exact Hsound'|].
      intros i j H. apply Hcomplete. specialize (Hcell1 i j) as [Hyes Hno].
      destruct H as [H|(Hs & p & t' & cs' & Hin & Hcp' & Hpos & Hj)].
      * left. destruct (positive_dec a_ i t cs j) as [Hhit|Hmiss].
        -- rewrite (Hyes Hhit), H. reflexivity.
        -- by rewrite (Hno Hmiss).
      * apply elem_of_cons in Hin as [->|Hin].
        -- destruct (class_path_functional _ _ _ _ _ _ _ Hcp Hcp') as [-> ->].
           left. rewrite Hyes.
           ++ apply (marks_only_is_Some a a_ i j Hm) in Hs as [x ->]. reflexivity.
           ++ split; [by apply positive_marks_only | exact Hj].
        -- right. split; [exact Hs|]. exists p, t', cs'. tauto.
Qed.

(** On a tree the fill in place and the fill of a copy hold the same
    matrix. *)
Lemma filled_tree_inplace : filled ROOT false a G = filled ROOT true a G.
Proof.
  destruct (filled_tree ROOT G a Htree Hcover) as (a2 & E2 & Hm2 & Hcells2).
  destruct (fill_loop_inplace (ancestor_paths G) a tree_pairs (marks_only_refl a))
    as (a1 & E1 & Hm1 & Hsound & Hcomplete).
  { intros i j. by left. }
  fold (filled ROOT false a G) in E1. rewrite E1, E2. f_equal.
  assert (Hclo : forall i j, closure_cell ROOT G a i j -> cell a1 i j = Some 1%Z /\ cell a2 i j = Some 1%Z).
  { intros i j Hc. split; [|apply Hcells2; by right].
    apply Hcomplete. right. destruct Hc as (Hs & Hjr & t & Ht & Htr & Hpos & Hanc).
    split; [exact Hs|].
    destruct (tree_class_path ROOT G a Htree Hcover _ Ht Htr) as (t' & cs & Hcp & Hcs).
    pose proof Hcp as (Et & _). cbn in Et. injection Et as Et.
    assert (t' = t) as -> by lia.
    eexists _, t, cs. split.
    - unfold ancestor_paths. apply list_elem_of_fmap. eexists. split; [reflexivity|exact Ht].
    - split; [exact Hcp|]. split; [exact Hpos|]. apply Hcs. tauto. }
  apply ndarray_ext.
  - rewrite (marks_only_n_classes _ _ Hm1), (marks_only_n_classes _ _ Hm2). reflexivity.
  - rewrite (marks_only_length _ _ Hm1), (marks_only_length _ _ Hm2). reflexivity.
  - intros i j.
    destruct (Hsound i j) as [E|Hc]; [|destruct (Hclo i j Hc); congruence].
    destruct Hm2 as (_ & _ & H2). destruct (H2 i j) as [E'|[_ E']]; [congruence|].
    pose proof E' as Hone.
    apply Hcells2 in Hone as [Hone|Hc]; [congruence|].
    destruct (Hclo i j Hc). congruence.
Qed.

End TreeInPlace.

(** A filled pair is its own fill on a tree. *)
Lemma filled_pair_tree_idempotent ROOT G A B t p :
  tree_hierarchy ROOT G ->
  columns_cover ROOT G A -> columns_cover ROOT G B ->
  filled_pair ROOT A B G = Ok (t, p) ->
  filled_pair ROOT t p G = Ok (t, p).
Proof.
  intros Htree HcA HcB. unfold filled_pair.
  destruct (filled ROOT true A G) as [[[]|e] t'] eqn:EA; [|discriminate].
  destruct (filled ROOT true B G) as [[[]|e] p'] eqn:EB; [|discriminate].
  intros [= -> ->].
  rewrite (filled_tree_idempotent ROOT G A t Htree HcA EA).
  rewrite (filled_tree_idempotent ROOT G B p Htree HcB EB).
  reflexivity.
Qed.

(** ** The classes of the binarizer *)

Lemma chain_from_iterable_int y z :
  PyInt z ∈ y -> chain_from_iterable y = TypeError.
Proof.
  induction y as [|[z'|s] y IH]; intros Hin.
  - by apply elem_of_nil in Hin.
  - reflexivity.
  - apply elem_of_cons in Hin as [?|Hin]; [discriminate|].
    cbn. rewrite (IH Hin). reflexivity.
Qed.




Lemma class_index_Some classes label i :
  class_index classes label = Some i -> exists c, label = PyStr c /\ classes !! i = Some c.
Proof.
  revert i. induction classes as [|c rest IH]; intros i; cbn [class_index]; [discriminate|].
  destruct (node_eqb (PyStr c) label) eqn:E.
  - intros [= <-]. apply node_eqb_eq in E. eauto.
  - destruct (class_index rest label) as [k|]; [|discriminate].
    intros [= <-]. destruct (IH k eq_refl) as (c' & -> & Hc'). eauto.
Qed.


Lemma class_index_lookup classes i c :
  NoDup classes -> classes !! i = Some c -> class_index classes (PyStr c) = Some i.
Proof.
  intros Hnd. revert i. induction Hnd as [|c' rest Hnin Hnd IH]; intros [|i];
    cbn [class_index lookup list_lookup]; try discriminate.
  - intros [= ->]. rewrite node_eqb_refl. reflexivity.
  - intros Hi. destruct (decide (c' = c)) as [->|Hne].
    + exfalso. apply Hnin. eapply list_elem_of_lookup_2, Hi.
    + rewrite node_eqb_neq by congruence. rewrite (IH i Hi). reflexivity.
Qed.

Lemma mapping_get_imap classes n : forall (g : nat -> node),
  mapping_get (imap (fun i c => (PyStr c, g i)) classes) n
  = match class_index classes n with
    | Some i => g i
    | None => n
    end.
Proof.
  unfold mapping_get.
  induction classes as [|c rest IH]; intros g; [reflexivity|].
  cbn [imap List.find class_index fst snd].
  destruct (node_eqb (PyStr c) n); [reflexivity|].
  change (imap ((fun i c0 => (PyStr c0, g i)) ∘ S) rest)
    with (imap (fun i c0 => (PyStr c0, (g ∘ S) i)) rest).
  rewrite (IH (g ∘ S)). destruct (class_index rest n); reflexivity.
Qed.

Lemma mapping_get_new_label classes n :
  mapping_get (imap (fun i c => (PyStr c, PyInt (Z.of_nat i))) classes) n
  = new_label classes n.
Proof. apply (mapping_get_imap classes n (fun i => PyInt (Z.of_nat i))). Qed.

(** ** Building a graph *)

Lemma add_node_spec ns n :
  (NoDup ns -> NoDup (add_node ns n)) /\
  forall x, x ∈ add_node ns n <-> x ∈ ns \/ x = n.
Proof.
  unfold add_node. destruct (node_in n ns) eqn:E.
  - apply node_in_spec in E. split; [tauto|]. intros x. split; [tauto|].
    intros [?| ->]; assumption.
  - apply node_in_false in E. split.
    + intros Hnd. apply NoDup_app. split; [exact Hnd|]. split; [|apply NoDup_singleton].
      intros x Hx ->%list_elem_of_singleton. contradiction.
    + intros x. rewrite elem_of_app, list_elem_of_singleton. tauto.
Qed.

Lemma fold_add_node l : forall acc,
  (NoDup acc -> NoDup (fold_left add_node l acc)) /\
  forall x, x ∈ fold_left add_node l acc <-> x ∈ acc \/ x ∈ l.
Proof.
  induction l as [|n l IH]; intros acc; cbn [fold_left].
  - split; [tauto|]. intros x. rewrite elem_of_nil. tauto.
  - destruct (IH (add_node acc n)) as [IH1 IH2].
    destruct (add_node_spec acc n) as [H1 H2]. split; [tauto|].
    intros x. rewrite IH2, H2, elem_of_cons. tauto.
Qed.

Lemma edge_in_spec (e : node * node) es :
  existsb (fun e' : node * node => node_eqb e'.1 e.1 && node_eqb e'.2 e.2) es = true
  <-> e ∈ es.
Proof.
  rewrite existsb_exists. split.
  - intros ([u v] & Hin & [H1 H2]%andb_true_iff). cbn in H1, H2.
    apply node_eqb_eq in H1, H2. destruct e as [u' v']. cbn in H1, H2. subst.
    by apply list_elem_of_In.
  - intros Hin. exists e. split; [by apply list_elem_of_In|].
    rewrite !node_eqb_refl. reflexivity.
Qed.

Lemma add_edge_spec H e :
  (NoDup (nodes H) -> NoDup (nodes (add_edge H e))) /\
  (NoDup (edges H) -> NoDup (edges (add_edge H e))) /\
  (forall x, x ∈ nodes (add_edge H e) <-> x ∈ nodes H \/ x = e.1 \/ x = e.2) /\
  (forall e', e' ∈ edges (add_edge H e) <-> e' ∈ edges H \/ e' = e).
Proof.
  unfold add_edge. cbn [nodes edges].
  destruct (add_node_spec (nodes H) e.1) as [N1 M1].
  destruct (add_node_spec (add_node (nodes H) e.1) e.2) as [N2 M2].
  split; [tauto|]. split; [|split].
  - intros Hnd. destruct (existsb _ _) eqn:E; [exact Hnd|].
    apply NoDup_app. split; [exact Hnd|]. split; [|apply NoDup_singleton].
    intros x Hx ->%list_elem_of_singleton.
    apply edge_in_spec in Hx. congruence.
  - intros x. rewrite M2, M1. tauto.
  - intros e'. destruct (existsb _ _) eqn:E.
    + apply edge_in_spec in E. split; [tauto|]. intros [?| ->]; assumption.
    + rewrite elem_of_app, list_elem_of_singleton. tauto.
Qed.

Lemma fold_add_edge es : forall H,
  (NoDup (nodes H) -> NoDup (nodes (fold_left add_edge es H))) /\
  (NoDup (edges H) -> NoDup (edges (fold_left add_edge es H))) /\
  (forall x, x ∈ nodes (fold_left add_edge es H) <->
     x ∈ nodes H \/ exists e, e ∈ es /\ (x = e.1 \/ x = e.2)) /\
  (forall e', e' ∈ edges (fold_left add_edge es H) <-> e' ∈ edges H \/ e' ∈ es).
Proof.
  induction es as [|e es IH]; intros H; cbn [fold_left].
  - split; [tauto|]. split; [tauto|]. split.
    + intros x. split; [tauto|]. intros [?|(e & He & _)]; [assumption|].
      by apply elem_of_nil in He.
    + intros e'. rewrite elem_of_nil. tauto.
  - destruct (IH (add_edge H e)) as (I1 & I2 & I3 & I4).
    destruct (add_edge_spec H e) as (A1 & A2 & A3 & A4).
    split; [tauto|]. split; [tauto|]. split.
    + intros x. rewrite I3, A3. split.
      * intros [[?|Hx]|(e0 & He0 & Hx)]; [by left| |].
        -- right. exists e. split; [left|exact Hx].
        -- right. exists e0. split; [by right|exact Hx].
      * intros [?|(e0 & [->|He0]%elem_of_cons & Hx)]; [tauto|tauto|].
        right. eauto.
    + intros e'. rewrite I4, A4, elem_of_cons. tauto.
Qed.

Lemma elem_of_out_edges G u v :
  (u, v) ∈ out_edges G <-> u ∈ nodes G /\ (u, v) ∈ edges G.
Proof.
  unfold out_edges. rewrite list_elem_of_bind. split.
  - intros (n & Hin & Hn). apply list_elem_of_fmap in Hin as (w & [= -> ->] & Hw).
    split; [exact Hn|]. by apply elem_of_successors.
  - intros [Hu He]. exists u. split; [|exact Hu].
    apply list_elem_of_fmap. exists v. split; [reflexivity|]. by apply elem_of_successors.
Qed.


(** The relabelled graph: its nodes and its edges are those of [G] under
    their new names, none twice. *)
Lemma relabel_nodes_spec G mapping :
  wf_DiGraph G ->
  NoDup (nodes (relabel_nodes G mapping)) /\
  NoDup (edges (relabel_nodes G mapping)) /\
  (forall x', x' ∈ nodes (relabel_nodes G mapping) <->
     exists x, x ∈ nodes G /\ x' = mapping_get mapping x) /\
  (forall u' v', (u', v') ∈ edges (relabel_nodes G mapping) <->
     exists u v, (u, v) ∈ edges G /\
       u' = mapping_get mapping u /\ v' = mapping_get mapping v).
Proof.
  intros [Hnd Hends]. unfold relabel_nodes. cbn zeta.
  match goal with |- context [fold_left add_edge ?es ?H] =>
    destruct (fold_add_edge es H) as (I1 & I2 & I3 & I4) end.
  cbn [nodes edges] in I1, I2, I3, I4.
  destruct (fold_add_node (mapping_get mapping <$> nodes G) []) as [F1 F2].
  split; [apply I1, F1, NoDup_nil_2|]. split; [apply I2, NoDup_nil_2|]. split.
  - intros x'. rewrite I3, F2, elem_of_nil, list_elem_of_fmap. split.
    + intros [[[]|(x & -> & Hx)]|(e & He & Hx)]; [eauto|].
      apply list_elem_of_fmap in He as ([u v] & -> & He). cbn in Hx.
      apply elem_of_out_edges in He as [_ He]. destruct (Hends u v He).
      destruct Hx as [->| ->]; eauto.
    + intros (x & Hx & ->). left. right. eauto.
  - intros u' v'. rewrite I4, elem_of_nil, list_elem_of_fmap. split.
    + intros [[]|([u v] & [= -> ->] & He)].
      apply elem_of_out_edges in He as [_ He]. eauto.
    + intros (u & v & He & -> & ->). right. exists (u, v). split; [reflexivity|].
      apply elem_of_out_edges. split; [|exact He]. by destruct (Hends u v He).
Qed.

(** ** A hierarchy under new names *)

Lemma NoDup_all_equal {A} (l : list A) (a : A) :
  NoDup l -> (forall x, x ∈ l <-> x = a) -> l = [a].
Proof.
  intros Hnd Hall. destruct l as [|x l].
  - exfalso. eapply elem_of_nil, Hall. reflexivity.
  - assert (x = a) as -> by (apply Hall; left).
    destruct l as [|y l]; [reflexivity|].
    apply NoDup_cons in Hnd as [Hnin _].
    assert (y = a) as -> by (apply Hall; right; left).
    exfalso. apply Hnin. left.
Qed.

Lemma list_no_elements {A} (l : list A) : (forall x, x ∉ l) -> l = [].
Proof. destruct l as [|x l]; [reflexivity|]. intros H. exfalso. apply (H x). left. Qed.

Lemma NoDup_predecessors G w : NoDup (edges G) -> NoDup (predecessors G w).
Proof.
  intros Hnd. unfold predecessors.
  apply NoDup_fmap_2_strong.
  - intros [u1 v1] [u2 v2] H1 H2 Heq. cbn in Heq. subst u2.
    apply list_elem_of_In, filter_In in H1 as [_ H1].
    apply list_elem_of_In, filter_In in H2 as [_ H2].
    cbn in H1, H2. apply node_eqb_eq in H1, H2. congruence.
  - apply NoDup_ListNoDup, List.NoDup_filter, NoDup_ListNoDup, Hnd.
Qed.

Section Renamed.

Variable ROOT : node.
Variables G G' : DiGraph.
Variable f : node -> node.
Hypothesis Hwf : wf_DiGraph G.
Hypothesis Hinj : forall x y, x ∈ nodes G -> y ∈ nodes G -> f x = f y -> x = y.
Hypothesis Hroot : forall x, x ∈ nodes G -> f x = ROOT -> x = ROOT.
Hypothesis Hfix : f ROOT = ROOT.
Hypothesis HndN : NoDup (nodes G').
Hypothesis HndE : NoDup (edges G').
Hypothesis Hnodes : forall x', x' ∈ nodes G' <-> exists x, x ∈ nodes G /\ x' = f x.
Hypothesis Hedges : forall u' v', (u', v') ∈ edges G' <->
  exists u v, (u, v) ∈ edges G /\ u' = f u /\ v' = f v.

Lemma renamed_wf : wf_DiGraph G'.
Proof.
  split; [exact HndN|]. intros u' v' (u & v & He & -> & ->)%Hedges.
  destruct Hwf as [_ Hends]. destruct (Hends u v He).
  split; apply Hnodes; eauto.
Qed.

Lemma renamed_predecessors v x' :
  v ∈ nodes G ->
  x' ∈ predecessors G' (f v) <-> exists u, u ∈ predecessors G v /\ x' = f u.
Proof.
  intros Hv. rewrite elem_of_predecessors, Hedges. destruct Hwf as [_ Hends]. split.
  - intros (u & w & He & -> & Heq). destruct (Hends u w He) as [_ Hw].
    apply Hinj in Heq; [|assumption..]. subst w.
    exists u. split; [by apply elem_of_predecessors | reflexivity].
  - intros (u & Hu & ->). apply elem_of_predecessors in Hu. eauto.
Qed.

Lemma renamed_tree : tree_hierarchy ROOT G -> tree_hierarchy ROOT G'.
Proof.
  intros [_ Htroot Htparent [depth Hdepth]]. destruct Hwf as [Hnd Hends]. split.
  - exact renamed_wf.
  - apply list_no_elements. intros x' Hx'.
    apply elem_of_predecessors, Hedges in Hx' as (u & v & He & -> & Heq).
    destruct (Hends u v He) as [_ Hv]. symmetry in Heq. apply Hroot in Heq; [|exact Hv].
    subst v. apply elem_of_predecessors in He. rewrite Htroot in He.
    by apply elem_of_nil in He.
  - intros v' (v & Hv & ->)%Hnodes Hne.
    assert (Hvr : v <> ROOT) by (intros ->; contradiction).
    destruct (Htparent v Hv Hvr) as [u Hu]. exists (f u).
    apply NoDup_all_equal; [by apply NoDup_predecessors|].
    intros x'. rewrite (renamed_predecessors v x' Hv), Hu. split.
    + intros (u0 & ->%list_elem_of_singleton & ->). reflexivity.
    + intros ->. exists u. split; [left | reflexivity].
  - exists (fun x' => match List.find (fun x => node_eqb (f x) x') (nodes G) with
                      | Some x => depth x
                      | None => 0
                      end).
    assert (Hfind : forall x, x ∈ nodes G ->
              List.find (fun y => node_eqb (f y) (f x)) (nodes G) = Some x).
    { intros x Hx. destruct (List.find _ (nodes G)) as [y|] eqn:E.
      - apply find_some in E as [Hy Heq]. apply list_elem_of_In in Hy.
        apply node_eqb_eq in Heq. f_equal. by apply Hinj.
      - exfalso. apply list_elem_of_In in Hx.
        pose proof (find_none _ _ E x Hx) as Hno. cbn in Hno.
        rewrite node_eqb_refl in Hno. discriminate. }
    intros u' v' (u & v & He & -> & ->)%Hedges.
    destruct (Hends u v He) as [Hu Hv]. rewrite (Hfind u Hu), (Hfind v Hv).
    by apply Hdepth.
Qed.

Lemma renamed_ancestor c t :
  c ∈ nodes G -> t ∈ nodes G ->
  ancestor_or_self G' (f c) (f t) <-> ancestor_or_self G c t.
Proof.
  intros Hc Ht. unfold ancestor_or_self. destruct Hwf as [_ Hends]. split.
  - intros Hrtc.
    assert (Hgen : forall x' y',
              rtc (fun u v => (u, v) ∈ edges G') x' y' ->
              forall x, x ∈ nodes G -> x' = f x ->
              exists y, y ∈ nodes G /\ y' = f y /\ rtc (fun u v => (u, v) ∈ edges G) x y).
    { induction 1 as [x'|x' z' y' Hstep _ IH]; intros x Hx ->.
      - exists x. split; [exact Hx|]. split; [reflexivity | apply rtc_refl].
      - apply Hedges in Hstep as (u & v & He & Heq & ->).
        destruct (Hends u v He) as [Hu Hv]. apply Hinj in Heq; [|assumption..]. subst u.
        destruct (IH v Hv eq_refl) as (y & Hy & -> & Hrest).
        exists y. split; [exact Hy|]. split; [reflexivity|].
        eapply rtc_l; [exact He | exact Hrest]. }
    destruct (Hgen _ _ Hrtc c Hc eq_refl) as (y & Hy & Heq & Hpath).
    apply Hinj in Heq; [|assumption..]. by subst y.
  - clear Hc Ht. induction 1 as [x|x z y Hstep _ IH]; [apply rtc_refl|].
    eapply rtc_l; [|exact IH]. apply Hedges. eauto.
Qed.

End Renamed.

(** ** The label matrix *)

Lemma transform_cell classes y i j :
  cell (transform classes y) i j =
    match y !! i with
    | Some labels =>
        if decide (j < length classes)
        then Some (if existsb (Nat.eqb j) (omap (class_index classes) labels)
                   then 1%Z else 0%Z)
        else None
    | None => None
    end.
Proof.
  unfold cell, transform. cbn [data]. rewrite list_lookup_fmap.
  destruct (y !! i) as [labels|]; cbn; [|reflexivity].
  rewrite list_lookup_fmap. destruct (decide (j < length classes)) as [Hlt|Hge].
  - rewrite lookup_seq_lt by exact Hlt. reflexivity.
  - rewrite lookup_seq_ge by lia. reflexivity.
Qed.

Lemma transform_one classes y i j :
  cell (transform classes y) i j = Some 1%Z <->
  exists labels l, y !! i = Some labels /\ l ∈ labels /\ class_index classes l = Some j.
Proof.
  rewrite transform_cell. split.
  - destruct (y !! i) as [labels|]; [|discriminate].
    destruct (decide _) as [Hlt|]; [|discriminate].
    destruct (existsb _ _) eqn:E; [|discriminate]. intros _.
    apply existsb_exists in E as (k & Hk & Heq). apply Nat.eqb_eq in Heq. subst k.
    apply list_elem_of_In, list_elem_of_omap in Hk as (l & Hl & Hidx).
    exists labels, l. auto.
  - intros (labels & l & -> & Hl & Hidx).
    destruct (class_index_Some _ _ _ Hidx) as (c & _ & Hc).
    apply lookup_lt_Some in Hc. rewrite decide_True by exact Hc.
    assert (E : existsb (Nat.eqb j) (omap (class_index classes) labels) = true).
    { apply existsb_exists. exists j. split; [|apply Nat.eqb_refl].
      apply list_elem_of_In, list_elem_of_omap. eauto. }
    rewrite E. reflexivity.
Qed.

Lemma transform_is_Some classes y i j labels :
  y !! i = Some labels -> j < length classes -> is_Some (cell (transform classes y) i j).
Proof.
  intros Hi Hj. rewrite transform_cell, Hi, decide_True by exact Hj. eauto.
Qed.

Lemma transform_positive classes y i j :
  positive (transform classes y) i j -> cell (transform classes y) i j = Some 1%Z.
Proof.
  intros (x & Hx & Hpos). rewrite Hx. rewrite transform_cell in Hx.
  destruct (y !! i); [|discriminate]. destruct (decide _); [|discriminate].
  destruct (existsb _ _); injection Hx as <-; [reflexivity | lia].
Qed.

(** ** Classes named by one character *)

Lemma chain_from_iterable_single y :
  (forall v, v ∈ y -> exists c, v = PyStr (String c EmptyString)) ->
  exists labels, chain_from_iterable y = Iterated labels /\
                 forall s, s ∈ labels <-> PyStr s ∈ y.
Proof.
  induction y as [|v y IH]; intros Hall.
  - exists []. split; [reflexivity|]. intros s. rewrite !elem_of_nil. tauto.
  - destruct (Hall v) as [c ->]; [left|].
    destruct IH as (labels & E & Hl); [intros w Hw; apply Hall; by right|].
    cbn. rewrite E. eexists. split; [reflexivity|].
    intros s. cbn. rewrite !elem_of_cons, Hl. split.
    + intros [->|?]; [by left | by right].
    + intros [[= ->]|?]; [by left | by right].
Qed.

#[global] Instance string_le_total : Total string_le.
Proof. intros a b. apply String.leb_total. Qed.

Lemma fit_single y :
  (forall v, v ∈ y -> exists c, v = PyStr (String c EmptyString)) ->
  exists classes, fit y = Iterated classes /\ NoDup classes /\
                  Sorted string_le classes /\
                  forall s, s ∈ classes <-> PyStr s ∈ y.
Proof.
  intros Hall. destruct (chain_from_iterable_single y Hall) as (labels & E & Hl).
  unfold fit. rewrite E. eexists. split; [reflexivity|]. split; [|split].
  - rewrite merge_sort_Permutation. apply NoDup_remove_dups.
  - apply Sorted_merge_sort, _.
  - intros s. rewrite merge_sort_Permutation, elem_of_remove_dups. apply Hl.
Qed.

Lemma elem_of_classes_nodes ROOT (ns : list node) v :
  v ∈ List.filter (fun n => negb (node_eqb n ROOT)) ns <-> v ∈ ns /\ v <> ROOT.
Proof.
  rewrite list_elem_of_In, filter_In, <- list_elem_of_In, negb_true_iff.
  split; intros [H1 H2]; (split; [exact H1|]).
  - intros ->. rewrite node_eqb_refl in H2. discriminate.
  - by apply node_eqb_neq.
Qed.

Section SingleCharacter.

Variable ROOT : node.
Variable G : DiGraph.
Variable classes : list string.
Hypothesis Hwf : wf_DiGraph G.
Hypothesis Hint : forall z, ROOT <> PyInt z.
Hypothesis Hnd : NoDup classes.
Hypothesis Hclasses : forall s, s ∈ classes <-> PyStr s ∈ nodes G /\ PyStr s <> ROOT.
Hypothesis Hnames : forall v, v ∈ nodes G -> v <> ROOT -> exists s, v = PyStr s.

Lemma new_label_class v :
  v ∈ nodes G -> v <> ROOT ->
  exists s i, v = PyStr s /\ classes !! i = Some s /\
              new_label classes v = PyInt (Z.of_nat i).
Proof.
  intros Hv Hne. destruct (Hnames v Hv Hne) as [s ->].
  assert (Hs : s ∈ classes) by (by apply Hclasses).
  apply list_elem_of_lookup in Hs as [i Hi].
  exists s, i. split; [reflexivity|]. split; [exact Hi|].
  unfold new_label. rewrite (class_index_lookup classes i s Hnd Hi). reflexivity.
Qed.

Lemma new_label_root : new_label classes ROOT = ROOT.
Proof.
  unfold new_label. destruct (class_index classes ROOT) as [i|] eqn:E; [|reflexivity].
  destruct (class_index_Some _ _ _ E) as (c & Hc & Hi).
  apply list_elem_of_lookup_2, Hclasses in Hi as [_ Hne]. congruence.
Qed.

Lemma new_label_inj x y :
  x ∈ nodes G -> y ∈ nodes G -> new_label classes x = new_label classes y -> x = y.
Proof.
  intros Hx Hy Heq.
  destruct (decide (x = ROOT)) as [->|Hxr], (decide (y = ROOT)) as [->|Hyr].
  - reflexivity.
  - rewrite new_label_root in Heq.
    destruct (new_label_class y Hy Hyr) as (s & i & _ & _ & E). rewrite E in Heq.
    exfalso. eapply Hint, Heq.
  - rewrite new_label_root in Heq.
    destruct (new_label_class x Hx Hxr) as (s & i & _ & _ & E). rewrite E in Heq.
    exfalso. eapply Hint. symmetry. exact Heq.
  - destruct (new_label_class x Hx Hxr) as (s & i & -> & Hi & E).
    destruct (new_label_class y Hy Hyr) as (s' & i' & -> & Hi' & E').
    rewrite E, E' in Heq. injection Heq as Heq. apply Nat2Z.inj in Heq. subst i'.
    congruence.
Qed.

Lemma new_label_not_root x :
  x ∈ nodes G -> new_label classes x = ROOT -> x = ROOT.
Proof.
  intros Hx Heq. destruct (decide (x = ROOT)) as [->|Hxr]; [reflexivity|].
  destruct (new_label_class x Hx Hxr) as (s & i & _ & _ & E). rewrite E in Heq.
  exfalso. eapply Hint. symmetry. exact Heq.
Qed.

End SingleCharacter.

(** ** Running the generator *)

Lemma multi_labeled_run ROOT y_true y_pred (graph : loc) (h : heap) G :
  h !! graph = Some (ODiGraph G) ->
  multi_labeled ROOT y_true y_pred graph h =
    match fit (List.filter (fun n => negb (node_eqb n ROOT)) (nodes G)) with
    | TypeError => (Ok TypeError, h)
    | Iterated classes =>
        (Ok (Iterated (length h, S (length h), S (S (length h)))),
         h ++ [ONdarray (transform classes y_true);
               ONdarray (transform classes y_pred);
               ODiGraph (relabel_nodes G
                           (imap (fun i c => (PyStr c, PyInt (Z.of_nat i))) classes))])
    end.
Proof.
  intros Hg. unfold multi_labeled, get_graph, bind, load. rewrite Hg. unfold ret at 1.
  destruct (fit _) as [classes|]; [|reflexivity].
  unfold alloc, ret. rewrite !length_app. cbn [length].
  rewrite !Nat.add_1_r, <- !(assoc_L (++)). reflexivity.
Qed.



(** ** The fill of an encoded sample *)

Lemma labelled_fill_closure ROOT G classes y (h : heap) (l g : loc) :
  tree_hierarchy ROOT G ->
  (forall z, ROOT <> PyInt z) ->
  NoDup classes ->
  (forall s, s ∈ classes <-> PyStr s ∈ nodes G /\ PyStr s <> ROOT) ->
  (forall v, v ∈ nodes G -> v <> ROOT -> exists s, v = PyStr s) ->
  h !! l = Some (ONdarray (transform classes y)) ->
  h !! g = Some (ODiGraph (relabel_nodes G
                   (imap (fun i c => (PyStr c, PyInt (Z.of_nat i))) classes))) ->
  exists a' h',
    fill_ancestors ROOT l g true h = (Ok (length h), h') /\
    h' !! length h = Some (ONdarray a') /\
    labels_closure ROOT G classes y a'.
Proof.
  intros Htree Hint Hnd Hclasses Hnames Hl Hg.
  pose proof (tree_wf _ _ Htree) as Hwf.
  set (mapping := imap (fun i c => (PyStr c, PyInt (Z.of_nat i))) classes) in *.
  set (G' := relabel_nodes G mapping) in *.
  set (a := transform classes y) in *.
  destruct (relabel_nodes_spec G mapping Hwf) as (HndN & HndE & Hnodes & Hedges).
  fold G' in HndN, HndE, Hnodes, Hedges.
  assert (Hf : forall x, mapping_get mapping x = new_label classes x).
  { intros x. apply mapping_get_new_label. }
  setoid_rewrite Hf in Hnodes. setoid_rewrite Hf in Hedges.
  pose proof (new_label_inj ROOT G classes Hint Hnd Hclasses Hnames) as Hinj.
  pose proof (new_label_not_root ROOT G classes Hint Hnd Hclasses Hnames) as Hroot.
  pose proof (new_label_root ROOT G classes Hclasses) as Hfix.
  pose proof (renamed_tree ROOT G G' (new_label classes) Hwf Hinj Hroot Hfix
                HndN HndE Hnodes Hedges Htree) as Htree'.
  assert (Hcover' : columns_cover ROOT G' a).
  { intros v' (v & Hv & ->)%Hnodes Hne.
    assert (Hvr : v <> ROOT) by (intros ->; contradiction).
    destruct (new_label_class ROOT G classes Hnd Hclasses Hnames v Hv Hvr)
      as (s & i & _ & Hi & ->).
    exists i. split; [reflexivity|]. cbn. eapply lookup_lt_Some, Hi. }
  destruct (filled_tree ROOT G' a Htree' Hcover') as (a' & E & Hm & Hcells).
  destruct (fill_ancestors_copy_run ROOT h l g a G' Hl Hg) as [junk Hrun].
  rewrite E in Hrun. cbn [fst snd] in Hrun.
  exists a'. eexists. split; [exact Hrun|].
  split; [apply list_lookup_middle; reflexivity|].
  split; [rewrite (marks_only_n_classes _ _ Hm); reflexivity|].
  split; [rewrite (marks_only_length _ _ Hm); cbn; apply length_fmap|].
  intros i j labels c Hi Hj.
  pose proof (lookup_lt_Some _ _ _ Hj) as Hjlt.
  pose proof (transform_is_Some classes y i j labels Hi Hjlt) as HSome. fold a in HSome.
  assert (Hcj : PyStr c ∈ nodes G /\ PyStr c <> ROOT).
  { apply Hclasses. eapply list_elem_of_lookup_2, Hj. }
  assert (Hfc : new_label classes (PyStr c) = PyInt (Z.of_nat j)).
  { unfold new_label. rewrite (class_index_lookup classes j c Hnd Hj). reflexivity. }
  split.
  { destruct Hm as (_ & _ & Hm). destruct (Hm i j) as [->|[_ ->]]; [|by left].
    subst a. rewrite transform_cell, Hi, decide_True by exact Hjlt.
    destruct (existsb _ _); [by left | by right]. }
  rewrite Hcells. split.
  - intros [Hone|(_ & _ & t & Ht & Htr & Hpos & Hanc)].
    + apply transform_one in Hone as (labels' & l0 & Hi' & Hl0 & Hidx).
      rewrite Hi in Hi'. injection Hi' as <-.
      destruct (class_index_Some _ _ _ Hidx) as (c' & -> & Hc').
      assert (c' = c) as -> by congruence.
      exists (PyStr c). split; [exact Hl0|]. split; [apply Hcj|]. split; [apply Hcj|].
      apply rtc_refl.
    + apply transform_positive, transform_one in Hpos as (labels' & l0 & Hi' & Hl0 & Hidx).
      rewrite Hi in Hi'. injection Hi' as <-.
      destruct (class_index_Some _ _ _ Hidx) as (ct & -> & Hct).
      assert (Hctn : PyStr ct ∈ nodes G /\ PyStr ct <> ROOT).
      { apply Hclasses. eapply list_elem_of_lookup_2, Hct. }
      exists (PyStr ct). split; [exact Hl0|]. split; [apply Hctn|]. split; [apply Hctn|].
      apply (renamed_ancestor G G' (new_label classes) Hwf Hinj Hedges);
        [apply Hcj | apply Hctn |].
      rewrite Hfc. unfold new_label at 1. rewrite Hidx. exact Hanc.
  - intros (l0 & Hl0 & Hnode & Hne & Hanc).
    destruct (new_label_class ROOT G classes Hnd Hclasses Hnames l0 Hnode Hne)
      as (s & t & -> & Ht & Hft).
    assert (Hidx : class_index classes (PyStr s) = Some t).
    { by apply class_index_lookup. }
    assert (Hone : cell a i t = Some 1%Z).
    { apply transform_one. eauto. }
    right. split; [exact HSome|]. split; [intros Heq; eapply Hint; symmetry; exact Heq|].
    exists t. split; [|split; [|split]].
    + apply Hnodes. exists (PyStr s). split; [exact Hnode | by rewrite Hft].
    + intros Heq. eapply Hint. symmetry. exact Heq.
    + exists 1%Z. split; [exact Hone | lia].
    + rewrite <- Hfc, <- Hft.
      apply (renamed_ancestor G G' (new_label classes) Hwf Hinj Hedges);
        [apply Hcj | exact Hnode | exact Hanc].
Qed.

(** ** The test inputs with class names *)

Lemma chain_ba_tree : tree_hierarchy (PyStr "<ROOT>") (chain_ba (PyStr "<ROOT>")).
Proof.
  split.
  - split.
    + cbn. rewrite !NoDup_cons, !elem_of_cons, !elem_of_nil.
      repeat split; try apply NoDup_nil_2; intuition congruence.
    + intros u v. cbn. rewrite !elem_of_cons, elem_of_nil.
      intros [[= -> ->]|[[= -> ->]|[]]]; tauto.
  - reflexivity.
  - intros v. cbn. rewrite !elem_of_cons, elem_of_nil.
    intros [->|[->|[->|[]]]] Hne; [congruence| |].
    + exists (PyStr "<ROOT>"). reflexivity.
    + exists (PyStr "b"). reflexivity.
  - exists (fun v => if node_eqb v (PyStr "b") then 1
                     else if node_eqb v (PyStr "a") then 2 else 0).
    intros u v. cbn. rewrite !elem_of_cons, elem_of_nil.
    intros [[= -> ->]|[[= -> ->]|[]]]; cbn; lia.
Qed.

(** * The properties *)

(** C1, on a hierarchy that is not a tree.  In [shortcut_dag] class 2 is
    a child of class 1 and of the root, and class 0 is an ancestor of
    class 2 (0 -> 1 -> 2); every class has a column.  For one sample
    labelled [{2}] the filled row should be [1; 1; 1].  When [ROOT] is a
    string the call raises [IndexError] (the root is among the columns
    to mark and is no column); when [ROOT] is the integer -1 the call
    returns the row [0; 1; 1]: the ancestor 0 is not marked, and the
    mark meant for the root falls on the last column. *)
Theorem fill_ancestors_shortcut_dag :
  (forall s, (fill_ancestors (PyStr s) 0 1 true (shortcut_heap (PyStr s))).1
             = Raise IndexError) /\
  (exists h', fill_ancestors (PyInt (-1)) 0 1 true (shortcut_heap (PyInt (-1)))
              = (Ok 2, h') /\
              h' !! 2 = Some (ONdarray {| n_classes := 3; data := [[0; 1; 1]]%Z |})).
Proof.
  split.
  - intros s.
    rewrite (fill_ancestors_run (PyStr s) true (shortcut_heap (PyStr s)) 0 1
               only_2 (shortcut_dag (PyStr s)) eq_refl eq_refl).
    rewrite (shortcut_dag_filled_str s). reflexivity.
  - eexists. split; reflexivity.
Qed.

(** C2, on the same hierarchy, whatever [ROOT] is.  The search from
    class 2 on the reversed graph finds class 1 and the root at distance
    1 and class 0 at distance 2: the node at the largest distance, the
    last key of the dictionary in any order of the levels, is class 0, a
    true ancestor of 2, and not the root.  The list [ancestors] that the
    loop marks is then [2; 1; ROOT]: it holds the root and lacks class 0. *)
Theorem shortcut_dag_last_is_not_root (ROOT : node) :
  ROOT <> PyInt 0 -> ROOT <> PyInt 1 -> ROOT <> PyInt 2 ->
  single_source_shortest_path_length (reversed (shortcut_dag ROOT)) (PyInt 2)
    = [(PyInt 2, 0); (PyInt 1, 1); (ROOT, 1); (PyInt 0, 2)] /\
  removelast (keys (single_source_shortest_path_length
                      (reversed (shortcut_dag ROOT)) (PyInt 2)))
    = [PyInt 2; PyInt 1; ROOT].
Proof.
  intros H0 H1 H2.
  assert (E : single_source_shortest_path_length (reversed (shortcut_dag ROOT)) (PyInt 2)
              = [(PyInt 2, 0); (PyInt 1, 1); (ROOT, 1); (PyInt 0, 2)]).
  { unfold shortcut_dag, single_source_shortest_path_length.
    run_search. reflexivity. }
  rewrite E. split; reflexivity.
Qed.

Lemma shortcut_dag_last_is_not_root_witness :
  removelast (keys (single_source_shortest_path_length
                      (reversed (shortcut_dag (PyStr "<ROOT>"))) (PyInt 2)))
    = [PyInt 2; PyInt 1; PyStr "<ROOT>"].
Proof.
  apply (shortcut_dag_last_is_not_root (PyStr "<ROOT>")); discriminate.
Defined.

(** C3. A call of [fill_ancestors] leaves the hierarchy graph as it was:
    after the call, whether it returned or raised and whatever [copy] is,
    the graph object holds the same nodes and the same directed edges as
    before.  The reversed graph the search runs on is a view, not a
    change of the graph. *)
Theorem fill_ancestors_leaves_graph (ROOT : node) (copy : bool) (h : heap)
    (y graph : loc) (a : ndarray) (G : DiGraph) :
  h !! y = Some (ONdarray a) ->
  h !! graph = Some (ODiGraph G) ->
  (fill_ancestors ROOT y graph copy h).2 !! graph = Some (ODiGraph G).
Proof.
  intros Hy Hg.
  apply (fill_ancestors_frame ROOT copy h y graph a G); try assumption.
  destruct copy.
  - pose proof (lookup_lt_Some _ _ _ Hg). lia.
  - intros ->. congruence.
Qed.

Lemma fill_ancestors_leaves_graph_witness :
  (fill_ancestors (PyStr "<ROOT>") 0 2 false
     (chain_heap (PyStr "<ROOT>") only_B only_A)).2 !! 2
  = Some (ODiGraph (chain_AB (PyStr "<ROOT>"))).
Proof.
  apply (fill_ancestors_leaves_graph (PyStr "<ROOT>") false
           (chain_heap (PyStr "<ROOT>") only_B only_A) 0 2 only_B
           (chain_AB (PyStr "<ROOT>")));
    reflexivity.
Defined.

(** C4. When [fill_ancestors] returns: with [copy=True] the result is an
    array that was not in the heap before, and every object of the heap,
    the input matrix among them, is as it was; with [copy=False] the
    result is the input array itself, which now holds the filled matrix,
    and every other object is as it was. *)
Theorem fill_ancestors_copy_flag (ROOT : node) (copy : bool) (h h' : heap)
    (y graph l : loc) (a : ndarray) (G : DiGraph) :
  h !! y = Some (ONdarray a) ->
  h !! graph = Some (ODiGraph G) ->
  fill_ancestors ROOT y graph copy h = (Ok l, h') ->
  h' !! l = Some (ONdarray (filled ROOT copy a G).2) /\
  (copy = true ->
     h !! l = None /\ forall k o, h !! k = Some o -> h' !! k = Some o) /\
  (copy = false ->
     l = y /\ forall k o, k <> y -> h !! k = Some o -> h' !! k = Some o).
Proof.
  intros Hy Hg Hrun.
  destruct (fill_ancestors_returns ROOT copy h y graph a G l h' Hy Hg Hrun)
    as (_ & Hl & Hres).
  split; [exact Hres|].
  assert (Hframe : forall k o, h !! k = Some o -> k <> l -> h' !! k = Some o).
  { intros k o Hk Hne.
    pose proof (fill_ancestors_frame ROOT copy h y graph a G k o Hy Hg Hk) as F.
    rewrite Hrun in F. apply F. congruence. }
  split; intros ->.
  - split.
    + subst l. apply lookup_ge_None. lia.
    + intros k o Hk. apply Hframe; [exact Hk|].
      pose proof (lookup_lt_Some _ _ _ Hk). lia.
  - split; [exact Hl|]. intros k o Hne Hk. apply Hframe; congruence.
Qed.

Lemma fill_ancestors_copy_flag_witness :
  exists l h',
    fill_ancestors (PyStr "<ROOT>") 0 2 false
      (chain_heap (PyStr "<ROOT>") only_B only_A) = (Ok l, h') /\
    l = 0 /\
    h' !! 0 = Some (ONdarray {| n_classes := 2; data := [[1; 1]]%Z |}) /\
    h' !! 1 = Some (ONdarray only_A).
Proof.
  eexists _, _. split; [vm_compute; reflexivity|].
  destruct (fill_ancestors_copy_flag (PyStr "<ROOT>") false
              (chain_heap (PyStr "<ROOT>") only_B only_A) _ 0 2 _ only_B
              (chain_AB (PyStr "<ROOT>")) eq_refl eq_refl eq_refl)
    as (Hres & _ & Hfalse).
  destruct (Hfalse eq_refl) as [Hl Hother].
  split; [exact Hl|]. split; [exact Hres|].
  apply Hother; [lia | reflexivity].
Defined.

(** C5, on the same hierarchy and sample.  With [ROOT] the integer -1
    the first fill returns the row [0; 1; 1], and filling that row again
    returns [1; 1; 1]: the second fill changes the matrix.  With [ROOT]
    a string the first fill does not return, so there is no filled
    matrix to fill again. *)
Theorem fill_ancestors_twice_shortcut_dag :
  (exists h1 l2 h2,
     fill_ancestors (PyInt (-1)) 0 1 true (shortcut_heap (PyInt (-1))) = (Ok 2, h1) /\
     h1 !! 2 = Some (ONdarray {| n_classes := 3; data := [[0; 1; 1]]%Z |}) /\
     fill_ancestors (PyInt (-1)) 2 1 true h1 = (Ok l2, h2) /\
     h2 !! l2 = Some (ONdarray {| n_classes := 3; data := [[1; 1; 1]]%Z |})) /\
  (forall s l,
     (fill_ancestors (PyStr s) 0 1 true (shortcut_heap (PyStr s))).1 <> Ok l).
Proof.
  split.
  - eexists _, _, _. repeat split; reflexivity.
  - intros s l.
    rewrite (fill_ancestors_run (PyStr s) true (shortcut_heap (PyStr s)) 0 1
               only_2 (shortcut_dag (PyStr s)) eq_refl eq_refl).
    rewrite (shortcut_dag_filled_str s). discriminate.
Qed.

(** C6. Filling only adds positives: when [fill_ancestors] returns on a
    matrix of 0-1, the result has the shape of the input and every entry
    of the result is at least the entry of the input at the same
    position; in particular an entry that was 1 is still 1. *)
Theorem fill_ancestors_monotone (ROOT : node) (copy : bool) (h h' : heap)
    (y graph l : loc) (a : ndarray) (G : DiGraph) :
  h !! y = Some (ONdarray a) ->
  h !! graph = Some (ODiGraph G) ->
  is_binary a = true ->
  fill_ancestors ROOT y graph copy h = (Ok l, h') ->
  exists a',
    h' !! l = Some (ONdarray a') /\
    n_classes a' = n_classes a /\
    length (data a') = length (data a) /\
    forall i j v, cell a i j = Some v ->
      exists v', cell a' i j = Some v' /\ (v <= v')%Z /\ (v = 1%Z -> v' = 1%Z).
Proof.
  intros Hy Hg Hb Hrun.
  destruct (fill_ancestors_returns ROOT copy h y graph a G l h' Hy Hg Hrun)
    as (_ & _ & Hres).
  exists (filled ROOT copy a G).2. split; [exact Hres|].
  pose proof (fill_loop_marks_only ROOT copy a (ancestor_paths G) a) as Hm.
  fold (filled ROOT copy a G) in Hm.
  split; [apply Hm|]. split; [apply Hm|].
  apply marks_only_binary; assumption.
Qed.

Lemma fill_ancestors_monotone_witness :
  exists a',
    (fill_ancestors (PyStr "<ROOT>") 0 2 true
       (chain_heap (PyStr "<ROOT>") only_B only_A)).2 !! 3 = Some (ONdarray a') /\
    n_classes a' = 2 /\
    length (data a') = 1 /\
    forall i j v, cell only_B i j = Some v ->
      exists v', cell a' i j = Some v' /\ (v <= v')%Z /\ (v = 1%Z -> v' = 1%Z).
Proof.
  apply (fill_ancestors_monotone (PyStr "<ROOT>") true
           (chain_heap (PyStr "<ROOT>") only_B only_A) _ 0 2 3 only_B
           (chain_AB (PyStr "<ROOT>")));
    reflexivity.
Defined.

(** C7. The three scores do not guard their divisions.  For two label
    matrices of one shape whose fills return: when the filled predicted
    matrix has no nonzero entry, [h_precision_score] raises
    [ZeroDivisionError]; when the filled true matrix has none,
    [h_recall_score] raises it; when precision and recall return [hP] and
    [hR] with [beta^2 * hP + hR] zero, [h_fbeta_score] raises it; and an
    exception of either score is the outcome of [h_fbeta_score].  No
    default value is returned in any of these cases. *)
Theorem zero_denominator_raises (ROOT : node) (h : heap) (y_true y_pred g : loc)
    (A B t p : ndarray) (G : DiGraph) (beta : Q) :
  h !! y_true = Some (ONdarray A) ->
  h !! y_pred = Some (ONdarray B) ->
  h !! g = Some (ODiGraph G) ->
  n_classes A = n_classes B ->
  length (data A) = length (data B) ->
  filled_pair ROOT A B G = Ok (t, p) ->
  (count_nonzero p = 0 ->
     (h_precision_score ROOT y_true y_pred g h).1 = Raise ZeroDivisionError) /\
  (count_nonzero t = 0 ->
     (h_recall_score ROOT y_true y_pred g h).1 = Raise ZeroDivisionError) /\
  (forall hP hR,
     (h_precision_score ROOT y_true y_pred g h).1 = Ok hP ->
     (h_recall_score ROOT y_true y_pred g h).1 = Ok hR ->
     (beta ^ 2 * hP + hR == 0)%Q ->
     (h_fbeta_score ROOT y_true y_pred g beta h).1 = Raise ZeroDivisionError) /\
  (forall e,
     (h_precision_score ROOT y_true y_pred g h).1 = Raise e \/
     (exists hP, (h_precision_score ROOT y_true y_pred g h).1 = Ok hP /\
                 (h_recall_score ROOT y_true y_pred g h).1 = Raise e) ->
     (h_fbeta_score ROOT y_true y_pred g beta h).1 = Raise e).
Proof.
  intros Ht Hp Hg Hcols Hrows Hpair.
  destruct (h_precision_score_run ROOT h y_true y_pred g A B G Ht Hp Hg) as [j1 E1].
  destruct (h_recall_score_run ROOT h y_true y_pred g A B G Ht Hp Hg) as [j2 E2].
  destruct (h_fbeta_score_run ROOT h y_true y_pred g A B G beta Ht Hp Hg) as [j3 E3].
  rewrite E1, E2, E3. cbn [fst]. clear E1 E2 E3.
  destruct (filled_pair_shapes ROOT A B G t p Hpair) as [(Hn1 & Hl1 & _) (Hn2 & Hl2 & _)].
  assert (Hmask : exists mask, both_nonzero t p = Ok mask).
  { unfold both_nonzero.
    replace (length (data p)) with (length (data t)) by congruence.
    replace (n_classes p) with (n_classes t) by congruence.
    rewrite !broadcast_dim_same. cbn. eauto. }
  destruct Hmask as [mask Hmask].
  rewrite Hpair. cbn [result_bind]. unfold precision_of, recall_of. cbn [fst snd].
  rewrite Hmask. cbn [result_bind].
  repeat split.
  - intros ->. reflexivity.
  - intros ->. reflexivity.
  - intros hP hR -> -> Hz. cbn [result_bind]. unfold fbeta_of, float_truediv.
    apply Qeq_bool_iff in Hz. rewrite Hz. reflexivity.
  - intros e [->|[hP [-> ->]]]; reflexivity.
Qed.

Lemma zero_denominator_raises_witness :
  (h_precision_score (PyStr "<ROOT>") 0 1 2
     (chain_heap (PyStr "<ROOT>") only_B nothing)).1 = Raise ZeroDivisionError /\
  (h_recall_score (PyStr "<ROOT>") 0 1 2
     (chain_heap (PyStr "<ROOT>") nothing only_A)).1 = Raise ZeroDivisionError /\
  (h_fbeta_score (PyStr "<ROOT>") 0 1 2 1
     (fork_heap (PyStr "<ROOT>"))).1 = Raise ZeroDivisionError.
Proof.
  split; [|split].
  - destruct (zero_denominator_raises (PyStr "<ROOT>")
                (chain_heap (PyStr "<ROOT>") only_B nothing) 0 1 2 only_B nothing
                {| n_classes := 2; data := [[1; 1]]%Z |} nothing
                (chain_AB (PyStr "<ROOT>")) 1
                eq_refl eq_refl eq_refl eq_refl eq_refl eq_refl) as (HP & _).
    apply HP. reflexivity.
  - destruct (zero_denominator_raises (PyStr "<ROOT>")
                (chain_heap (PyStr "<ROOT>") nothing only_A) 0 1 2 nothing only_A
                nothing only_A (chain_AB (PyStr "<ROOT>")) 1
                eq_refl eq_refl eq_refl eq_refl eq_refl eq_refl) as (_ & HR & _).
    apply HR. reflexivity.
  - destruct (zero_denominator_raises (PyStr "<ROOT>")
                (fork_heap (PyStr "<ROOT>")) 0 1 2
                {| n_classes := 3; data := [[0; 1; 0]]%Z |}
                {| n_classes := 3; data := [[0; 0; 1]]%Z |}
                {| n_classes := 3; data := [[1; 1; 0]]%Z |}
                {| n_classes := 3; data := [[0; 0; 1]]%Z |}
                (fork_ABC (PyStr "<ROOT>")) 1
                eq_refl eq_refl eq_refl eq_refl eq_refl eq_refl) as (_ & _ & HF & _).
    apply (HF 0%Q (0 # 2)%Q); reflexivity.
Defined.

(** C8. The ancestor-credit case: hierarchy [Root -> A -> B], one sample
    with true label [{B}] and predicted label [{A}].  The filled true row
    is [{A, B}], the filled predicted row is [{A}], precision is 1, recall
    is 1/2 and the F-score with [beta = 1] is [2 * 1 * (1/2) / (1 + 1/2)],
    which is 2/3.  This holds whatever value [ROOT] has, as long as it is
    neither of the two class ids. *)
Theorem ancestor_credit_case (ROOT : node) :
  ROOT <> PyInt 0 -> ROOT <> PyInt 1 ->
  (exists h', fill_ancestors ROOT 0 2 true (chain_heap ROOT only_B only_A) = (Ok 3, h') /\
              h' !! 3 = Some (ONdarray {| n_classes := 2; data := [[1; 1]]%Z |})) /\
  (exists h', fill_ancestors ROOT 1 2 true (chain_heap ROOT only_B only_A) = (Ok 3, h') /\
              h' !! 3 = Some (ONdarray {| n_classes := 2; data := [[1; 0]]%Z |})) /\
  (h_precision_score ROOT 0 1 2 (chain_heap ROOT only_B only_A)).1 = Ok 1%Q /\
  (h_recall_score ROOT 0 1 2 (chain_heap ROOT only_B only_A)).1 = Ok (1 # 2)%Q /\
  (exists f, (h_fbeta_score ROOT 0 1 2 1 (chain_heap ROOT only_B only_A)).1 = Ok f /\
             (f == 2 * 1 * (1 # 2) / (1 + (1 # 2)))%Q /\ (f == 2 # 3)%Q).
Proof.
  intros H0 H1.
  destruct (chain_AB_filled ROOT H0 H1) as (FB & FA & _).
  assert (Hpair : filled_pair ROOT only_B only_A (chain_AB ROOT)
                  = Ok ({| n_classes := 2; data := [[1; 1]]%Z |}, only_A)).
  { unfold filled_pair. rewrite FB, FA. reflexivity. }
  split; [|split; [|split; [|split]]].
  - eexists. split.
    + rewrite (fill_ancestors_run ROOT true (chain_heap ROOT only_B only_A) 0 2
                 only_B (chain_AB ROOT) eq_refl eq_refl).
      rewrite FB. reflexivity.
    + reflexivity.
  - eexists. split.
    + rewrite (fill_ancestors_run ROOT true (chain_heap ROOT only_B only_A) 1 2
                 only_A (chain_AB ROOT) eq_refl eq_refl).
      rewrite FA. reflexivity.
    + reflexivity.
  - destruct (h_precision_score_run ROOT (chain_heap ROOT only_B only_A) 0 1 2
                only_B only_A (chain_AB ROOT) eq_refl eq_refl eq_refl) as [j ->].
    cbn [fst]. rewrite Hpair. reflexivity.
  - destruct (h_recall_score_run ROOT (chain_heap ROOT only_B only_A) 0 1 2
                only_B only_A (chain_AB ROOT) eq_refl eq_refl eq_refl) as [j ->].
    cbn [fst]. rewrite Hpair. reflexivity.
  - destruct (h_fbeta_score_run ROOT (chain_heap ROOT only_B only_A) 0 1 2
                only_B only_A (chain_AB ROOT) 1 eq_refl eq_refl eq_refl) as [j ->].
    cbn [fst]. rewrite Hpair. eexists. split; [reflexivity|].
    split; reflexivity.
Qed.

Lemma ancestor_credit_case_witness :
  (h_precision_score (PyStr "<ROOT>") 0 1 2
     (chain_heap (PyStr "<ROOT>") only_B only_A)).1 = Ok 1%Q /\
  (h_recall_score (PyStr "<ROOT>") 0 1 2
     (chain_heap (PyStr "<ROOT>") only_B only_A)).1 = Ok (1 # 2)%Q.
Proof.
  destruct (ancestor_credit_case (PyStr "<ROOT>")) as (_ & _ & HP & HR & _);
    [discriminate | discriminate |].
  split; [exact HP | exact HR].
Defined.

(** C9. [h_fbeta_score] is the quotient of [(1 + beta^2) * hP * hR] by
    [beta^2 * hP + hR], where [hP] and [hR] are what [h_precision_score]
    and [h_recall_score] return on the same arguments, each computed by
    its own call; with [beta = 1] the quotient is [2 * hP * hR / (hP + hR)]. *)
Theorem h_fbeta_score_formula (ROOT : node) (h : heap) (y_true y_pred g : loc)
    (A B : ndarray) (G : DiGraph) (beta hP hR : Q) :
  h !! y_true = Some (ONdarray A) ->
  h !! y_pred = Some (ONdarray B) ->
  h !! g = Some (ODiGraph G) ->
  (h_precision_score ROOT y_true y_pred g h).1 = Ok hP ->
  (h_recall_score ROOT y_true y_pred g h).1 = Ok hR ->
  (h_fbeta_score ROOT y_true y_pred g beta h).1 = fbeta_of beta hP hR /\
  (~ (beta ^ 2 * hP + hR == 0)%Q ->
     fbeta_of beta hP hR = Ok ((1 + beta ^ 2) * hP * hR / (beta ^ 2 * hP + hR))%Q) /\
  ((1 + 1 ^ 2) * hP * hR / (1 ^ 2 * hP + hR) == 2 * hP * hR / (hP + hR))%Q.
Proof.
  intros Ht Hp Hg HP HR.
  destruct (h_precision_score_run ROOT h y_true y_pred g A B G Ht Hp Hg) as [j1 E1].
  destruct (h_recall_score_run ROOT h y_true y_pred g A B G Ht Hp Hg) as [j2 E2].
  destruct (h_fbeta_score_run ROOT h y_true y_pred g A B G beta Ht Hp Hg) as [j3 E3].
  rewrite E1 in HP. rewrite E2 in HR. rewrite E3. cbn [fst] in *.
  rewrite HP, HR. cbn [result_bind].
  split; [reflexivity|]. split.
  - intros Hnz. unfold fbeta_of, float_truediv.
    destruct (Qeq_bool _ 0) eqn:E; [|reflexivity].
    apply Qeq_bool_eq in E. contradiction.
  - assert (E : (1 ^ 2 == 1)%Q) by reflexivity.
    assert (E' : (1 + 1 ^ 2 == 2)%Q) by reflexivity.
    rewrite E', E, Qmult_1_l. reflexivity.
Qed.

Lemma h_fbeta_score_formula_witness :
  (h_fbeta_score (PyStr "<ROOT>") 0 1 2 1
     (chain_heap (PyStr "<ROOT>") only_B only_A)).1
    = fbeta_of 1 1 (1 # 2) /\
  fbeta_of 1 1 (1 # 2) = Ok ((1 + 1 ^ 2) * 1 * (1 # 2) / (1 ^ 2 * 1 + (1 # 2)))%Q.
Proof.
  destruct (h_fbeta_score_formula (PyStr "<ROOT>")
              (chain_heap (PyStr "<ROOT>") only_B only_A) 0 1 2 only_B only_A
              (chain_AB (PyStr "<ROOT>")) 1 1 (1 # 2)
              eq_refl eq_refl eq_refl eq_refl eq_refl) as (H1 & H2 & _).
  split; [exact H1|]. apply H2. discriminate.
Defined.

(** C10. Swapping the two matrices turns precision into recall: for two
    arrays and a graph in the heap, [h_precision_score(a, b, g)] and
    [h_recall_score(b, a, g)] have the same outcome, the same number when
    they return and the same exception when they raise. *)
Theorem precision_recall_swap (ROOT : node) (h : heap) (a b g : loc)
    (A B : ndarray) (G : DiGraph) :
  h !! a = Some (ONdarray A) ->
  h !! b = Some (ONdarray B) ->
  h !! g = Some (ODiGraph G) ->
  (h_precision_score ROOT a b g h).1 = (h_recall_score ROOT b a g h).1.
Proof.
  intros Ha Hb Hg.
  destruct (h_precision_score_run ROOT h a b g A B G Ha Hb Hg) as [j1 ->].
  destruct (h_recall_score_run ROOT h b a g B A G Hb Ha Hg) as [j2 ->].
  cbn [fst]. rewrite (filled_pair_swap ROOT A B G).
  destruct (filled_pair ROOT A B G) as [[t p]|e]; cbn; [|reflexivity].
  unfold precision_of, recall_of. cbn [fst snd].
  rewrite (both_nonzero_comm p t). reflexivity.
Qed.

Lemma precision_recall_swap_witness :
  (h_precision_score (PyStr "<ROOT>") 0 1 2
     (chain_heap (PyStr "<ROOT>") only_B only_A)).1 = Ok 1%Q /\
  (h_recall_score (PyStr "<ROOT>") 1 0 2
     (chain_heap (PyStr "<ROOT>") only_B only_A)).1 = Ok 1%Q.
Proof.
  split; [reflexivity|].
  rewrite <- (precision_recall_swap (PyStr "<ROOT>")
                (chain_heap (PyStr "<ROOT>") only_B only_A) 0 1 2 only_B only_A
                (chain_AB (PyStr "<ROOT>")) eq_refl eq_refl eq_refl).
  reflexivity.
Defined.

(** * Further properties *)

(** X1. On a tree hierarchy the comment of [fill_ancestors] is right.  For a
    class [target] of the graph, the dictionary of the search on the
    reversed graph lists the path from [target] to the root with the
    distances 0, 1, 2, ...: the root is the last key and the only node at
    the largest distance, the keys without the last are the class and
    its ancestors, the root not among them. *)
Theorem tree_search_strips_root (ROOT : node) (G : DiGraph) (target : node) :
  tree_hierarchy ROOT G ->
  target ∈ nodes G ->
  target <> ROOT ->
  exists ancestors,
    single_source_shortest_path_length (reversed G) target
      = with_distances 0 (ancestors ++ [ROOT]) /\
    removelast (keys (single_source_shortest_path_length (reversed G) target))
      = ancestors /\
    (ROOT ∉ ancestors) /\
    forall c, c ∈ ancestors <-> c <> ROOT /\ ancestor_or_self G c target.
Proof.
  intros Htree Hin Hne.
  destruct (path_exists ROOT G Htree target Hin) as [l Hpath].
  destruct (path_strip ROOT G Htree target l Hpath Hne) as (anc & Hl & Hstrip & _ & Hroot).
  exists anc. rewrite (tree_search ROOT G Htree target l Hin Hpath), keys_with_distances.
  split; [congruence|]. split; [exact Hstrip|]. split; [exact Hroot|].
  intros c. rewrite <- (path_ancestors ROOT G Htree target l Hpath), Hl, elem_of_app,
    list_elem_of_singleton.
  split.
  - intros Hc. split; [|by left]. intros ->. contradiction.
  - intros [Hc [?|?]]; [assumption | contradiction].
Qed.

Lemma tree_search_strips_root_witness :
  exists ancestors,
    removelast (keys (single_source_shortest_path_length
                        (reversed (chain_AB (PyStr "<ROOT>"))) (PyInt 1)))
      = ancestors /\
    (PyStr "<ROOT>" ∉ ancestors).
Proof.
  destruct (tree_search_strips_root (PyStr "<ROOT>") (chain_AB (PyStr "<ROOT>")) (PyInt 1))
    as (anc & _ & H1 & H2 & _).
  - apply chain_AB_tree; discriminate.
  - cbn. rewrite !elem_of_cons. tauto.
  - discriminate.
  - exists anc. split; assumption.
Defined.

(** X2. On a tree hierarchy whose classes are columns of the matrix,
    [fill_ancestors] computes the ancestor closure of a matrix of 0-1:
    it returns a new matrix of the same shape, in which a cell is 1
    exactly when it was 1 in the input or the row has a 1 in a class of
    the graph that has the cell's column among its ancestors; the root
    is no such column. *)
Theorem fill_ancestors_tree_closure (ROOT : node) (h : heap) (y graph : loc)
    (a : ndarray) (G : DiGraph) :
  h !! y = Some (ONdarray a) ->
  h !! graph = Some (ODiGraph G) ->
  tree_hierarchy ROOT G ->
  columns_cover ROOT G a ->
  is_binary a = true ->
  exists a' h',
    fill_ancestors ROOT y graph true h = (Ok (length h), h') /\
    h' !! length h = Some (ONdarray a') /\
    marks_only a a' /\
    forall i j,
      cell a' i j = Some 1%Z <->
      cell a i j = Some 1%Z \/
      (is_Some (cell a i j) /\ PyInt (Z.of_nat j) <> ROOT /\
       exists t, PyInt (Z.of_nat t) ∈ nodes G /\ PyInt (Z.of_nat t) <> ROOT /\
                 cell a i t = Some 1%Z /\
                 ancestor_or_self G (PyInt (Z.of_nat j)) (PyInt (Z.of_nat t))).
Proof.
  intros Hy Hg Htree Hcover Hb.
  destruct (filled_tree ROOT G a Htree Hcover) as (a' & E & Hm & Hcells).
  destruct (fill_ancestors_copy_run ROOT h y graph a G Hy Hg) as [junk Hrun].
  rewrite E in Hrun. cbn [fst snd] in Hrun.
  exists a'. eexists. split; [exact Hrun|].
  split; [apply list_lookup_middle; reflexivity|]. split; [exact Hm|].
  intros i j. rewrite Hcells.
  apply or_iff_compat_l, and_iff_compat_l, and_iff_compat_l.
  split; intros (t & Ht & Hne & Hp & Hanc); exists t;
    (split; [exact Ht|]; split; [exact Hne|]; split; [|exact Hanc]);
    by apply (positive_binary a i t Hb).
Qed.

Lemma fill_ancestors_tree_closure_witness :
  exists a' h',
    fill_ancestors (PyStr "<ROOT>") 0 2 true (chain_heap (PyStr "<ROOT>") only_B only_A)
      = (Ok 3, h') /\
    h' !! 3 = Some (ONdarray a') /\
    cell a' 0 0 = Some 1%Z.
Proof.
  destruct (fill_ancestors_tree_closure (PyStr "<ROOT>")
              (chain_heap (PyStr "<ROOT>") only_B only_A) 0 2 only_B
              (chain_AB (PyStr "<ROOT>")) eq_refl eq_refl)
    as (a' & h' & Hrun & Hl & _ & Hcells).
  - apply chain_AB_tree; discriminate.
  - intros v. cbn. rewrite !elem_of_cons, elem_of_nil.
    intros [->|[->|[->|[]]]] Hne; [congruence | by exists 0; split; [|lia]
                                  | by exists 1; split; [|lia]].
  - reflexivity.
  - exists a', h'. split; [exact Hrun|]. split; [exact Hl|].
    apply Hcells. right. split; [by eexists|]. split; [discriminate|].
    exists 1. split; [cbn; rewrite !elem_of_cons; tauto|]. split; [discriminate|].
    split; [reflexivity|].
    apply rtc_once. cbn. rewrite !elem_of_cons. tauto.
Defined.

(** X3. On a tree hierarchy whose classes are columns of the matrix, the
    fill is idempotent: when [fill_ancestors] returns a matrix, calling
    it on that matrix returns, and the second result holds the same
    matrix. *)
Theorem fill_ancestors_tree_idempotent (ROOT : node) (h h1 : heap) (y graph l1 : loc)
    (a : ndarray) (G : DiGraph) :
  h !! y = Some (ONdarray a) ->
  h !! graph = Some (ODiGraph G) ->
  tree_hierarchy ROOT G ->
  columns_cover ROOT G a ->
  fill_ancestors ROOT y graph true h = (Ok l1, h1) ->
  exists l2 h2,
    fill_ancestors ROOT l1 graph true h1 = (Ok l2, h2) /\
    h2 !! l2 = h1 !! l1.
Proof.
  intros Hy Hg Htree Hcover Hrun.
  destruct (fill_ancestors_returns ROOT true h y graph a G l1 h1 Hy Hg Hrun)
    as (Hok & Hl1 & Hres).
  assert (Hg1 : h1 !! graph = Some (ODiGraph G)).
  { pose proof (fill_ancestors_frame ROOT true h y graph a G graph _ Hy Hg Hg) as F.
    rewrite Hrun in F. apply F. apply lookup_lt_Some in Hg. lia. }
  assert (E : filled ROOT true a G = (Ok tt, (filled ROOT true a G).2)).
  { destruct (filled ROOT true a G) as [r a']. cbn in Hok |- *. by rewrite Hok. }
  pose proof (filled_tree_idempotent ROOT G a _ Htree Hcover E) as E2.
  destruct (fill_ancestors_copy_run ROOT h1 l1 graph _ G Hres Hg1) as [junk Hrun2].
  rewrite E2 in Hrun2. cbn [fst snd] in Hrun2.
  eexists _, _. split; [exact Hrun2|].
  rewrite Hres. apply list_lookup_middle. reflexivity.
Qed.

Lemma fill_ancestors_tree_idempotent_witness :
  exists l2 h2,
    fill_ancestors (PyStr "<ROOT>") 3 2 true
      (fill_ancestors (PyStr "<ROOT>") 0 2 true
         (chain_heap (PyStr "<ROOT>") only_B only_A)).2 = (Ok l2, h2) /\
    h2 !! l2 = Some (ONdarray {| n_classes := 2; data := [[1; 1]]%Z |}).
Proof.
  destruct (fill_ancestors_tree_idempotent (PyStr "<ROOT>")
              (chain_heap (PyStr "<ROOT>") only_B only_A)
              (fill_ancestors (PyStr "<ROOT>") 0 2 true
                 (chain_heap (PyStr "<ROOT>") only_B only_A)).2
              0 2 3 only_B (chain_AB (PyStr "<ROOT>")) eq_refl eq_refl)
    as (l2 & h2 & Hrun & Hsame).
  - apply chain_AB_tree; discriminate.
  - apply chain_AB_cover. reflexivity.
  - reflexivity.
  - exists l2, h2. split; [exact Hrun|]. rewrite Hsame. reflexivity.
Defined.

(** X4. The search needs no more levels than the graph has nodes: on a
    well-formed graph the bound of the loop is never what ends it, and a
    larger bound gives the same dictionary. *)
Theorem search_bound_not_reached (G : DiGraph) (source : node) (k : nat) :
  wf_DiGraph G ->
  source ∈ nodes G ->
  (source, 0) :: bfs_levels (length (nodes G) + k) G [source] [source] 0
  = single_source_shortest_path_length G source.
Proof. intros Hwf Hin. by apply single_source_fuel. Qed.

Lemma search_bound_not_reached_witness :
  (PyInt 2, 0) :: bfs_levels (4 + 10) (reversed (shortcut_dag (PyStr "<ROOT>")))
                    [PyInt 2] [PyInt 2] 0
  = [(PyInt 2, 0); (PyInt 1, 1); (PyStr "<ROOT>", 1); (PyInt 0, 2)].
Proof.
  apply (search_bound_not_reached (reversed (shortcut_dag (PyStr "<ROOT>"))) (PyInt 2) 10).
  - apply shortcut_dag_wf; discriminate.
  - cbn. rewrite !elem_of_cons. tauto.
Defined.

(** X5. A perfect prediction scores 1.  When the predicted matrix holds
    what the true matrix holds, the fill returns and the filled matrix
    has a nonzero entry, precision, recall and the F-score are 1 for
    every [beta]. *)
Theorem perfect_prediction_scores (ROOT : node) (h : heap) (y_true y_pred g : loc)
    (A t : ndarray) (G : DiGraph) (beta : Q) :
  h !! y_true = Some (ONdarray A) ->
  h !! y_pred = Some (ONdarray A) ->
  h !! g = Some (ODiGraph G) ->
  wf_ndarray A ->
  filled ROOT true A G = (Ok tt, t) ->
  count_nonzero t <> 0 ->
  exists hP hR f,
    (h_precision_score ROOT y_true y_pred g h).1 = Ok hP /\ (hP == 1)%Q /\
    (h_recall_score ROOT y_true y_pred g h).1 = Ok hR /\ (hR == 1)%Q /\
    (h_fbeta_score ROOT y_true y_pred g beta h).1 = Ok f /\ (f == 1)%Q.
Proof.
  intros Ht Hp Hg Hwf Hfill Hnz.
  destruct (h_precision_score_run ROOT h y_true y_pred g A A G Ht Hp Hg) as [j1 ->].
  destruct (h_recall_score_run ROOT h y_true y_pred g A A G Ht Hp Hg) as [j2 ->].
  destruct (h_fbeta_score_run ROOT h y_true y_pred g A A G beta Ht Hp Hg) as [j3 ->].
  cbn [fst].
  assert (Hpair : filled_pair ROOT A A G = Ok (t, t)).
  { unfold filled_pair. rewrite Hfill. reflexivity. }
  rewrite Hpair. cbn [result_bind]. unfold precision_of, recall_of. cbn [fst snd].
  assert (Hwt : wf_ndarray t).
  { eapply marks_only_wf; [|exact Hwf].
    pose proof (fill_loop_marks_only ROOT true A (ancestor_paths G) A) as Hm.
    fold (filled ROOT true A G) in Hm. rewrite Hfill in Hm. exact Hm. }
  destruct (both_nonzero_same t Hwt) as (mask & Hmask & Hlen).
  rewrite Hmask. cbn [result_bind]. rewrite Hlen.
  destruct (int_truediv_same _ Hnz) as (q & -> & Hq). cbn [result_bind].
  destruct (fbeta_of_ones beta q q Hq Hq) as (f & Hf & Hf1).
  exists q, q, f. repeat split; assumption.
Qed.

Lemma perfect_prediction_scores_witness :
  exists hP,
    (h_precision_score (PyStr "<ROOT>") 0 1 2
       (chain_heap (PyStr "<ROOT>") only_B only_B)).1 = Ok hP /\ (hP == 1)%Q.
Proof.
  destruct (perfect_prediction_scores (PyStr "<ROOT>")
              (chain_heap (PyStr "<ROOT>") only_B only_B) 0 1 2 only_B
              {| n_classes := 2; data := [[1; 1]]%Z |}
              (chain_AB (PyStr "<ROOT>")) 1 eq_refl eq_refl eq_refl)
    as (hP & _ & _ & HP & HP1 & _).
  - repeat constructor.
  - reflexivity.
  - discriminate.
  - exists hP. split; assumption.
Defined.



(** X7. A class of the graph that is no column of the matrix makes the fill
    fail: when some node of the graph other than [ROOT] is a string or an
    integer outside [-n_classes .. n_classes - 1], [fill_ancestors]
    raises [IndexError] and returns no matrix. *)
Theorem fill_ancestors_missing_column (ROOT : node) (copy : bool) (h : heap)
    (y graph : loc) (a : ndarray) (G : DiGraph) (v : node) :
  h !! y = Some (ONdarray a) ->
  h !! graph = Some (ODiGraph G) ->
  v ∈ nodes G ->
  v <> ROOT ->
  getitem_column a v = Raise IndexError ->
  (fill_ancestors ROOT y graph copy h).1 = Raise IndexError.
Proof.
  intros Hy Hg Hv Hne Hcol.
  rewrite (fill_ancestors_run ROOT copy h y graph a G Hy Hg). cbn zeta.
  assert (Hloop : forall paths a_,
            (exists d, (v, d) ∈ paths) ->
            n_classes a_ = n_classes a ->
            (fill_loop ROOT copy a a_ paths).1 = Raise IndexError).
  { induction paths as [|p rest IH]; intros a_ [d Hin] Hn.
    { by apply elem_of_nil in Hin. }
    cbn [fill_loop].
    destruct (fill_step ROOT copy a a_ p) as [a1|e] eqn:E.
    - apply IH.
      + apply elem_of_cons in Hin as [<-|Hin]; [|eauto].
        exfalso. unfold fill_step in E. rewrite (node_eqb_neq _ _ Hne) in E.
        assert (Hcol' : getitem_column (if copy then a else a_) v = Raise IndexError).
        { destruct copy; [exact Hcol|]. revert Hcol. unfold getitem_column.
          destruct v as [z|s]; [|tauto]. rewrite Hn.
          destruct (normalize_index _ z); cbn; [discriminate | tauto]. }
        rewrite Hcol' in E. discriminate.
      + apply fill_step_marks_only in E. rewrite <- Hn. apply E.
    - cbn. f_equal. eapply fill_step_raise, E. }
  unfold filled. rewrite (Hloop (ancestor_paths G) a); [reflexivity | | reflexivity].
  exists (single_source_shortest_path_length (reversed G) v).
  unfold ancestor_paths. apply list_elem_of_fmap. eauto.
Qed.

Lemma fill_ancestors_missing_column_witness :
  (fill_ancestors (PyStr "<ROOT>") 0 1 true
     [ONdarray only_A; ODiGraph (fork_ABC (PyStr "<ROOT>"))]).1 = Raise IndexError.
Proof.
  apply (fill_ancestors_missing_column (PyStr "<ROOT>") true
           [ONdarray only_A; ODiGraph (fork_ABC (PyStr "<ROOT>"))] 0 1 only_A
           (fork_ABC (PyStr "<ROOT>")) (PyInt 2)); try reflexivity.
  - cbn. rewrite !elem_of_cons. tauto.
  - discriminate.
Defined.

(** X8. Precision and recall of two well-formed label matrices of one
    shape lie between 0 and 1 whenever they are returned. *)
Theorem scores_between_0_and_1 (ROOT : node) (h : heap) (y_true y_pred g : loc)
    (A B : ndarray) (G : DiGraph) :
  h !! y_true = Some (ONdarray A) ->
  h !! y_pred = Some (ONdarray B) ->
  h !! g = Some (ODiGraph G) ->
  wf_ndarray A -> wf_ndarray B ->
  n_classes A = n_classes B ->
  length (data A) = length (data B) ->
  (forall hP, (h_precision_score ROOT y_true y_pred g h).1 = Ok hP -> (0 <= hP <= 1)%Q) /\
  (forall hR, (h_recall_score ROOT y_true y_pred g h).1 = Ok hR -> (0 <= hR <= 1)%Q).
Proof.
  intros Ht Hp Hg HwA HwB Hn Hl.
  destruct (h_precision_score_run ROOT h y_true y_pred g A B G Ht Hp Hg) as [j1 ->].
  destruct (h_recall_score_run ROOT h y_true y_pred g A B G Ht Hp Hg) as [j2 ->].
  cbn [fst].
  destruct (filled_pair ROOT A B G) as [[t p]|e] eqn:Hpair; cbn [result_bind];
    [|split; intros ? [=]].
  destruct (filled_pair_shapes ROOT A B G t p Hpair) as [HmA HmB].
  unfold precision_of, recall_of. cbn [fst snd].
  destruct (both_nonzero t p) as [mask|e] eqn:Hmask; cbn [result_bind];
    [|split; intros ? [=]].
  assert (Hwt : wf_ndarray t) by (by eapply marks_only_wf).
  assert (Hwp : wf_ndarray p) by (by eapply marks_only_wf).
  assert (Hn' : n_classes t = n_classes p).
  { rewrite (marks_only_n_classes _ _ HmA), (marks_only_n_classes _ _ HmB). exact Hn. }
  assert (Hl' : length (data t) = length (data p)).
  { rewrite (marks_only_length _ _ HmA), (marks_only_length _ _ HmB). exact Hl. }
  destruct (true_positives_le t p mask Hwt Hwp Hn' Hl' Hmask) as [Hlt Hlp].
  split; intros q Hq;
    [exact (int_truediv_bounds _ _ q Hlp Hq) | exact (int_truediv_bounds _ _ q Hlt Hq)].
Qed.

Lemma scores_between_0_and_1_witness :
  (forall hP, (h_precision_score (PyStr "<ROOT>") 0 1 2
                 (chain_heap (PyStr "<ROOT>") only_B only_A)).1 = Ok hP ->
              (0 <= hP <= 1)%Q) /\
  (h_precision_score (PyStr "<ROOT>") 0 1 2
     (chain_heap (PyStr "<ROOT>") only_B only_A)).1 = Ok 1%Q.
Proof.
  split; [|reflexivity].
  apply (scores_between_0_and_1 (PyStr "<ROOT>")
           (chain_heap (PyStr "<ROOT>") only_B only_A) 0 1 2 only_B only_A
           (chain_AB (PyStr "<ROOT>")) eq_refl eq_refl eq_refl);
    try reflexivity; repeat constructor.
Defined.

(** X9. Every class needs a parent.  When a node of the graph other than
    [ROOT] has no incoming edge, the list [ancestors] of that node is empty
    after its last key is dropped, numpy makes a float array of the empty
    list, and [fill_ancestors] raises [IndexError], whatever the matrix
    holds and whatever [copy] is. *)
Theorem fill_ancestors_parentless_class (ROOT : node) (copy : bool) (h : heap)
    (y graph : loc) (a : ndarray) (G : DiGraph) (v : node) :
  h !! y = Some (ONdarray a) ->
  h !! graph = Some (ODiGraph G) ->
  v ∈ nodes G ->
  v <> ROOT ->
  predecessors G v = [] ->
  (fill_ancestors ROOT y graph copy h).1 = Raise IndexError.
Proof.
  intros Hy Hg Hv Hne Hpred.
  rewrite (fill_ancestors_run ROOT copy h y graph a G Hy Hg). cbn zeta.
  assert (Hloop : (filled ROOT copy a G).1 = Raise IndexError).
  { unfold filled.
    apply (fill_loop_stops ROOT copy a _ (v, single_source_shortest_path_length (reversed G) v)).
    - unfold ancestor_paths. apply list_elem_of_fmap. eauto.
    - intros a_. rewrite (search_no_parent G v Hpred). unfold fill_step.
      rewrite (node_eqb_neq _ _ Hne). cbn [keys map fst removelast index_array].
      destruct (getitem_column _ v); cbn; eauto. }
  rewrite Hloop. reflexivity.
Qed.

Lemma fill_ancestors_parentless_class_witness :
  (fill_ancestors (PyStr "<ROOT>") 0 1 true
     [ONdarray only_A;
      ODiGraph {| nodes := [PyStr "<ROOT>"; PyInt 0; PyInt 1];
                  edges := [(PyStr "<ROOT>", PyInt 0)] |}]).1 = Raise IndexError.
Proof.
  apply (fill_ancestors_parentless_class (PyStr "<ROOT>") true _ 0 1 only_A
           {| nodes := [PyStr "<ROOT>"; PyInt 0; PyInt 1];
              edges := [(PyStr "<ROOT>", PyInt 0)] |} (PyInt 1)); try reflexivity.
  - cbn. rewrite !elem_of_cons. tauto.
  - discriminate.
Defined.



(** X11. The F-score with [beta = 1] is symmetric: exchanging the true and
    the predicted matrix gives the same number when a number is returned,
    and the same exception otherwise. *)
Theorem f1_score_symmetric (ROOT : node) (h : heap) (a b g : loc)
    (A B : ndarray) (G : DiGraph) :
  h !! a = Some (ONdarray A) ->
  h !! b = Some (ONdarray B) ->
  h !! g = Some (ODiGraph G) ->
  match (h_fbeta_score ROOT a b g 1 h).1, (h_fbeta_score ROOT b a g 1 h).1 with
  | Ok x, Ok y => (x == y)%Q
  | Raise e, Raise e' => e = e'
  | _, _ => False
  end.
Proof.
  intros Ha Hb Hg.
  destruct (h_fbeta_score_run ROOT h a b g A B G 1 Ha Hb Hg) as [j1 ->].
  destruct (h_fbeta_score_run ROOT h b a g B A G 1 Hb Ha Hg) as [j2 ->].
  cbn [fst]. rewrite (filled_pair_swap ROOT A B G).
  destruct (filled_pair ROOT A B G) as [[t p]|e]; cbn [result_bind]; [|reflexivity].
  unfold precision_of, recall_of. cbn [fst snd].
  rewrite (both_nonzero_comm p t).
  destruct (both_nonzero t p) as [mask|e]; cbn [result_bind]; [|reflexivity].
  unfold int_truediv.
  destruct (count_nonzero p =? 0), (count_nonzero t =? 0); cbn [result_bind];
    try reflexivity.
  apply fbeta_of_1_swap.
Qed.

Lemma f1_score_symmetric_witness :
  match (h_fbeta_score (PyStr "<ROOT>") 0 1 2 1
           (chain_heap (PyStr "<ROOT>") only_B only_A)).1,
        (h_fbeta_score (PyStr "<ROOT>") 1 0 2 1
           (chain_heap (PyStr "<ROOT>") only_B only_A)).1 with
  | Ok x, Ok y => (x == y)%Q
  | Raise e, Raise e' => e = e'
  | _, _ => False
  end.
Proof.
  apply (f1_score_symmetric (PyStr "<ROOT>") (chain_heap (PyStr "<ROOT>") only_B only_A)
           0 1 2 only_B only_A (chain_AB (PyStr "<ROOT>"))); reflexivity.
Defined.

(** X12. The scores do not compare the shapes of the two matrices
    themselves; numpy does when the filled matrices are combined.  When
    both fills return and the numbers of rows differ, neither being 1, or
    the numbers of columns differ, neither being 1, the three scores
    raise [ValueError]. *)
Theorem scores_shape_mismatch (ROOT : node) (h : heap) (y_true y_pred g : loc)
    (A B t p : ndarray) (G : DiGraph) (beta : Q) :
  h !! y_true = Some (ONdarray A) ->
  h !! y_pred = Some (ONdarray B) ->
  h !! g = Some (ODiGraph G) ->
  filled_pair ROOT A B G = Ok (t, p) ->
  (length (data A) <> length (data B) /\ length (data A) <> 1 /\ length (data B) <> 1) \/
  (n_classes A <> n_classes B /\ n_classes A <> 1 /\ n_classes B <> 1) ->
  (h_precision_score ROOT y_true y_pred g h).1 = Raise ValueError /\
  (h_recall_score ROOT y_true y_pred g h).1 = Raise ValueError /\
  (h_fbeta_score ROOT y_true y_pred g beta h).1 = Raise ValueError.
Proof.
  intros Ht Hp Hg Hpair Hshape.
  destruct (h_precision_score_run ROOT h y_true y_pred g A B G Ht Hp Hg) as [j1 ->].
  destruct (h_recall_score_run ROOT h y_true y_pred g A B G Ht Hp Hg) as [j2 ->].
  destruct (h_fbeta_score_run ROOT h y_true y_pred g A B G beta Ht Hp Hg) as [j3 ->].
  cbn [fst]. rewrite Hpair. cbn [result_bind]. unfold precision_of, recall_of. cbn [fst snd].
  destruct (filled_pair_shapes ROOT A B G t p Hpair) as [(Hn1 & Hl1 & _) (Hn2 & Hl2 & _)].
  rewrite (both_nonzero_mismatch t p); [repeat split|].
  rewrite Hn1, Hn2, Hl1, Hl2. exact Hshape.
Qed.

Lemma scores_shape_mismatch_witness :
  (h_precision_score (PyStr "<ROOT>") 0 1 2
     [ONdarray {| n_classes := 2; data := [[0; 1]; [1; 0]]%Z |};
      ONdarray {| n_classes := 2; data := [[0; 1]; [1; 0]; [1; 1]]%Z |};
      ODiGraph (chain_AB (PyStr "<ROOT>"))]).1 = Raise ValueError.
Proof.
  destruct (scores_shape_mismatch (PyStr "<ROOT>")
     [ONdarray {| n_classes := 2; data := [[0; 1]; [1; 0]]%Z |};
      ONdarray {| n_classes := 2; data := [[0; 1]; [1; 0]; [1; 1]]%Z |};
      ODiGraph (chain_AB (PyStr "<ROOT>"))] 0 1 2
     {| n_classes := 2; data := [[0; 1]; [1; 0]]%Z |}
     {| n_classes := 2; data := [[0; 1]; [1; 0]; [1; 1]]%Z |}
     {| n_classes := 2; data := [[1; 1]; [1; 0]]%Z |}
     {| n_classes := 2; data := [[1; 1]; [1; 0]; [1; 1]]%Z |}
     (chain_AB (PyStr "<ROOT>")) 1 eq_refl eq_refl eq_refl eq_refl) as (HP & _).
  - left. cbn. lia.
  - exact HP.
Defined.

(** X13. What a failing call leaves behind.  Whatever the outcome of
    [fill_ancestors], a reference returned or an exception: with [copy=True]
    every object the heap held is as it was, the input matrix among them;
    with [copy=False] every object but the input matrix is as it was, and
    the input matrix has kept its shape and its entries, except for some
    that have been overwritten by 1. *)
Theorem fill_ancestors_exception_safety (ROOT : node) (copy : bool) (h : heap)
    (y graph : loc) (a : ndarray) (G : DiGraph) :
  h !! y = Some (ONdarray a) ->
  h !! graph = Some (ODiGraph G) ->
  (copy = true ->
     forall k o, h !! k = Some o -> (fill_ancestors ROOT y graph copy h).2 !! k = Some o) /\
  (copy = false ->
     (forall k o, k <> y -> h !! k = Some o ->
        (fill_ancestors ROOT y graph copy h).2 !! k = Some o) /\
     exists a', (fill_ancestors ROOT y graph copy h).2 !! y = Some (ONdarray a') /\
                marks_only a a').
Proof.
  intros Hy Hg. split; intros ->.
  - intros k o Hk. apply (fill_ancestors_frame ROOT true h y graph a G k o Hy Hg Hk).
    apply lookup_lt_Some in Hk. lia.
  - split.
    + intros k o Hne Hk.
      apply (fill_ancestors_frame ROOT false h y graph a G k o Hy Hg Hk Hne).
    + exists (filled ROOT false a G).2. split.
      * rewrite (fill_ancestors_run ROOT false h y graph a G Hy Hg). cbn zeta.
        assert (Hlt : y < length h) by (eapply lookup_lt_Some; exact Hy).
        assert (H1 : <[y := ONdarray (filled ROOT false a G).2]> (h ++ [OReverseView graph]) !! y
                     = Some (ONdarray (filled ROOT false a G).2)).
        { apply list_lookup_insert_eq. rewrite length_app. lia. }
        destruct (filled ROOT false a G).1 as [[]|e]; cbn [snd]; [|exact H1].
        by apply lookup_app_l_Some.
      * apply fill_loop_marks_only.
Qed.

Lemma fill_ancestors_exception_safety_witness :
  exists a',
    (fill_ancestors (PyStr "<ROOT>") 0 1 false
       [ONdarray only_B; ODiGraph (fork_ABC (PyStr "<ROOT>"))]).2 !! 0
      = Some (ONdarray a') /\
    marks_only only_B a'.
Proof.
  destruct (fill_ancestors_exception_safety (PyStr "<ROOT>") false
              [ONdarray only_B; ODiGraph (fork_ABC (PyStr "<ROOT>"))] 0 1 only_B
              (fork_ABC (PyStr "<ROOT>")) eq_refl eq_refl) as [_ H].
  destruct (H eq_refl) as [_ Ha]. exact Ha.
Defined.

(** X14. On a tree hierarchy whose classes are columns of the matrix the
    flag [copy] does not change what is computed: [fill_ancestors] with
    [copy=False] returns the input array, and that array then holds the
    very matrix that [copy=True] returns in a new array.  (Without a copy
    the loop reads rows that earlier turns have written; on a tree what
    they add are ancestors of the labels of the row, whose own ancestors
    the row gets anyway.) *)
Theorem fill_ancestors_in_place_same_matrix (ROOT : node) (h : heap) (y graph : loc)
    (a : ndarray) (G : DiGraph) :
  h !! y = Some (ONdarray a) ->
  h !! graph = Some (ODiGraph G) ->
  tree_hierarchy ROOT G ->
  columns_cover ROOT G a ->
  exists a' h1 h2,
    fill_ancestors ROOT y graph true h = (Ok (length h), h1) /\
    h1 !! length h = Some (ONdarray a') /\
    fill_ancestors ROOT y graph false h = (Ok y, h2) /\
    h2 !! y = Some (ONdarray a').
Proof.
  intros Hy Hg Htree Hcover.
  destruct (filled_tree ROOT G a Htree Hcover) as (a' & E & _).
  pose proof (filled_tree_inplace ROOT G a Htree Hcover) as Esame.
  exists a'.
  pose proof (fill_ancestors_run ROOT true h y graph a G Hy Hg) as R1.
  pose proof (fill_ancestors_run ROOT false h y graph a G Hy Hg) as R2.
  cbn zeta in R1, R2. rewrite Esame in R2. rewrite E in R1, R2. cbn [fst snd] in R1, R2.
  eexists _, _. split; [exact R1|]. split; [|split; [exact R2|]].
  - eapply fill_ancestors_returns in R1 as (_ & _ & H); [|exact Hy|exact Hg].
    rewrite E in H. exact H.
  - eapply fill_ancestors_returns in R2 as (_ & _ & H); [|exact Hy|exact Hg].
    rewrite Esame, E in H. exact H.
Qed.

Lemma fill_ancestors_in_place_same_matrix_witness :
  exists a' h1 h2,
    fill_ancestors (PyStr "<ROOT>") 0 2 true (chain_heap (PyStr "<ROOT>") only_B only_A)
      = (Ok 3, h1) /\
    h1 !! 3 = Some (ONdarray a') /\
    fill_ancestors (PyStr "<ROOT>") 0 2 false (chain_heap (PyStr "<ROOT>") only_B only_A)
      = (Ok 0, h2) /\
    h2 !! 0 = Some (ONdarray a').
Proof.
  apply (fill_ancestors_in_place_same_matrix (PyStr "<ROOT>")
           (chain_heap (PyStr "<ROOT>") only_B only_A) 0 2 only_B
           (chain_AB (PyStr "<ROOT>")) eq_refl eq_refl).
  - apply chain_AB_tree; discriminate.
  - apply chain_AB_cover. reflexivity.
Defined.

(** X15. On a tree hierarchy whose classes are columns of both matrices,
    the scores of two matrices are the scores of their fills: filling
    the true and the predicted matrix first and scoring the two results
    gives what scoring the two inputs gives, for precision, for recall
    and for the F-score of every [beta]. *)
Theorem scores_of_filled_matrices (ROOT : node) (h h1 h2 : heap)
    (y_true y_pred g l1 l2 : loc) (A B : ndarray) (G : DiGraph) :
  h !! y_true = Some (ONdarray A) ->
  h !! y_pred = Some (ONdarray B) ->
  h !! g = Some (ODiGraph G) ->
  tree_hierarchy ROOT G ->
  columns_cover ROOT G A ->
  columns_cover ROOT G B ->
  fill_ancestors ROOT y_true g true h = (Ok l1, h1) ->
  fill_ancestors ROOT y_pred g true h1 = (Ok l2, h2) ->
  (h_precision_score ROOT l1 l2 g h2).1 = (h_precision_score ROOT y_true y_pred g h).1 /\
  (h_recall_score ROOT l1 l2 g h2).1 = (h_recall_score ROOT y_true y_pred g h).1 /\
  forall beta,
    (h_fbeta_score ROOT l1 l2 g beta h2).1 = (h_fbeta_score ROOT y_true y_pred g beta h).1.
Proof.
  intros Ht Hp Hg Htree HcA HcB R1 R2.
  destruct (fill_ancestors_returns ROOT true h y_true g A G l1 h1 Ht Hg R1)
    as (Hok1 & Hl1 & Hres1).
  assert (Hext1 : forall k o, h !! k = Some o -> h1 !! k = Some o).
  { intros k o Hk.
    pose proof (fill_ancestors_frame ROOT true h y_true g A G k o Ht Hg Hk) as F.
    rewrite R1 in F. apply F. apply lookup_lt_Some in Hk. lia. }
  pose proof (Hext1 _ _ Hp) as Hp1. pose proof (Hext1 _ _ Hg) as Hg1.
  destruct (fill_ancestors_returns ROOT true h1 y_pred g B G l2 h2 Hp1 Hg1 R2)
    as (Hok2 & Hl2 & Hres2).
  assert (Hext2 : forall k o, h1 !! k = Some o -> h2 !! k = Some o).
  { intros k o Hk.
    pose proof (fill_ancestors_frame ROOT true h1 y_pred g B G k o Hp1 Hg1 Hk) as F.
    rewrite R2 in F. apply F. apply lookup_lt_Some in Hk. lia. }
  pose proof (Hext2 _ _ Hres1) as Hres1'. pose proof (Hext2 _ _ Hg1) as Hg2.
  set (t := (filled ROOT true A G).2) in *. set (p := (filled ROOT true B G).2) in *.
  assert (Hpair : filled_pair ROOT A B G = Ok (t, p)).
  { unfold filled_pair. subst t p.
    destruct (filled ROOT true A G) as [rA tA], (filled ROOT true B G) as [rB pB].
    cbn in Hok1, Hok2 |- *. subst rA rB. reflexivity. }
  pose proof (filled_pair_tree_idempotent ROOT G A B t p Htree HcA HcB Hpair) as Hpair'.
  destruct (h_precision_score_run ROOT h y_true y_pred g A B G Ht Hp Hg) as [j1 ->].
  destruct (h_recall_score_run ROOT h y_true y_pred g A B G Ht Hp Hg) as [j2 ->].
  destruct (h_precision_score_run ROOT h2 l1 l2 g t p G Hres1' Hres2 Hg2) as [j3 ->].
  destruct (h_recall_score_run ROOT h2 l1 l2 g t p G Hres1' Hres2 Hg2) as [j4 ->].
  cbn [fst]. rewrite Hpair, Hpair'. split; [reflexivity|]. split; [reflexivity|].
  intros beta.
  destruct (h_fbeta_score_run ROOT h y_true y_pred g A B G beta Ht Hp Hg) as [j5 ->].
  destruct (h_fbeta_score_run ROOT h2 l1 l2 g t p G beta Hres1' Hres2 Hg2) as [j6 ->].
  cbn [fst]. rewrite Hpair, Hpair'. reflexivity.
Qed.

Lemma scores_of_filled_matrices_witness :
  exists h1 h2,
    fill_ancestors (PyStr "<ROOT>") 0 2 true (chain_heap (PyStr "<ROOT>") only_B only_A)
      = (Ok 3, h1) /\
    fill_ancestors (PyStr "<ROOT>") 1 2 true h1 = (Ok 6, h2) /\
    (h_precision_score (PyStr "<ROOT>") 3 6 2 h2).1
    = (h_precision_score (PyStr "<ROOT>") 0 1 2
         (chain_heap (PyStr "<ROOT>") only_B only_A)).1.
Proof.
  eexists _, _. split; [vm_compute; reflexivity|]. split; [vm_compute; reflexivity|].
  eapply (scores_of_filled_matrices (PyStr "<ROOT>")
            (chain_heap (PyStr "<ROOT>") only_B only_A) _ _
            0 1 2 3 6 only_B only_A (chain_AB (PyStr "<ROOT>"))).
  - reflexivity.
  - reflexivity.
  - reflexivity.
  - apply chain_AB_tree; discriminate.
  - apply chain_AB_cover. reflexivity.
  - apply chain_AB_cover. reflexivity.
  - vm_compute. reflexivity.
  - vm_compute. reflexivity.
Defined.

(** X16. [multi_labeled] fits the binarizer on the nodes themselves, so
    every node is iterated as a set of labels.  When the graph has a node
    other than [ROOT] that is an integer, the generator raises
    [TypeError] before it yields, and makes no object: class ids have to
    be strings, and the generator cannot take the graph of integer ids
    that it yields itself. *)
Theorem multi_labeled_integer_class (ROOT : node) (y_true y_pred : list (list node))
    (graph : loc) (h : heap) (G : DiGraph) (z : Z) :
  h !! graph = Some (ODiGraph G) ->
  PyInt z ∈ nodes G ->
  PyInt z <> ROOT ->
  multi_labeled ROOT y_true y_pred graph h = (Ok TypeError, h).
Proof.
  intros Hg Hin Hne. rewrite (multi_labeled_run ROOT y_true y_pred graph h G Hg).
  unfold fit. rewrite (chain_from_iterable_int _ z); [reflexivity|].
  by apply elem_of_classes_nodes.
Qed.

Lemma multi_labeled_integer_class_witness :
  multi_labeled (PyStr "<ROOT>") [[PyInt 1]] [[PyInt 0]] 0
    [ODiGraph (chain_AB (PyStr "<ROOT>"))]
  = (Ok TypeError, [ODiGraph (chain_AB (PyStr "<ROOT>"))]).
Proof.
  apply (multi_labeled_integer_class (PyStr "<ROOT>") [[PyInt 1]] [[PyInt 0]] 0
           [ODiGraph (chain_AB (PyStr "<ROOT>"))] (chain_AB (PyStr "<ROOT>")) 1).
  - reflexivity.
  - cbn. rewrite !elem_of_cons. tauto.
  - discriminate.
Defined.



(** X18. With a tree hierarchy whose classes are named by strings of one
    character (and a [ROOT] that is no integer), the generator and the
    fill work together.  [multi_labeled] yields two matrices and a graph
    of integer ids, new objects that leave the given graph as it was;
    the classes of the binarizer, which number the columns, are the
    class names of the graph, each once and in ascending order; and
    [fill_ancestors] on either matrix and the yielded graph
    returns the ancestor closure of the sample read in the given graph:
    the entry of a sample and a class is 1 exactly when a label of the
    sample is a class of the graph at or below that class, and 0
    otherwise.  A label that is no class of the graph counts for
    nothing. *)
Theorem multi_labeled_then_fill (ROOT : node) (y_true y_pred : list (list node))
    (graph : loc) (h : heap) (G : DiGraph) :
  h !! graph = Some (ODiGraph G) ->
  tree_hierarchy ROOT G ->
  (forall v, v ∈ nodes G -> v <> ROOT -> exists c, v = PyStr (String c EmptyString)) ->
  (forall z, ROOT <> PyInt z) ->
  exists classes yt yp g h1,
    multi_labeled ROOT y_true y_pred graph h = (Ok (Iterated (yt, yp, g)), h1) /\
    h1 !! graph = Some (ODiGraph G) /\
    h !! yt = None /\ h !! yp = None /\ h !! g = None /\
    NoDup classes /\
    Sorted string_le classes /\
    (forall s, s ∈ classes <-> PyStr s ∈ nodes G /\ PyStr s <> ROOT) /\
    (exists a' h2,
       fill_ancestors ROOT yt g true h1 = (Ok (length h1), h2) /\
       h2 !! length h1 = Some (ONdarray a') /\
       labels_closure ROOT G classes y_true a') /\
    (exists a' h2,
       fill_ancestors ROOT yp g true h1 = (Ok (length h1), h2) /\
       h2 !! length h1 = Some (ONdarray a') /\
       labels_closure ROOT G classes y_pred a').
Proof.
  intros Hg Htree Hsingle Hint.
  rewrite (multi_labeled_run ROOT y_true y_pred graph h G Hg).
  destruct (fit_single (List.filter (fun n => negb (node_eqb n ROOT)) (nodes G)))
    as (classes & -> & Hnd & Hsorted & Hmem).
  { intros v [Hv Hne]%elem_of_classes_nodes. by apply Hsingle. }
  assert (Hclasses : forall s, s ∈ classes <-> PyStr s ∈ nodes G /\ PyStr s <> ROOT).
  { intros s. rewrite Hmem. apply elem_of_classes_nodes. }
  assert (Hnames : forall v, v ∈ nodes G -> v <> ROOT -> exists s, v = PyStr s).
  { intros v Hv Hne. destruct (Hsingle v Hv Hne) as [c ->]. eauto. }
  set (G' := relabel_nodes G _).
  set (h1 := h ++ _).
  assert (Hyt : h1 !! length h = Some (ONdarray (transform classes y_true))).
  { subst h1. apply list_lookup_middle. reflexivity. }
  assert (Hyp : h1 !! S (length h) = Some (ONdarray (transform classes y_pred))).
  { subst h1. rewrite lookup_app_r by lia. by replace (S (length h) - length h) with 1 by lia. }
  assert (Hg' : h1 !! S (S (length h)) = Some (ODiGraph G')).
  { subst h1. rewrite lookup_app_r by lia.
    by replace (S (S (length h)) - length h) with 2 by lia. }
  exists classes, (length h), (S (length h)), (S (S (length h))), h1.
  split; [reflexivity|]. split; [subst h1; by apply lookup_app_l_Some|].
  split; [apply lookup_ge_None; lia|]. split; [apply lookup_ge_None; lia|].
  split; [apply lookup_ge_None; lia|]. split; [exact Hnd|]. split; [exact Hsorted|].
  split; [exact Hclasses|].
  split.
  - apply (labelled_fill_closure ROOT G classes y_true h1 _ _ Htree Hint Hnd Hclasses
             Hnames Hyt Hg').
  - apply (labelled_fill_closure ROOT G classes y_pred h1 _ _ Htree Hint Hnd Hclasses
             Hnames Hyp Hg').
Qed.

Lemma multi_labeled_then_fill_witness :
  exists classes yt yp g h1,
    multi_labeled (PyStr "<ROOT>") [[PyStr "a"]] [[PyStr "b"]] 0
      [ODiGraph (chain_ba (PyStr "<ROOT>"))] = (Ok (Iterated (yt, yp, g)), h1) /\
    NoDup classes /\
    exists a' h2,
      fill_ancestors (PyStr "<ROOT>") yt g true h1 = (Ok (length h1), h2) /\
      h2 !! length h1 = Some (ONdarray a') /\
      labels_closure (PyStr "<ROOT>") (chain_ba (PyStr "<ROOT>")) classes [[PyStr "a"]] a'.
Proof.
  destruct (multi_labeled_then_fill (PyStr "<ROOT>") [[PyStr "a"]] [[PyStr "b"]] 0
              [ODiGraph (chain_ba (PyStr "<ROOT>"))] (chain_ba (PyStr "<ROOT>")) eq_refl)
    as (classes & yt & yp & g & h1 & Hrun & _ & _ & _ & _ & Hnd & _ & _ & Htrue & _).
  - exact chain_ba_tree.
  - intros v. cbn. rewrite !elem_of_cons, elem_of_nil.
    intros [->|[->|[->|[]]]] Hne; [congruence | by exists "b"%char | by exists "a"%char].
  - discriminate.
  - exists classes, yt, yp, g, h1. split; [exact Hrun|]. split; [exact Hnd|]. exact Htrue.
Defined.
